(** * Stereo depth and size calculator (app.py): a binary64 embedding

    The Flask application in [app.py] rescales a fixed camera calibration to
    the resolution of the uploaded image ([get_scaled_intrinsics]), recovers a
    depth from the disparity of two clicks ([calculate_stereo]) and measures a
    planar distance at that depth ([calculate_size]).

    Python's [float] is IEEE 754 binary64, which is what Rocq's primitive
    floats are, so every arithmetic operation of the source is embedded as the
    corresponding operation on [float], with Python's exceptions made explicit
    in a small error monad.  Image dimensions arrive as JSON integers, that is
    as Python [int]s, and are embedded as [Z].

    Three facts of the runtime are written out in [Module Py]:
    - [int / int] is the correctly rounded quotient and raises [OverflowError]
      when that quotient is not representable;
    - [float / float] raises [ZeroDivisionError] on a zero divisor, and
      [float ** 2] raises [OverflowError] when a finite operand overflows
      (the square itself is taken correctly rounded);
    - [round(x, n)] rounds the exact binary value half-to-even at the n-th
      decimal and returns the float nearest to that decimal number.

    The request plumbing ([request.get_json], [jsonify], the debug [print])
    is left out: a handler takes its typed arguments and returns the payload
    it would serialise.  The handlers as they act on the parsed request, with
    its missing keys and its values of any JSON type, follow in
    [Module RequestRoutes]; the two functions of [pose_tracking.py] that shape
    the CSV log come in between. *)

From Stdlib Require Import ZArith Bool List String Ascii DecimalString Floats Reals Lia Lra.
Import ListNotations.

Open Scope Z_scope.

(** ** Python runtime *)

Module Py.

(** The exceptions the arithmetic of the source can raise. *)
Inductive exn : Set :=
| OverflowError
| ZeroDivisionError
| ValueError.

Inductive result (A : Type) : Type :=
| OK (a : A)
| Raise (e : exn).
Arguments OK {A} a.
Arguments Raise {A} e.

Definition bind {A B : Type} (r : result A) (k : A -> result B) : result B :=
  match r with
  | OK a => k a
  | Raise e => Raise e
  end.

(** Rounding of an exact quotient or product, given as a truncated mantissa,
    an exponent and the position of the discarded part. *)
Definition SF64round (s : bool) (q : Z * Z * location) : spec_float :=
  let '(m, e, l) := q in binary_round_aux prec emax s m e l.

(** [float(n)] for an integer that a binary64 mantissa holds exactly. *)
Definition float_of_Z (n : Z) : float :=
  SF2Prim (binary_normalize prec emax n 0 false).

Definition is_small (n : Z) : bool := Z.abs n <? 2 ^ 53.

Definition is_finite (f : float) : bool := negb (is_nan f || is_infinity f).

(** The correctly rounded quotient of two integers, [b <> 0]. *)
Definition Z_quotient (a b : Z) : float :=
  match a with
  | Z0 => if b <? 0 then (-0)%float else 0%float
  | _ => SF2Prim (SF64round (xorb (a <? 0) (b <? 0))
                    (SFdiv_core_binary prec emax (Z.abs a) 0 (Z.abs b) 0))
  end.

(** [a / b] on two [int]s.  When both operands fit a mantissa the
    interpreter divides their exact conversions; otherwise it rounds the
    exact quotient, and refuses a quotient beyond the largest float. *)
Definition int_truediv (a b : Z) : result float :=
  if b =? 0 then Raise ZeroDivisionError
  else if is_small a && is_small b then OK (float_of_Z a / float_of_Z b)%float
  else let q := Z_quotient a b in
       if is_infinity q then Raise OverflowError else OK q.

(** [a / b] on two [float]s. *)
Definition float_truediv (a b : float) : result float :=
  if (b =? 0)%float then Raise ZeroDivisionError else OK (a / b)%float.

(** [a ** 2] on a [float]. *)
Definition float_pow2 (a : float) : result float :=
  let r := (a * a)%float in
  if is_infinity r && is_finite a then Raise OverflowError else OK r.

(** [math.sqrt]. *)
Definition math_sqrt (a : float) : result float :=
  if (a <? 0)%float then Raise ValueError else OK (PrimFloat.sqrt a).

(** Nearest integer to [n / d], ties to the even one ([0 <= n], [0 < d]). *)
Definition Z_round_half_even (n d : Z) : Z :=
  let q := n / d in
  let r := n mod d in
  match 2 * r ?= d with
  | Lt => q
  | Gt => q + 1
  | Eq => if Z.even q then q else q + 1
  end.

(** [round(x, ndigits)] for [0 <= ndigits]. *)
Definition round (x : float) (ndigits : Z) : float :=
  match Prim2SF x with
  | S754_finite s m e =>
      let p := 10 ^ ndigits in
      let n := if 0 <=? e then Zpos m * 2 ^ e * p
               else Z_round_half_even (Zpos m * p) (2 ^ (- e)) in
      let r := Z_quotient n p in
      if s then (- r)%float else r
  | _ => x
  end.

End Py.

Import Py.

Declare Scope py_scope.
Delimit Scope py_scope with py.
Notation "x <- c ;; k" := (bind c (fun x => k))
  (at level 61, c at next level, right associativity) : py_scope.
Open Scope py_scope.

(** ** The application *)

(** Camera calibration at the original 1280x720 resolution. *)
Definition ORIG_FX : float := 991.396%float.
Definition ORIG_FY : float := 991.628%float.
Definition ORIG_CX : float := 671.244%float.
Definition ORIG_CY : float := 371.286%float.
Definition CALIB_W : Z := 1280.
Definition CALIB_H : Z := 720.

(** Distance between the two camera positions, in cm. *)
Definition BASELINE : float := 10.0%float.

(** A clicked pixel: the JSON object with keys x and y. *)
Record PixelPoint : Set := mkPoint { px : float; py : float }.

(** The tuple [fx, fy, cx, cy] returned by the scaler. *)
Record Intrinsics : Set := mkIntrinsics { fx : float; fy : float; cx : float; cy : float }.

Definition get_scaled_intrinsics (img_w img_h : Z) : result Intrinsics :=
  scale_x <- int_truediv img_w CALIB_W ;;
  scale_y <- int_truediv img_h CALIB_H ;;
  OK (mkIntrinsics (ORIG_FX * scale_x) (ORIG_FY * scale_y)
                   (ORIG_CX * scale_x) (ORIG_CY * scale_y))%float.

(** The two payloads of the depth route. *)
Inductive StereoResponse : Set :=
| StereoError (error : string)
| StereoResult (Z_cm disparity : float).

Definition DisparityTooSmall : StereoResponse :=
  StereoError "Disparity is too small (d < 1.0). You clicked the same pixel or close to it!".

(** Line 54: the disparity of the two clicks. *)
Definition disparity_of (p_left p_right : PixelPoint) : float :=
  PrimFloat.abs (px p_left - px p_right)%float.

(** Line 60: [(fx * BASELINE) / disparity]. *)
Definition calculated_Z (fx disparity : float) : result float :=
  float_truediv (fx * BASELINE)%float disparity.

Definition calculate_stereo (p_left p_right : PixelPoint) (img_w img_h : Z)
  : result StereoResponse :=
  k <- get_scaled_intrinsics img_w img_h ;;
  let disparity := disparity_of p_left p_right in
  if (disparity <? 1.0)%float then OK DisparityTooSmall
  else
    Zc <- calculated_Z (fx k) disparity ;;
    OK (StereoResult (round Zc 4) (round disparity 2)).

(** The payload of the size route. *)
Record SizeResponse : Set := mkSize { size_cm : float; dX : float; dY : float }.

(** Lines 84-88: a pixel coordinate back-projected at depth [Zd]. *)
Definition back_project (p c Zd f : float) : result float :=
  float_truediv ((p - c) * Zd)%float f.

(** Lines 84-93: the displacements [dx], [dy] and [real_size], before the
    payload is rounded. *)
Definition measure (p1 p2 : PixelPoint) (Zd : float) (k : Intrinsics)
  : result (float * float * float) :=
  X1 <- back_project (px p1) (cx k) Zd (fx k) ;;
  Y1 <- back_project (py p1) (cy k) Zd (fy k) ;;
  X2 <- back_project (px p2) (cx k) Zd (fx k) ;;
  Y2 <- back_project (py p2) (cy k) Zd (fy k) ;;
  let dx := (X2 - X1)%float in
  let dy := (Y2 - Y1)%float in
  dx2 <- float_pow2 dx ;;
  dy2 <- float_pow2 dy ;;
  real_size <- math_sqrt (dx2 + dy2)%float ;;
  OK (real_size, dx, dy).

Definition calculate_size (p1 p2 : PixelPoint) (Zd : float) (img_w img_h : Z)
  : result SizeResponse :=
  k <- get_scaled_intrinsics img_w img_h ;;
  m <- measure p1 p2 Zd k ;;
  let '(real_size, dx, dy) := m in
  OK (mkSize (round real_size 4) (round (PrimFloat.abs dx) 4) (round (PrimFloat.abs dy) 4)).

(** * Pose logging (pose_tracking.py)

    The tracker writes one CSV row per camera frame.  The two functions that
    shape the file are embedded here: [generate_header] names the columns and
    [extract_full_data] fills a row from the result of the Holistic model.

    What the script takes from its libraries is passed in: the time stamp
    that [time.time()] returns, the result object of MediaPipe, and the
    member names of the enumeration [mp_holistic.PoseLandmark] in definition
    order, which is the order a [for] loop visits them in.  A landmark list
    of the result is [None] when nothing was detected and an object holding
    the repeated field [landmark] otherwise; such an object is truthy
    whatever it holds. *)

(** A landmark: normalised coordinates and, for the pose, a visibility. *)
Record Landmark : Set :=
  mkLandmark { lm_x : float; lm_y : float; lm_z : float; lm_visibility : float }.

(** The fields of the Holistic result that the script reads. *)
Record HolisticResults : Set :=
  mkResults { pose_landmarks : option (list Landmark);
              left_hand_landmarks : option (list Landmark);
              right_hand_landmarks : option (list Landmark) }.

(** A loop [for item in items: row.extend(f(item))]. *)
Definition extend_each {A B : Type} (f : A -> list B) (items : list A) (row : list B)
  : list B :=
  fold_left (fun row item => row ++ f item) items row.

(** Lines 33-56. *)
Definition extract_full_data (now : float) (results : HolisticResults) : list float :=
  let row := [now] in
  let row :=
    match pose_landmarks results with
    | Some landmark =>
        extend_each (fun lm => [lm_x lm; lm_y lm; lm_z lm; lm_visibility lm]) landmark row
    | None => row ++ repeat 0%float 132
    end in
  let row :=
    match right_hand_landmarks results with
    | Some landmark => extend_each (fun lm => [lm_x lm; lm_y lm; lm_z lm]) landmark row
    | None => row ++ repeat 0%float 63
    end in
  row.

(** [f'{i}'] for an index of [range]. *)
Definition str (i : nat) : string := NilEmpty.string_of_uint (Nat.to_uint i).

(** Lines 59-74. *)
Definition generate_header (PoseLandmark : list string) : list string :=
  let header := ["timestamp"%string] in
  let header :=
    extend_each (fun name => map (fun c => name ++ "_" ++ c)%string
                               ["x"; "y"; "z"; "vis"]%string)
                PoseLandmark header in
  let header :=
    extend_each (fun i => map (fun c => "RIGHT_HAND_" ++ str i ++ "_" ++ c)%string
                             ["x"; "y"; "z"]%string)
                (seq 0 21) header in
  header.

(** * The requests of the two routes (app.py, lines 43-48, 54 and 72-88)

    A handler does not receive typed arguments but the dictionary that
    [request.get_json()] parsed, and Python looks at the type of a value only
    when it operates on it.  [Module Request] embeds the two handlers on JSON
    values: a subscript raises [KeyError] on a missing key and [TypeError] on
    a value that is not a dictionary; arithmetic raises [TypeError] on a value
    that is not a number, takes [bool] for the [int] it is, stays in the
    integers on two [int]s and converts an [int] to [float] when the other
    operand is a [float], which raises [OverflowError] when the integer is
    too large. *)

Module Request.

(** A parsed JSON value; a dictionary keeps one value per key. *)
#[warnings="-register-all"]
Inductive json : Type :=
| JNull
| JBool (b : bool)
| JInt (n : Z)
| JFloat (f : float)
| JString (s : string)
| JArray (items : list json)
| JObject (members : list (string * json)).

(** A Python number. *)
Inductive num : Set :=
| Int (n : Z)
| Float (f : float).

Inductive error : Set :=
| KeyError (key : string)
| TypeError
| Arithmetic (e : exn).

Inductive outcome (A : Type) : Type :=
| Return (a : A)
| Fail (e : error).
Arguments Return {A} a.
Arguments Fail {A} e.

Definition bind {A B : Type} (r : outcome A) (k : A -> outcome B) : outcome B :=
  match r with
  | Return a => k a
  | Fail e => Fail e
  end.

(** An exception of the arithmetic, passed on. *)
Definition lift {A : Type} (r : result A) : outcome A :=
  match r with
  | OK a => Return a
  | Raise e => Fail (Arithmetic e)
  end.

Fixpoint lookup (key : string) (members : list (string * json)) : option json :=
  match members with
  | [] => None
  | (k, v) :: rest => if String.eqb k key then Some v else lookup key rest
  end.

(** [v[key]] for a string key. *)
Definition subscript (v : json) (key : string) : outcome json :=
  match v with
  | JObject members =>
      match lookup key members with
      | Some x => Return x
      | None => Fail (KeyError key)
      end
  | _ => Fail TypeError
  end.

(** The operand of an arithmetic operation. *)
Definition number (v : json) : outcome num :=
  match v with
  | JInt n => Return (Int n)
  | JBool b => Return (Int (if b then 1 else 0))
  | JFloat f => Return (Float f)
  | _ => Fail TypeError
  end.

(** The conversion of an [int] operand to [float]. *)
Definition to_float (n : Z) : outcome float :=
  let f := float_of_Z n in
  if is_infinity f then Fail (Arithmetic OverflowError) else Return f.

Definition as_float (a : num) : outcome float :=
  match a with
  | Int n => to_float n
  | Float f => Return f
  end.

End Request.

Declare Scope request_scope.
Delimit Scope request_scope with request.
Notation "x <- c ;; k" := (Request.bind c (fun x => k))
  (at level 61, c at next level, right associativity) : request_scope.

Module RequestRoutes.

Import Request.
Local Open Scope request_scope.

(** [a - b]. *)
Definition sub (a b : num) : outcome num :=
  match a, b with
  | Int x, Int y => Return (Int (x - y))
  | _, _ => x <- as_float a ;; y <- as_float b ;; Return (Float (x - y))
  end.

(** [a * b]. *)
Definition mul (a b : num) : outcome num :=
  match a, b with
  | Int x, Int y => Return (Int (x * y))
  | _, _ => x <- as_float a ;; y <- as_float b ;; Return (Float (x * y))
  end.

(** [a / b]. *)
Definition truediv (a b : num) : outcome float :=
  match a, b with
  | Int x, Int y => lift (int_truediv x y)
  | _, _ => x <- as_float a ;; y <- as_float b ;; lift (float_truediv x y)
  end.

(** [abs(a)]. *)
Definition abs (a : num) : num :=
  match a with
  | Int x => Int (Z.abs x)
  | Float x => Float (PrimFloat.abs x)
  end.

(** [a < 1.0]; an [int] is compared exactly. *)
Definition below_one (a : num) : bool :=
  match a with
  | Int x => x <? 1
  | Float x => (x <? 1.0)%float
  end.

(** [round(a, ndigits)] for [0 <= ndigits]; an [int] is returned as it is. *)
Definition round (a : num) (ndigits : Z) : num :=
  match a with
  | Int x => Int x
  | Float x => Float (Py.round x ndigits)
  end.

(** Lines 25-38 on the values of the request. *)
Definition get_scaled_intrinsics (img_w img_h : json) : outcome Intrinsics :=
  w <- number img_w ;;
  scale_x <- truediv w (Int CALIB_W) ;;
  h <- number img_h ;;
  scale_y <- truediv h (Int CALIB_H) ;;
  Return (mkIntrinsics (ORIG_FX * scale_x) (ORIG_FY * scale_y)
                       (ORIG_CX * scale_x) (ORIG_CY * scale_y))%float.

(** The two payloads of the depth route; the disparity keeps its type. *)
Inductive StereoPayload : Set :=
| ErrorPayload (error : string)
| DepthPayload (Z_cm : float) (disparity : num).

(** Lines 42-67. *)
Definition calculate_stereo (data : json) : outcome StereoPayload :=
  p_left <- subscript data "p_left" ;;
  p_right <- subscript data "p_right" ;;
  img_w <- subscript data "img_w" ;;
  img_h <- subscript data "img_h" ;;
  k <- get_scaled_intrinsics img_w img_h ;;
  x_left <- subscript p_left "x" ;;
  x_right <- subscript p_right "x" ;;
  a <- number x_left ;;
  b <- number x_right ;;
  d <- sub a b ;;
  let disparity := abs d in
  if below_one disparity then
    Return (ErrorPayload
      "Disparity is too small (d < 1.0). You clicked the same pixel or close to it!")
  else
    calculated_Z <- truediv (Float (fx k * BASELINE)) disparity ;;
    Return (DepthPayload (Py.round calculated_Z 4) (round disparity 2)).

(** Lines 84-88: [(p[axis] - c) * Z / f]. *)
Definition back_project (p : json) (axis : string) (c : float) (Zd : json) (f : float)
  : outcome float :=
  v <- subscript p axis ;;
  a <- number v ;;
  centred <- sub a (Float c) ;;
  z <- number Zd ;;
  scaled <- mul centred z ;;
  truediv scaled (Float f).

(** Lines 91-93. *)
Definition planar_distance (X1 Y1 X2 Y2 : float) : result (float * float * float) :=
  (let dx := (X2 - X1)%float in
   let dy := (Y2 - Y1)%float in
   dx2 <- float_pow2 dx ;;
   dy2 <- float_pow2 dy ;;
   real_size <- math_sqrt (dx2 + dy2)%float ;;
   OK (real_size, dx, dy))%py.

(** Lines 71-99. *)
Definition calculate_size (data : json) : outcome SizeResponse :=
  p1 <- subscript data "p1" ;;
  p2 <- subscript data "p2" ;;
  Zd <- subscript data "Z" ;;
  img_w <- subscript data "img_w" ;;
  img_h <- subscript data "img_h" ;;
  k <- get_scaled_intrinsics img_w img_h ;;
  X1 <- back_project p1 "x" (cx k) Zd (fx k) ;;
  Y1 <- back_project p1 "y" (cy k) Zd (fy k) ;;
  X2 <- back_project p2 "x" (cx k) Zd (fx k) ;;
  Y2 <- back_project p2 "y" (cy k) Zd (fy k) ;;
  m <- lift (planar_distance X1 Y1 X2 Y2) ;;
  let '(real_size, dx, dy) := m in
  Return (mkSize (Py.round real_size 4) (Py.round (PrimFloat.abs dx) 4)
                 (Py.round (PrimFloat.abs dy) 4)).

End RequestRoutes.

(** * Auxiliary definitions *)

Definition bpow (e : Z) : R := powerRZ 2 e.

Definition inbetween (x : R) (m e : Z) (l : location) : Prop :=
  match l with
  | loc_Exact => x = (IZR m * bpow e)%R
  | loc_Inexact c =>
      (IZR m * bpow e < x < IZR (m + 1) * bpow e)%R /\
      match c with
      | Lt => (2 * x < IZR (2 * m + 1) * bpow e)%R
      | Eq => (2 * x = IZR (2 * m + 1) * bpow e)%R
      | Gt => (IZR (2 * m + 1) * bpow e < 2 * x)%R
      end
  end.

Definition inb_rec (x : R) (mrs : shr_record) (e : Z) : Prop :=
  inbetween x (shr_m mrs) e (loc_of_shr_record mrs).

Definition canonical (x : R) (m E : Z) (l : location) : Prop :=
  inbetween x m E l /\ 0 <= m < 2 ^ 53 /\ -1074 <= E /\ (E = -1074 \/ 2 ^ 52 <= m).

Definition finish (s : bool) (m : Z) (l : location) (E : Z) : spec_float :=
  let '(mrs, e) := shr_fexp prec emax (round_nearest_even m l) E loc_Exact in
  match shr_m mrs with
  | Z0 => S754_zero s
  | Zpos p => if e <=? emax - prec then S754_finite s p e else S754_infinity s
  | Zneg _ => S754_nan
  end.

(** The float a canonical slice rounds to, spelled out. *)
Definition rounded (s : bool) (M E : Z) : spec_float :=
  if M =? 0 then S754_zero s
  else if M =? 2 ^ 53 then
    if E + 1 <=? 971 then S754_finite s (2 ^ 52) (E + 1) else S754_infinity s
  else if E <=? 971 then S754_finite s (Z.to_pos M) E else S754_infinity s.

(** Rounding as a relation between the exact value and the float *)
Definition rounds_as (s : bool) (x : R) (f : spec_float) : Prop :=
  exists m E l, canonical x m E l /\ f = rounded s (round_nearest_even m l) E.

Definition rounds_to (x : R) (f : spec_float) : Prop := rounds_as false x f.

(** Finite positive floats and their exact value *)
Definition pos_finite (f : float) (v : R) : Prop :=
  exists m e, Prim2SF f = S754_finite false m e /\ v = (IZR (Z.pos m) * bpow e)%R.

(** ** Squares and their sum are never negative *)
Definition nonneg_or_nan (f : spec_float) : bool :=
  match f with
  | S754_zero s | S754_infinity s | S754_finite s _ _ => negb s
  | S754_nan => true
  end.

Definition k_1280_720 : Intrinsics :=
  mkIntrinsics 991.396 991.628 671.244 371.286.

(** ** Doubling the depth: exact scaling by two *)
Definition scale2 (f : spec_float) : spec_float :=
  match f with
  | S754_finite s m e => S754_finite s m (e + 1)
  | _ => f
  end.

Definition SFzero (f : spec_float) : bool :=
  match f with
  | S754_zero _ => true
  | _ => false
  end.

Definition in_range (f : spec_float) : bool :=
  match f with
  | S754_finite _ _ e => (-1072 <=? e) && (e <=? 960)
  | _ => false
  end.

Definition wide_range (f : spec_float) : bool :=
  match f with
  | S754_finite _ _ e => (-1072 <=? e) && (e <=? 966)
  | _ => false
  end.

(** [r], computed from [a], is zero together with [a] or lies in the normal
    range with room to be doubled. *)
Definition scales (a r : float) : bool :=
  (SFzero (Prim2SF a) && SFzero (Prim2SF r)) || in_range (Prim2SF r).


(** The columns a row takes from the pose and from the right hand. *)
Definition pose_columns (results : HolisticResults) : list float :=
  match pose_landmarks results with
  | Some landmark => flat_map (fun lm => [lm_x lm; lm_y lm; lm_z lm; lm_visibility lm]) landmark
  | None => repeat 0%float 132
  end.

Definition hand_columns (results : HolisticResults) : list float :=
  match right_hand_landmarks results with
  | Some landmark => flat_map (fun lm => [lm_x lm; lm_y lm; lm_z lm]) landmark
  | None => repeat 0%float 63
  end.

(** The column names of the pose and of the right hand. *)
Definition pose_names (PoseLandmark : list string) : list string :=
  flat_map (fun name => [name ++ "_x"; name ++ "_y"; name ++ "_z"; name ++ "_vis"]%string)
           PoseLandmark.

Definition hand_names : list string :=
  flat_map (fun i => ["RIGHT_HAND_" ++ str i ++ "_x"; "RIGHT_HAND_" ++ str i ++ "_y";
                      "RIGHT_HAND_" ++ str i ++ "_z"]%string)
           (seq 0 21).

(** The first of [keys] that the dictionary lacks. *)
Definition first_missing (keys : list string) (members : list (string * Request.json))
  : option string :=
  find (fun key => match Request.lookup key members with
                   | None => true
                   | Some _ => false
                   end) keys.

(** The outcome of a typed depth route, as the handler on the request sees it. *)
Definition stereo_outcome (r : result StereoResponse)
  : Request.outcome RequestRoutes.StereoPayload :=
  match r with
  | OK (StereoError e) => Request.Return (RequestRoutes.ErrorPayload e)
  | OK (StereoResult z d) => Request.Return (RequestRoutes.DepthPayload z (Request.Float d))
  | Raise e => Request.Fail (Request.Arithmetic e)
  end.

(** Each coordinate, its centred value and the product of that value with
    the depth is zero or in the normal range with room to be doubled. *)
Definition resolution_safe (p1 p2 : PixelPoint) (Zd : float) (k : Intrinsics) : bool :=
  let ok (p c : float) : bool :=
    scales p p && scales (p - c) (p - c) && scales (p - c) ((p - c) * Zd) in
  ok (px p1) (cx k) && ok (py p1) (cy k) && ok (px p2) (cx k) && ok (py p2) (cy k).

(** * Binary64 rounding and the properties of the code *)

Lemma bpow_pos e : (0 < bpow e)%R.
Proof. apply powerRZ_lt; lra. Qed.

Lemma bpow_plus a b : bpow (a + b) = (bpow a * bpow b)%R.
Proof. apply powerRZ_add; lra. Qed.

Lemma bpow_succ e : bpow (e + 1) = (2 * bpow e)%R.
Proof. rewrite bpow_plus. unfold bpow at 2. simpl. lra. Qed.

Lemma bpow_IZR k : 0 <= k -> bpow k = IZR (2 ^ k).
Proof.
  intros H. pattern k. apply natlike_ind; [reflexivity | | exact H].
  intros n Hn IH. unfold Z.succ. rewrite bpow_succ, IH, Z.pow_add_r by lia.
  rewrite mult_IZR. simpl. lra.
Qed.

Lemma bpow_ge_1 k : 0 <= k -> (1 <= bpow k)%R.
Proof.
  intros H. rewrite bpow_IZR by exact H. apply IZR_le.
  assert (0 < 2 ^ k) by (apply Z.pow_pos_nonneg; lia). lia.
Qed.

Lemma bpow_le a b : a <= b -> (bpow a <= bpow b)%R.
Proof.
  intros H. replace b with (a + (b - a)) by lia. rewrite bpow_plus.
  assert (1 <= bpow (b - a))%R by (apply bpow_ge_1; lia). pose proof (bpow_pos a). nra.
Qed.

Lemma bpow_lt a b : a < b -> (bpow a < bpow b)%R.
Proof.
  intros H. replace b with (a + 1 + (b - a - 1)) by lia.
  rewrite bpow_plus, bpow_succ.
  assert (1 <= bpow (b - a - 1))%R by (apply bpow_ge_1; lia). pose proof (bpow_pos a). nra.
Qed.

Lemma halve_even x q e l :
  inbetween x (2 * q) e l ->
  inbetween x q (e + 1) match l with loc_Exact => loc_Exact | _ => loc_Inexact Lt end.
Proof.
  pose proof (bpow_pos e) as Hb.
  destruct l as [|[ | | ]]; unfold inbetween; rewrite bpow_succ;
    repeat rewrite plus_IZR; repeat rewrite mult_IZR; repeat rewrite plus_IZR;
    repeat rewrite mult_IZR; set (u := (IZR q * bpow e)%R); intros H.
  all: try replace (IZR q * (2 * bpow e))%R with (2 * u)%R by (unfold u; ring).
  all: try replace ((IZR q + 1) * (2 * bpow e))%R with (2 * u + 2 * bpow e)%R by (unfold u; ring).
  all: try replace ((2 * IZR q + 1) * (2 * bpow e))%R with (4 * u + 2 * bpow e)%R by (unfold u; ring).
  all: try replace (2 * IZR q * bpow e)%R with (2 * u)%R in H by (unfold u; ring).
  all: try replace ((2 * IZR q + 1) * bpow e)%R with (2 * u + bpow e)%R in H by (unfold u; ring).
  all: try replace ((2 * (2 * IZR q) + 1) * bpow e)%R with (4 * u + bpow e)%R in H by (unfold u; ring).
  all: lra.
Qed.

Lemma halve_odd x q e l :
  inbetween x (2 * q + 1) e l ->
  inbetween x q (e + 1) match l with loc_Exact => loc_Inexact Eq | _ => loc_Inexact Gt end.
Proof.
  pose proof (bpow_pos e) as Hb.
  destruct l as [|[ | | ]]; unfold inbetween; rewrite bpow_succ;
    repeat rewrite plus_IZR; repeat rewrite mult_IZR; repeat rewrite plus_IZR;
    repeat rewrite mult_IZR; repeat rewrite plus_IZR; repeat rewrite mult_IZR;
    set (u := (IZR q * bpow e)%R); intros H.
  all: try replace (IZR q * (2 * bpow e))%R with (2 * u)%R by (unfold u; ring).
  all: try replace ((IZR q + 1) * (2 * bpow e))%R with (2 * u + 2 * bpow e)%R by (unfold u; ring).
  all: try replace ((2 * IZR q + 1) * (2 * bpow e))%R with (4 * u + 2 * bpow e)%R by (unfold u; ring).
  all: try replace ((2 * IZR q + 1) * bpow e)%R with (2 * u + bpow e)%R in H by (unfold u; ring).
  all: try replace ((2 * IZR q + 1 + 1) * bpow e)%R with (2 * u + 2 * bpow e)%R in H by (unfold u; ring).
  all: try replace ((2 * (2 * IZR q + 1) + 1) * bpow e)%R with (4 * u + 3 * bpow e)%R in H by (unfold u; ring).
  all: lra.
Qed.

Lemma shr_1_m mrs : 0 <= shr_m mrs -> shr_m (shr_1 mrs) = shr_m mrs / 2.
Proof.
  destruct mrs as [m r s]. cbn [shr_m]. intros Hm.
  destruct m as [|[p|p|]|p]; cbn [shr_1 shr_m]; try lia; try reflexivity.
  - rewrite Pos2Z.inj_xI. apply Z.div_unique with 1; lia.
  - rewrite Pos2Z.inj_xO. apply Z.div_unique with 0; lia.
Qed.

Lemma shr_1_inb x mrs e :
  0 <= shr_m mrs -> inb_rec x mrs e -> inb_rec x (shr_1 mrs) (e + 1).
Proof.
  destruct mrs as [m r s]. unfold inb_rec. cbn [shr_m].
  intros Hm H.
  destruct m as [|[p|p|]|p]; try lia.
  - change 0 with (2 * 0) in H. apply halve_even in H.
    destruct r, s; exact H.
  - change (Z.pos p~1) with (2 * Z.pos p + 1) in H. apply halve_odd in H.
    destruct r, s; exact H.
  - change (Z.pos p~0) with (2 * Z.pos p) in H. apply halve_even in H.
    destruct r, s; exact H.
  - change 1 with (2 * 0 + 1) in H. apply halve_odd in H.
    destruct r, s; exact H.
Qed.

Lemma iter_shr_1 x p : forall mrs e,
  0 <= shr_m mrs -> inb_rec x mrs e ->
  inb_rec x (SpecFloat.iter_pos shr_1 p mrs) (e + Z.pos p) /\
  shr_m (SpecFloat.iter_pos shr_1 p mrs) = shr_m mrs / 2 ^ Z.pos p.
Proof.
  induction p as [p IH|p IH|]; intros mrs e Hm H; cbn [SpecFloat.iter_pos].
  - assert (H1 := shr_1_inb _ _ _ Hm H).
    assert (M1 := shr_1_m _ Hm).
    assert (Hm1 : 0 <= shr_m (shr_1 mrs)) by (rewrite M1; apply Z.div_pos; lia).
    destruct (IH _ _ Hm1 H1) as [H2 M2].
    assert (Hm2 : 0 <= shr_m (SpecFloat.iter_pos shr_1 p (shr_1 mrs)))
      by (rewrite M2; apply Z.div_pos; [lia | apply Z.pow_pos_nonneg; lia]).
    destruct (IH _ _ Hm2 H2) as [H3 M3].
    split.
    + replace (e + Z.pos p~1) with (e + 1 + Z.pos p + Z.pos p) by lia. exact H3.
    + assert (P : 0 < 2 ^ Z.pos p) by (apply Z.pow_pos_nonneg; lia).
      rewrite M3, M2, M1. rewrite !Z.div_div by lia.
      f_equal. rewrite Pos2Z.inj_xI.
      replace (2 * Z.pos p + 1) with (1 + Z.pos p + Z.pos p) by lia.
      rewrite !Z.pow_add_r by lia. change (2 ^ 1) with 2. ring.
  - destruct (IH _ _ Hm H) as [H2 M2].
    assert (Hm2 : 0 <= shr_m (SpecFloat.iter_pos shr_1 p mrs))
      by (rewrite M2; apply Z.div_pos; [lia | apply Z.pow_pos_nonneg; lia]).
    destruct (IH _ _ Hm2 H2) as [H3 M3].
    split.
    + replace (e + Z.pos p~0) with (e + Z.pos p + Z.pos p) by lia. exact H3.
    + assert (P : 0 < 2 ^ Z.pos p) by (apply Z.pow_pos_nonneg; lia).
      rewrite M3, M2. rewrite Z.div_div by lia.
      f_equal. rewrite <- Z.pow_add_r by lia. f_equal. lia.
  - split; [apply shr_1_inb; assumption | apply shr_1_m; assumption].
Qed.

(** Digits *)
Lemma digits2_size p : digits2_pos p = Pos.size p.
Proof. induction p as [p IH|p IH|]; simpl; rewrite ?IH; reflexivity. Qed.

Lemma Zdigits2_bounds m : 0 < m -> 2 ^ (Zdigits2 m - 1) <= m < 2 ^ Zdigits2 m.
Proof.
  destruct m as [|p|p]; try lia. intros _. cbn [Zdigits2]. rewrite digits2_size.
  pose proof (Pos.size_gt p) as G. pose proof (Pos.size_le p) as L.
  apply Pos2Z.pos_lt_pos in G. apply Pos2Z.pos_le_pos in L.
  rewrite Pos2Z.inj_pow in G, L. change (Z.pos p~0) with (2 * Z.pos p) in L.
  assert (E : 2 ^ Z.pos (Pos.size p) = 2 * 2 ^ (Z.pos (Pos.size p) - 1)).
  { rewrite <- Z.pow_succ_r by lia. f_equal. lia. }
  lia.
Qed.

Lemma Zdigits2_nonneg m : 0 <= Zdigits2 m.
Proof. destruct m; simpl; lia. Qed.

Lemma Zdigits2_le m k : 0 <= m < 2 ^ k -> 0 <= k -> Zdigits2 m <= k.
Proof.
  intros [H0 H] Hk. destruct (Z.eq_dec m 0) as [->|N]; [simpl; lia|].
  destruct (Zdigits2_bounds m) as [L _]; [lia|].
  destruct (Z_le_gt_dec (Zdigits2 m) k) as [|G]; [assumption|exfalso].
  assert (2 ^ k <= 2 ^ (Zdigits2 m - 1)) by (apply Z.pow_le_mono_r; lia). lia.
Qed.

Lemma Zdigits2_ge m k : 2 ^ k <= m -> 0 <= k -> k + 1 <= Zdigits2 m.
Proof.
  intros H Hk. assert (0 < 2 ^ k) by (apply Z.pow_pos_nonneg; lia).
  destruct (Zdigits2_bounds m) as [_ U]; [lia|].
  destruct (Z_le_gt_dec (k + 1) (Zdigits2 m)) as [|G]; [assumption|exfalso].
  pose proof (Zdigits2_nonneg m).
  assert (2 ^ Zdigits2 m <= 2 ^ k) by (apply Z.pow_le_mono_r; lia). lia.
Qed.

Lemma fexp_eq e : SpecFloat.fexp prec emax e = Z.max (e - 53) (-1074).
Proof. reflexivity. Qed.

Lemma loc_of_record_of_loc m l :
  loc_of_shr_record (shr_record_of_loc m l) = l /\ shr_m (shr_record_of_loc m l) = m.
Proof. destruct l as [|[ | | ]]; split; reflexivity. Qed.

Lemma shr_fexp_canonical x m e l :
  0 <= m -> e <= SpecFloat.fexp prec emax (Zdigits2 m + e) -> inbetween x m e l ->
  canonical x (shr_m (fst (shr_fexp prec emax m e l)))
              (snd (shr_fexp prec emax m e l))
              (loc_of_shr_record (fst (shr_fexp prec emax m e l))).
Proof.
  intros Hm He H. unfold shr_fexp, shr. rewrite fexp_eq in *.
  destruct (loc_of_record_of_loc m l) as [Rl Rm].
  pose proof (Zdigits2_nonneg m) as Hd.
  assert (Hb : 0 < m -> 2 ^ (Zdigits2 m - 1) <= m < 2 ^ Zdigits2 m) by apply Zdigits2_bounds.
  remember (Zdigits2 m) as d eqn:Ed.
  assert (Z0m : m = 0 -> d = 0) by (intros ->; subst d; reflexivity).
  destruct (Z.max (d + e - 53) (-1074) - e) as [|n|n] eqn:En; try lia; cbn [fst snd].
  - rewrite Rl, Rm. unfold canonical. split; [exact H|].
    assert (d <= 53) by lia.
    assert (m < 2 ^ 53).
    { destruct (Z.eq_dec m 0) as [->|]; [reflexivity|].
      assert (2 ^ d <= 2 ^ 53) by (apply Z.pow_le_mono_r; lia). lia. }
    split; [lia|]. split; [lia|].
    destruct (Z.eq_dec e (-1074)) as [|Ne]; [left; assumption|right].
    assert (d = 53) by lia. subst d. destruct (Z.eq_dec m 0); [lia|].
    replace 52 with (Zdigits2 m - 1) by lia. apply Hb. lia.
  - assert (I : inb_rec x (shr_record_of_loc m l) e) by (unfold inb_rec; rewrite Rl, Rm; exact H).
    destruct (iter_shr_1 x n _ e ltac:(rewrite Rm; exact Hm) I) as [I' M'].
    rewrite Rm in M'. unfold canonical. split; [exact I'|]. rewrite M'.
    assert (P : 0 < 2 ^ Z.pos n) by (apply Z.pow_pos_nonneg; lia).
    split; [split; [apply Z.div_pos; lia|]|split; [lia|]].
    + apply Z.div_lt_upper_bound; [lia|].
      destruct (Z.eq_dec m 0) as [->|]; [lia|].
      assert (2 ^ d <= 2 ^ (Z.pos n + 53)) by (apply Z.pow_le_mono_r; lia).
      rewrite Z.pow_add_r in * by lia. lia.
    + destruct (Z.eq_dec (e + Z.pos n) (-1074)) as [|Ne]; [left; assumption|right].
      assert (Z.pos n = d - 53) by lia.
      destruct (Z.eq_dec m 0); [lia|].
      apply Z.div_le_lower_bound; [lia|].
      replace (d - 1) with (Z.pos n + 52) in Hb by lia.
      rewrite Z.pow_add_r in Hb by lia. lia.
Qed.

Lemma binary_round_aux_finish s m e l :
  binary_round_aux prec emax s m e l =
  finish s (shr_m (fst (shr_fexp prec emax m e l)))
           (loc_of_shr_record (fst (shr_fexp prec emax m e l)))
           (snd (shr_fexp prec emax m e l)).
Proof.
  unfold binary_round_aux, finish. destruct (shr_fexp prec emax m e l) as [mrs E].
  reflexivity.
Qed.

Lemma rne_bounds m l : m <= round_nearest_even m l <= m + 1.
Proof. destruct l as [|[ | | ]]; simpl; try lia. destruct (Z.even m); lia. Qed.

Lemma finish_rounded s m l E :
  0 <= m < 2 ^ 53 -> -1074 <= E ->
  finish s m l E = rounded s (round_nearest_even m l) E.
Proof.
  intros Hm HE. pose proof (rne_bounds m l) as HM.
  unfold finish, rounded, shr_fexp. rewrite fexp_eq.
  remember (round_nearest_even m l) as M eqn:EM. clear EM.
  destruct (Z.eq_dec M (2 ^ 53)) as [->|N].
  - change (Zdigits2 (2 ^ 53)) with 54.
    replace (Z.max (54 + E - 53) (-1074) - E) with 1 by lia.
    unfold shr. cbn -[Z.leb Z.add]. change (emax - prec) with 971. reflexivity.
  - assert (HM' : 0 <= M < 2 ^ 53) by lia.
    pose proof (Zdigits2_le M 53 HM' ltac:(lia)) as Hd.
    pose proof (Zdigits2_nonneg M) as Hd0.
    rewrite (proj2 (Z.eqb_neq _ _) N).
    assert (Sh : forall n, n <= 0 -> shr (shr_record_of_loc M loc_Exact) E n
                              = (shr_record_of_loc M loc_Exact, E)).
    { intros [|n|n] Hn; try reflexivity. lia. }
    rewrite Sh by lia. cbn [shr_record_of_loc shr_m]. change (emax - prec) with 971.
    destruct M as [|p|p]; try lia; reflexivity.
Qed.

(** Order of canonical slices *)
Lemma inbetween_lin x m e l :
  inbetween x m e l ->
  match l with
  | loc_Exact => x = (IZR m * bpow e)%R
  | loc_Inexact c =>
      (IZR m * bpow e < x < IZR m * bpow e + bpow e)%R /\
      match c with
      | Lt => (2 * x < 2 * (IZR m * bpow e) + bpow e)%R
      | Eq => (2 * x = 2 * (IZR m * bpow e) + bpow e)%R
      | Gt => (2 * (IZR m * bpow e) + bpow e < 2 * x)%R
      end
  end.
Proof.
  destruct l as [|c]; [trivial|]. unfold inbetween.
  replace (IZR (m + 1) * bpow e)%R with (IZR m * bpow e + bpow e)%R
    by (rewrite plus_IZR; ring).
  replace (IZR (2 * m + 1) * bpow e)%R with (2 * (IZR m * bpow e) + bpow e)%R
    by (rewrite plus_IZR, mult_IZR; ring).
  trivial.
Qed.

Lemma inbetween_bounds x m e l :
  inbetween x m e l -> (IZR m * bpow e <= x < IZR m * bpow e + bpow e)%R.
Proof.
  intros H. apply inbetween_lin in H. pose proof (bpow_pos e).
  destruct l as [|c]; [lra|]. destruct H as [H _]. lra.
Qed.

Lemma rne_mono_same x y m e l1 l2 :
  inbetween x m e l1 -> inbetween y m e l2 -> (x <= y)%R ->
  round_nearest_even m l1 <= round_nearest_even m l2.
Proof.
  intros H1 H2 Hxy. apply inbetween_lin in H1. apply inbetween_lin in H2.
  pose proof (bpow_pos e). set (u := (IZR m * bpow e)%R) in *.
  destruct l1 as [|[ | | ]], l2 as [|[ | | ]]; cbn [round_nearest_even];
    try (destruct (Z.even m); lia); exfalso;
    repeat match goal with H : _ /\ _ |- _ => destruct H end; lra.
Qed.

Lemma IZR_mul_le m1 m2 b : (0 < b)%R -> (IZR m1 * b < IZR m2 * b + b)%R -> m1 <= m2.
Proof.
  intros Hb H. assert (H' : (IZR m1 < IZR (m2 + 1))%R).
  { rewrite plus_IZR. apply Rmult_lt_reg_r with b; [exact Hb|]. simpl. lra. }
  apply lt_IZR in H'. lia.
Qed.

Lemma canonical_range x m E l :
  canonical x m E l ->
  (x < bpow (E + 53))%R /\ (E <> -1074 -> (bpow (E + 52) <= x)%R).
Proof.
  intros (H & Hm & HE & Hc). apply inbetween_bounds in H.
  pose proof (bpow_pos E) as Hb.
  rewrite !bpow_plus, (bpow_IZR 53), (bpow_IZR 52) by lia. split.
  - assert (Hm' : (IZR m <= IZR (2 ^ 53) - 1)%R).
    { rewrite <- minus_IZR. apply IZR_le. lia. }
    nra.
  - intros N. assert (Hm' : (IZR (2 ^ 52) <= IZR m)%R) by (apply IZR_le; lia).
    nra.
Qed.

Lemma canonical_order x y m1 E1 l1 m2 E2 l2 :
  canonical x m1 E1 l1 -> canonical y m2 E2 l2 -> (x <= y)%R ->
  E1 < E2 \/
  (E1 = E2 /\ (m1 < m2 \/
               (m1 = m2 /\ round_nearest_even m1 l1 <= round_nearest_even m2 l2))).
Proof.
  intros C1 C2 Hxy.
  destruct (canonical_range _ _ _ _ C1) as [U1 L1].
  destruct (canonical_range _ _ _ _ C2) as [U2 L2].
  destruct C1 as (H1 & Hm1 & HE1 & Hc1). destruct C2 as (H2 & Hm2 & HE2 & Hc2).
  destruct (Z_lt_le_dec E1 E2) as [|G]; [left; assumption|right].
  assert (E1 = E2).
  { destruct (Z.eq_dec E1 E2) as [|N]; [assumption|exfalso].
    assert (bpow (E2 + 53) <= bpow (E1 + 52))%R by (apply bpow_le; lia).
    specialize (L1 ltac:(lia)). lra. }
  subst E2. split; [reflexivity|].
  pose proof (inbetween_bounds _ _ _ _ H1) as B1.
  pose proof (inbetween_bounds _ _ _ _ H2) as B2.
  assert (m1 <= m2) by (apply IZR_mul_le with (bpow E1); [apply bpow_pos|lra]).
  destruct (Z.eq_dec m1 m2) as [->|]; [right|left; lia].
  split; [reflexivity|]. eapply rne_mono_same; eassumption.
Qed.

Lemma SFleb_finite p1 e1 p2 e2 :
  e1 < e2 \/ (e1 = e2 /\ (p1 <= p2)%positive) ->
  SFleb (S754_finite false p1 e1) (S754_finite false p2 e2) = true.
Proof.
  unfold SFleb, SFcompare. intros [H|[-> H]].
  - rewrite (proj2 (Z.compare_lt_iff _ _) H). reflexivity.
  - rewrite Z.compare_refl. change (Pos.compare_cont Eq p1 p2) with (p1 ?= p2)%positive.
    destruct (Pos.compare_spec p1 p2); try reflexivity. lia.
Qed.

Lemma rounded_mono M1 E1 M2 E2 :
  0 <= M1 <= 2 ^ 53 -> 0 <= M2 <= 2 ^ 53 ->
  (E1 <> -1074 -> 2 ^ 52 <= M1) -> (E2 <> -1074 -> 2 ^ 52 <= M2) ->
  -1074 <= E1 ->
  E1 < E2 \/ (E1 = E2 /\ M1 <= M2) ->
  SFleb (rounded false M1 E1) (rounded false M2 E2) = true.
Proof.
  intros H1 H2 N1 N2 HE1 Hle. unfold rounded.
  destruct (Z.eqb_spec M1 0) as [Z1|Z1]; destruct (Z.eqb_spec M2 0) as [Z2|Z2];
  destruct (Z.eqb_spec M1 (2 ^ 53)) as [T1|T1]; destruct (Z.eqb_spec M2 (2 ^ 53)) as [T2|T2];
  destruct (Z.leb_spec (E1 + 1) 971); destruct (Z.leb_spec (E2 + 1) 971);
  destruct (Z.leb_spec E1 971); destruct (Z.leb_spec E2 971);
  try lia; try reflexivity;
  try (apply SFleb_finite;
       destruct M1 as [|q1|q1]; destruct M2 as [|q2|q2]; cbn [Z.to_pos]; lia).
Qed.

Lemma canonical_rne x m E l :
  canonical x m E l ->
  0 <= round_nearest_even m l <= 2 ^ 53 /\
  (E <> -1074 -> 2 ^ 52 <= round_nearest_even m l) /\ -1074 <= E.
Proof.
  intros (_ & Hm & HE & Hc). pose proof (rne_bounds m l). lia.
Qed.

Lemma round_aux_rounded x s m e l :
  0 <= m -> e <= SpecFloat.fexp prec emax (Zdigits2 m + e) -> inbetween x m e l ->
  exists m' E l', canonical x m' E l' /\
    binary_round_aux prec emax s m e l = rounded s (round_nearest_even m' l') E.
Proof.
  intros Hm He H. pose proof (shr_fexp_canonical x m e l Hm He H) as C.
  rewrite binary_round_aux_finish.
  eexists _, _, _. split; [exact C|].
  destruct C as (_ & Hm' & HE & _). apply finish_rounded; assumption.
Qed.

Lemma round_aux_rounds_as s x m e l :
  0 <= m -> e <= SpecFloat.fexp prec emax (Zdigits2 m + e) -> inbetween x m e l ->
  rounds_as s x (binary_round_aux prec emax s m e l).
Proof. intros Hm He H. exact (round_aux_rounded x s m e l Hm He H). Qed.

Lemma round_aux_rounds_to x m e l :
  0 <= m -> e <= SpecFloat.fexp prec emax (Zdigits2 m + e) -> inbetween x m e l ->
  rounds_to x (binary_round_aux prec emax false m e l).
Proof. apply round_aux_rounds_as. Qed.

Lemma rounds_to_mono x y f g :
  rounds_to x f -> rounds_to y g -> (x <= y)%R -> SFleb f g = true.
Proof.
  intros (m1 & E1 & l1 & C1 & ->) (m2 & E2 & l2 & C2 & ->) Hxy.
  destruct (canonical_rne _ _ _ _ C1) as (B1 & N1 & HE1).
  destruct (canonical_rne _ _ _ _ C2) as (B2 & N2 & HE2).
  pose proof (canonical_order _ _ _ _ _ _ _ _ C1 C2 Hxy) as O.
  pose proof (rne_bounds m1 l1). pose proof (rne_bounds m2 l2).
  apply rounded_mono; try assumption. lia.
Qed.

Lemma rounds_as_unique s x f g : rounds_as s x f -> rounds_as s x g -> f = g.
Proof.
  intros (m1 & E1 & l1 & C1 & ->) (m2 & E2 & l2 & C2 & ->).
  pose proof (canonical_order _ _ _ _ _ _ _ _ C1 C2 (Rle_refl x)) as O1.
  pose proof (canonical_order _ _ _ _ _ _ _ _ C2 C1 (Rle_refl x)) as O2.
  assert (E1 = E2) by lia. subst E2.
  assert (round_nearest_even m1 l1 = round_nearest_even m2 l2) by lia.
  congruence.
Qed.

Lemma rounds_to_unique x f g : rounds_to x f -> rounds_to x g -> f = g.
Proof. apply rounds_as_unique. Qed.

(** Valid finite floats *)
Lemma valid_finite s m e :
  valid_binary (S754_finite s m e) = true <->
  SpecFloat.fexp prec emax (Zdigits2 (Z.pos m) + e) = e /\ e <= 971.
Proof.
  unfold SpecFloat.valid_binary, SpecFloat.bounded, SpecFloat.canonical_mantissa.
  rewrite andb_true_iff, Z.eqb_eq, Z.leb_le. reflexivity.
Qed.

Lemma valid_canonical s m e :
  valid_binary (S754_finite s m e) = true ->
  canonical (IZR (Z.pos m) * bpow e) (Z.pos m) e loc_Exact /\ e <= 971.
Proof.
  intros V. apply valid_finite in V. destruct V as [V Le]. rewrite fexp_eq in V.
  split; [|exact Le]. unfold canonical. split; [reflexivity|].
  destruct (Zdigits2_bounds (Z.pos m)) as [L U]; [lia|].
  remember (Zdigits2 (Z.pos m)) as d.
  assert (d <= 53) by lia.
  assert (2 ^ d <= 2 ^ 53) by (apply Z.pow_le_mono_r; lia).
  split; [lia|]. split; [lia|].
  destruct (Z.eq_dec e (-1074)); [left; assumption|right].
  assert (d = 53) by lia. subst d. replace 52 with (Zdigits2 (Z.pos m) - 1) by lia.
  exact L.
Qed.

Lemma rounded_exact s m e :
  valid_binary (S754_finite s m e) = true ->
  rounded s (round_nearest_even (Z.pos m) loc_Exact) e = S754_finite s m e.
Proof.
  intros V. destruct (valid_canonical _ _ _ V) as [(_ & Hm & _) Le].
  unfold rounded. cbn [round_nearest_even].
  destruct (Z.eqb_spec (Z.pos m) 0); [lia|].
  destruct (Z.eqb_spec (Z.pos m) (2 ^ 53)); [lia|].
  destruct (Z.leb_spec e 971); [reflexivity|lia].
Qed.

Lemma rounds_as_exact s m e :
  valid_binary (S754_finite s m e) = true ->
  rounds_as s (IZR (Z.pos m) * bpow e) (S754_finite s m e).
Proof.
  intros V. exists (Z.pos m), e, loc_Exact. split.
  - apply (valid_canonical s), V.
  - symmetry. apply rounded_exact, V.
Qed.

Lemma rounds_to_exact m e :
  valid_binary (S754_finite false m e) = true ->
  rounds_to (IZR (Z.pos m) * bpow e) (S754_finite false m e).
Proof. apply rounds_as_exact. Qed.

Lemma rounded_valid s M E :
  0 <= M <= 2 ^ 53 -> (E <> -1074 -> 2 ^ 52 <= M) -> -1074 <= E ->
  valid_binary (rounded s M E) = true.
Proof.
  intros HM N HE. unfold rounded.
  destruct (Z.eqb_spec M 0); [reflexivity|].
  destruct (Z.eqb_spec M (2 ^ 53)).
  - destruct (Z.leb_spec (E + 1) 971); [|reflexivity].
    apply valid_finite. rewrite fexp_eq. change (Zdigits2 (Z.pos (2 ^ 52))) with 53. lia.
  - destruct (Z.leb_spec E 971); [|reflexivity].
    apply valid_finite. rewrite fexp_eq. rewrite Z2Pos.id by lia.
    assert (Zdigits2 M <= 53) by (apply Zdigits2_le; lia).
    destruct (Z.eq_dec E (-1074)); [lia|].
    assert (53 <= Zdigits2 M) by (apply (Zdigits2_ge M 52); lia). lia.
Qed.

Lemma rounds_to_valid x f : rounds_to x f -> valid_binary f = true.
Proof.
  intros (m & E & l & C & ->). destruct (canonical_rne _ _ _ _ C) as (B & N & HE).
  apply rounded_valid; assumption.
Qed.

Lemma SFleb_val m1 e1 m2 e2 :
  valid_binary (S754_finite false m1 e1) = true ->
  valid_binary (S754_finite false m2 e2) = true ->
  SFleb (S754_finite false m1 e1) (S754_finite false m2 e2) = true ->
  (IZR (Z.pos m1) * bpow e1 <= IZR (Z.pos m2) * bpow e2)%R.
Proof.
  intros V1 V2 H. destruct (valid_canonical _ _ _ V1) as [C1 _].
  destruct (valid_canonical _ _ _ V2) as [C2 _].
  destruct (canonical_range _ _ _ _ C1) as [U1 _].
  destruct (canonical_range _ _ _ _ C2) as [_ L2].
  destruct C1 as (_ & _ & HE1 & _).
  unfold SFleb, SFcompare in H. destruct (Z.compare_spec e1 e2) as [->|Lt|Gt].
  - change (Pos.compare_cont Eq m1 m2) with (m1 ?= m2)%positive in H.
    assert (Z.pos m1 <= Z.pos m2) by (destruct (Pos.compare_spec m1 m2); try lia; discriminate).
    apply Rmult_le_compat_r; [apply Rlt_le, bpow_pos|apply IZR_le; assumption].
  - specialize (L2 ltac:(lia)).
    assert (bpow (e1 + 53) <= bpow (e2 + 52))%R by (apply bpow_le; lia). lra.
  - discriminate.
Qed.

(** Multiplication and division of positive finite floats *)
Lemma Zdigits2_mul_pow m k : 0 < m -> 0 <= k -> Zdigits2 (m * 2 ^ k) = Zdigits2 m + k.
Proof.
  intros Hm Hk. destruct (Zdigits2_bounds m Hm) as [L U].
  assert (P : 0 < 2 ^ k) by (apply Z.pow_pos_nonneg; lia).
  pose proof (Zdigits2_nonneg m) as Hd.
  assert (1 <= Zdigits2 m).
  { destruct m; simpl in *; lia. }
  apply Z.le_antisymm.
  - apply Zdigits2_le; [|lia]. rewrite Z.pow_add_r by lia. nia.
  - replace (Zdigits2 m + k) with (Zdigits2 m - 1 + k + 1) by lia.
    apply Zdigits2_ge; [|lia]. rewrite Z.pow_add_r by lia. nia.
Qed.

Lemma SFmul_rounds_as s1 m1 e1 s2 m2 e2 :
  valid_binary (S754_finite s1 m1 e1) = true ->
  valid_binary (S754_finite s2 m2 e2) = true ->
  rounds_as (xorb s1 s2) (IZR (Z.pos m1) * bpow e1 * (IZR (Z.pos m2) * bpow e2))
            (SFmul prec emax (S754_finite s1 m1 e1) (S754_finite s2 m2 e2)).
Proof.
  intros V1 V2. cbn [SFmul].
  apply valid_finite in V1, V2. destruct V1 as [V1 _], V2 as [V2 _].
  rewrite fexp_eq in *.
  destruct (Zdigits2_bounds (Z.pos m1)) as [L1 U1]; [lia|].
  destruct (Zdigits2_bounds (Z.pos m2)) as [L2 U2]; [lia|].
  assert (1 <= Zdigits2 (Z.pos m1)) by (simpl; lia).
  assert (1 <= Zdigits2 (Z.pos m2)) by (simpl; lia).
  apply round_aux_rounds_as.
  - lia.
  - rewrite fexp_eq.
    assert (Zdigits2 (Z.pos m1) + Zdigits2 (Z.pos m2) - 1 <= Zdigits2 (Z.pos (m1 * m2))).
    { replace (Zdigits2 (Z.pos m1) + Zdigits2 (Z.pos m2) - 1)
        with ((Zdigits2 (Z.pos m1) - 1) + (Zdigits2 (Z.pos m2) - 1) + 1) by lia.
      apply Zdigits2_ge; [|lia]. rewrite Z.pow_add_r by lia. rewrite Pos2Z.inj_mul.
      assert (0 < 2 ^ (Zdigits2 (Z.pos m1) - 1)) by (apply Z.pow_pos_nonneg; lia).
      assert (0 < 2 ^ (Zdigits2 (Z.pos m2) - 1)) by (apply Z.pow_pos_nonneg; lia).
      nia. }
    lia.
  - unfold inbetween. rewrite Pos2Z.inj_mul, mult_IZR, bpow_plus. ring.
Qed.

Lemma SFmul_rounds_to m1 e1 m2 e2 :
  valid_binary (S754_finite false m1 e1) = true ->
  valid_binary (S754_finite false m2 e2) = true ->
  rounds_to (IZR (Z.pos m1) * bpow e1 * (IZR (Z.pos m2) * bpow e2))
            (SFmul prec emax (S754_finite false m1 e1) (S754_finite false m2 e2)).
Proof. apply (SFmul_rounds_as false m1 e1 false m2 e2). Qed.

Lemma inbetween_of_lin x m e l :
  match l with
  | loc_Exact => x = (IZR m * bpow e)%R
  | loc_Inexact c =>
      (IZR m * bpow e < x < IZR m * bpow e + bpow e)%R /\
      match c with
      | Lt => (2 * x < 2 * (IZR m * bpow e) + bpow e)%R
      | Eq => (2 * x = 2 * (IZR m * bpow e) + bpow e)%R
      | Gt => (2 * (IZR m * bpow e) + bpow e < 2 * x)%R
      end
  end -> inbetween x m e l.
Proof.
  destruct l as [|c]; [trivial|]. unfold inbetween.
  replace (IZR (m + 1) * bpow e)%R with (IZR m * bpow e + bpow e)%R
    by (rewrite plus_IZR; ring).
  replace (IZR (2 * m + 1) * bpow e)%R with (2 * (IZR m * bpow e) + bpow e)%R
    by (rewrite plus_IZR, mult_IZR; ring).
  trivial.
Qed.

Lemma new_location_spec m2 r :
  0 < m2 -> 0 <= r < m2 ->
  match new_location m2 r with
  | loc_Exact => r = 0
  | loc_Inexact Lt => 0 < r /\ 2 * r < m2
  | loc_Inexact Eq => 0 < r /\ 2 * r = m2
  | loc_Inexact Gt => 0 < r /\ m2 < 2 * r
  end.
Proof.
  intros Hm Hr. unfold new_location, new_location_even, new_location_odd.
  destruct (Z.even m2) eqn:Ev; destruct (Z.eqb_spec r 0); try lia.
  - destruct (Z.compare_spec (2 * r) m2); lia.
  - assert (m2 <> 2 * r) by (intros ->; rewrite Z.even_mul in Ev; discriminate).
    destruct (Z.compare_spec (2 * r + 1) m2); lia.
Qed.

Lemma div_core_spec m1 e1 m2 e2 :
  0 < m1 -> 0 < m2 ->
  let '(q, e', l) := SFdiv_core_binary prec emax m1 e1 m2 e2 in
  0 <= q /\ e' <= SpecFloat.fexp prec emax (Zdigits2 q + e') /\
  inbetween (IZR m1 * bpow e1 / (IZR m2 * bpow e2)) q e' l.
Proof.
  intros H1 H2. unfold SFdiv_core_binary. lazy zeta. rewrite !fexp_eq.
  destruct (Zdigits2_bounds m1 H1) as [L1 U1]. destruct (Zdigits2_bounds m2 H2) as [L2 U2].
  assert (D1 : 1 <= Zdigits2 m1) by (destruct m1; simpl; lia).
  assert (D2 : 1 <= Zdigits2 m2) by (destruct m2; simpl; lia).
  set (d1 := Zdigits2 m1) in *. set (d2 := Zdigits2 m2) in *.
  set (e' := Z.min (Z.max (d1 + e1 - (d2 + e2) - 53) (-1074)) (e1 - e2)).
  assert (Hs : 0 <= e1 - e2 - e') by (unfold e'; lia).
  set (s := e1 - e2 - e') in *.
  assert (P : 0 < 2 ^ s) by (apply Z.pow_pos_nonneg; lia).
  set (m' := match s with Z.pos _ => Z.shiftl m1 s | 0 => m1 | Z.neg _ => 0 end).
  assert (Hm' : m' = m1 * 2 ^ s).
  { unfold m'. destruct s as [|p|p] eqn:Es; [simpl; lia| |lia].
    rewrite Z.shiftl_mul_pow2 by lia. reflexivity. }
  clearbody m'.
  pose proof (Z_div_mod m' m2 ltac:(lia)) as DM.
  destruct (Z.div_eucl m' m2) as [q r]. destruct DM as [Eq Hr].
  assert (Hq : 0 <= q) by nia.
  split; [exact Hq|]. split.
  - rewrite fexp_eq. destruct (Z_le_gt_dec e' (-1074)) as [|G]; [lia|].
    assert (Hs' : d2 - d1 + 53 <= s) by (unfold s, e' in *; lia).
    assert (2 ^ d2 * 2 ^ 52 <= 2 ^ (d1 - 1) * 2 ^ s).
    { rewrite <- !Z.pow_add_r by lia. apply Z.pow_le_mono_r; lia. }
    assert (2 ^ 52 <= q) by nia.
    assert (53 <= Zdigits2 q) by (apply (Zdigits2_ge q 52); lia).
    lia.
  - pose proof (new_location_spec m2 r H2 Hr) as NL.
    apply inbetween_of_lin.
    assert (Hb := bpow_pos e'). assert (Hb2 := bpow_pos e2).
    assert (HM : (0 < IZR m2)%R) by (apply IZR_lt; lia).
    assert (Ex : (IZR m1 * bpow e1 / (IZR m2 * bpow e2) =
                  IZR q * bpow e' + IZR r * (bpow e' / IZR m2))%R).
    { replace e1 with (e' + s + e2) by (unfold s; lia).
      rewrite !bpow_plus, (bpow_IZR s) by lia.
      replace (IZR m1 * (bpow e' * IZR (2 ^ s) * bpow e2))%R
        with (IZR m' * bpow e' * bpow e2)%R by (rewrite Hm', mult_IZR; ring).
      rewrite Eq, plus_IZR, mult_IZR. field. lra. }
    rewrite Ex. set (c := (bpow e' / IZR m2)%R).
    assert (Hc : (0 < c)%R) by (apply Rdiv_lt_0_compat; assumption).
    assert (Ec : (bpow e' = IZR m2 * c)%R) by (unfold c; field; lra).
    assert (Hr0 : (0 <= IZR r)%R) by (apply IZR_le; lia).
    assert (Hr1 : (IZR r < IZR m2)%R) by (apply IZR_lt; lia).
    assert (K1 : (IZR r * c < bpow e')%R).
    { rewrite Ec. apply Rmult_lt_compat_r; assumption. }
    destruct (new_location m2 r) as [|[ | | ]].
    + subst r. lra.
    + destruct NL as [N1 N2]. apply IZR_lt in N1. apply (f_equal IZR) in N2.
      rewrite mult_IZR in N2.
      assert (K0 : (0 < IZR r * c)%R) by (apply Rmult_lt_0_compat; assumption).
      assert (K2 : (2 * (IZR r * c) = bpow e')%R) by (rewrite Ec, <- N2; ring).
      lra.
    + destruct NL as [N1 N2]. apply IZR_lt in N1, N2. rewrite mult_IZR in N2.
      assert (K0 : (0 < IZR r * c)%R) by (apply Rmult_lt_0_compat; assumption).
      assert (K2 : (2 * IZR r * c < bpow e')%R).
      { rewrite Ec. apply Rmult_lt_compat_r; assumption. }
      lra.
    + destruct NL as [N1 N2]. apply IZR_lt in N1, N2. rewrite mult_IZR in N2.
      assert (K0 : (0 < IZR r * c)%R) by (apply Rmult_lt_0_compat; assumption).
      assert (K2 : (bpow e' < 2 * IZR r * c)%R).
      { rewrite Ec. apply Rmult_lt_compat_r; assumption. }
      lra.
Qed.

Lemma SFdiv_rounds_as s1 m1 e1 s2 m2 e2 :
  rounds_as (xorb s1 s2) (IZR (Z.pos m1) * bpow e1 / (IZR (Z.pos m2) * bpow e2))
            (SFdiv prec emax (S754_finite s1 m1 e1) (S754_finite s2 m2 e2)).
Proof.
  cbn [SFdiv].
  pose proof (div_core_spec (Z.pos m1) e1 (Z.pos m2) e2 ltac:(lia) ltac:(lia)) as D.
  destruct (SFdiv_core_binary prec emax (Z.pos m1) e1 (Z.pos m2) e2) as [[q e'] l].
  destruct D as (Hq & He & H). apply round_aux_rounds_as; assumption.
Qed.

Lemma SFdiv_rounds_to m1 e1 m2 e2 :
  rounds_to (IZR (Z.pos m1) * bpow e1 / (IZR (Z.pos m2) * bpow e2))
            (SFdiv prec emax (S754_finite false m1 e1) (S754_finite false m2 e2)).
Proof. apply (SFdiv_rounds_as false m1 e1 false m2 e2). Qed.

Lemma iter_xO m d : Z.pos (Pos.iter xO m d) = Z.pos m * 2 ^ Z.pos d.
Proof.
  induction d as [|d IH] using Pos.peano_ind.
  - simpl. lia.
  - rewrite Pos.iter_succ, Pos2Z.inj_succ, Z.pow_succ_r by lia.
    rewrite Pos2Z.inj_xO, IH. ring.
Qed.

Lemma shl_align_spec m e e' :
  snd (shl_align m e e') = Z.min e e' /\
  Z.pos (fst (shl_align m e e')) = Z.pos m * 2 ^ (e - Z.min e e').
Proof.
  unfold shl_align. destruct (e' - e) as [|d|d] eqn:Ed; cbn [fst snd].
  - replace (Z.min e e') with e by lia. rewrite Z.sub_diag. simpl. lia.
  - replace (Z.min e e') with e by lia. rewrite Z.sub_diag. simpl. lia.
  - replace (Z.min e e') with e' by lia. split; [reflexivity|].
    rewrite iter_xO. f_equal. f_equal. lia.
Qed.

Lemma binary_round_rounds_as s m e :
  rounds_as s (IZR (Z.pos m) * bpow e) (binary_round prec emax s m e).
Proof.
  unfold binary_round.
  destruct (shl_align_spec m e (SpecFloat.fexp prec emax (Z.pos (digits2_pos m) + e))) as [Es Em].
  destruct (shl_align m e _) as [mz ez]. cbn [fst snd] in Es, Em.
  change (Z.pos (digits2_pos m)) with (Zdigits2 (Z.pos m)) in *.
  rewrite <- Es in Em.
  assert (Hk : 0 <= e - ez) by lia.
  apply round_aux_rounds_as.
  - lia.
  - rewrite Em, Zdigits2_mul_pow by lia.
    replace (Zdigits2 (Z.pos m) + (e - ez) + ez) with (Zdigits2 (Z.pos m) + e) by lia.
    lia.
  - unfold inbetween. rewrite Em, mult_IZR, <- bpow_IZR by lia.
    rewrite Rmult_assoc, <- bpow_plus. do 2 f_equal. lia.
Qed.

Lemma binary_round_rounds_to m e :
  rounds_to (IZR (Z.pos m) * bpow e) (binary_round prec emax false m e).
Proof. apply binary_round_rounds_as. Qed.

Lemma normalize_rounds_to n :
  0 < n -> rounds_to (IZR n) (binary_normalize prec emax n 0 false).
Proof.
  destruct n as [|p|p]; try lia. intros _. cbn [binary_normalize].
  replace (IZR (Z.pos p)) with (IZR (Z.pos p) * bpow 0)%R by (unfold bpow; simpl; ring).
  apply binary_round_rounds_to.
Qed.

(** Bounds carried through a rounding *)
Lemma rounds_to_between x f mA eA mB eB :
  rounds_to x f ->
  valid_binary (S754_finite false mA eA) = true ->
  valid_binary (S754_finite false mB eB) = true ->
  (IZR (Z.pos mA) * bpow eA <= x <= IZR (Z.pos mB) * bpow eB)%R ->
  exists m e, f = S754_finite false m e /\
    (IZR (Z.pos mA) * bpow eA <= IZR (Z.pos m) * bpow e <= IZR (Z.pos mB) * bpow eB)%R.
Proof.
  intros Hf VA VB [Hl Hu].
  pose proof (rounds_to_mono _ _ _ _ (rounds_to_exact _ _ VA) Hf Hl) as LA.
  pose proof (rounds_to_mono _ _ _ _ Hf (rounds_to_exact _ _ VB) Hu) as LB.
  pose proof (rounds_to_valid _ _ Hf) as Vf.
  destruct f as [s|s|  |s m e]; try discriminate.
  - destruct s; discriminate.
  - destruct s; [discriminate|]. exists m, e. split; [reflexivity|].
    split; apply SFleb_val; assumption.
Qed.

Lemma pow2_normal a :
  -1022 <= a <= 1023 ->
  valid_binary (S754_finite false (2 ^ 52) (a - 52)) = true /\
  (IZR (Z.pos (2 ^ 52)) * bpow (a - 52))%R = bpow a.
Proof.
  intros Ha. split.
  - apply valid_finite. rewrite fexp_eq. change (Zdigits2 (Z.pos (2 ^ 52))) with 53. lia.
  - change (Z.pos (2 ^ 52)) with (2 ^ 52). rewrite <- bpow_IZR, <- bpow_plus by lia.
    f_equal. lia.
Qed.

Lemma pow2_subnormal a :
  -1074 <= a < -1022 ->
  valid_binary (S754_finite false (Z.to_pos (2 ^ (a + 1074))) (-1074)) = true /\
  (IZR (Z.pos (Z.to_pos (2 ^ (a + 1074)))) * bpow (-1074))%R = bpow a.
Proof.
  intros Ha. assert (P : 0 < 2 ^ (a + 1074)) by (apply Z.pow_pos_nonneg; lia).
  rewrite Z2Pos.id by lia. split.
  - apply valid_finite. rewrite fexp_eq. rewrite Z2Pos.id by lia.
    assert (Zdigits2 (2 ^ (a + 1074)) = a + 1075).
    { replace (2 ^ (a + 1074)) with (1 * 2 ^ (a + 1074)) by lia.
      rewrite Zdigits2_mul_pow by lia. change (Zdigits2 1) with 1. lia. }
    lia.
  - rewrite <- bpow_IZR, <- bpow_plus by lia. f_equal. lia.
Qed.

Lemma rounds_to_pow_bounds x f a b :
  rounds_to x f -> -1074 <= a -> b <= 1023 -> (bpow a <= x <= bpow b)%R ->
  exists m e, f = S754_finite false m e /\
    (bpow a <= IZR (Z.pos m) * bpow e <= bpow b)%R.
Proof.
  intros Hf Ha Hb Hx.
  assert (a <= b).
  { destruct (Z_le_gt_dec a b); [assumption|].
    assert (bpow b < bpow a)%R by (apply bpow_lt; lia). lra. }
  assert (PA : exists mA eA, valid_binary (S754_finite false mA eA) = true /\
                (IZR (Z.pos mA) * bpow eA)%R = bpow a).
  { destruct (Z_lt_le_dec a (-1022)).
    - eexists _, _. apply pow2_subnormal. lia.
    - eexists _, _. apply pow2_normal. lia. }
  assert (PB : exists mB eB, valid_binary (S754_finite false mB eB) = true /\
                (IZR (Z.pos mB) * bpow eB)%R = bpow b).
  { destruct (Z_lt_le_dec b (-1022)).
    - eexists _, _. apply pow2_subnormal. lia.
    - eexists _, _. apply pow2_normal. lia. }
  destruct PA as (mA & eA & VA & EA). destruct PB as (mB & eB & VB & EB).
  rewrite <- EA, <- EB in *. eapply rounds_to_between; eassumption.
Qed.

(** Doubling is exact away from the subnormal range and from overflow *)
Lemma rounds_as_double s x s' m e :
  rounds_as s x (S754_finite s' m e) ->
  (bpow (-1022) <= x < bpow 1022)%R ->
  rounds_as s (2 * x) (S754_finite s' m (e + 1)).
Proof.
  intros (m' & E & l & C & Ef) [Hl Hu].
  destruct (canonical_range _ _ _ _ C) as [U L].
  destruct C as (H & Hm & HE & Hc).
  pose proof (inbetween_bounds _ _ _ _ H) as B.
  pose proof (bpow_pos E) as Hb.
  assert (Hm52 : 2 ^ 52 <= m').
  { destruct Hc as [->|]; [|assumption].
    assert (Hx : (IZR (2 ^ 52) * bpow (-1074) < IZR m' * bpow (-1074) + bpow (-1074))%R).
    { rewrite <- bpow_IZR, <- bpow_plus by lia. simpl Z.add. lra. }
    apply IZR_mul_le in Hx; [|apply bpow_pos].
    destruct (Z.eq_dec m' (2 ^ 52 - 1)) as [->|]; [|lia]. exfalso.
    destruct B as [B1 B2].
    replace (IZR (2 ^ 52 - 1) * bpow (-1074) + bpow (-1074))%R with (bpow (-1022)) in B2; [lra|].
    replace (-1022) with (52 + -1074) by lia. rewrite bpow_plus, (bpow_IZR 52), minus_IZR by lia.
    ring. }
  assert (HE' : E + 52 < 1022).
  { destruct (Z_lt_le_dec (E + 52) 1022); [assumption|exfalso].
    assert (bpow 1022 <= bpow (E + 52))%R by (apply bpow_le; lia).
    assert (bpow (E + 52) <= x)%R; [|lra].
    rewrite bpow_plus, Rmult_comm, (bpow_IZR 52) by lia.
    assert (IZR (2 ^ 52) <= IZR m')%R by (apply IZR_le; assumption). nra. }
  exists m', (E + 1), l. split.
  - split; [|lia]. apply inbetween_of_lin. apply inbetween_lin in H.
    rewrite bpow_succ. destruct l as [|[ | | ]]; try lra;
      repeat match goal with H : _ /\ _ |- _ => destruct H end;
      repeat split; lra.
  - pose proof (rne_bounds m' l) as RB. revert Ef. unfold rounded.
    destruct (Z.eqb_spec (round_nearest_even m' l) 0); [discriminate|].
    destruct (Z.eqb_spec (round_nearest_even m' l) (2 ^ 53)).
    + destruct (Z.leb_spec (E + 1) 971); [|discriminate].
      intros [= -> -> ->]. destruct (Z.leb_spec (E + 1 + 1) 971); [reflexivity|lia].
    + destruct (Z.leb_spec E 971); [|discriminate].
      intros [= -> -> ->]. destruct (Z.leb_spec (E + 1) 971); [reflexivity|lia].
Qed.

Lemma rounds_to_double x m e :
  rounds_to x (S754_finite false m e) ->
  (bpow (-1022) <= x < bpow 1022)%R ->
  rounds_to (2 * x) (S754_finite false m (e + 1)).
Proof. apply rounds_as_double. Qed.

Lemma SFcompare_refl m e s :
  SFcompare (S754_finite s m e) (S754_finite s m e) = Some Eq.
Proof.
  unfold SFcompare. rewrite Z.compare_refl.
  change (Pos.compare_cont Eq m m) with (m ?= m)%positive. rewrite Pos.compare_refl.
  destruct s; reflexivity.
Qed.

Lemma is_finite_SF f :
  is_finite f = match Prim2SF f with
                | S754_zero _ | S754_finite _ _ _ => true
                | _ => false
                end.
Proof.
  unfold is_finite, is_nan, is_infinity. rewrite !eqb_spec, abs_spec.
  change (Prim2SF infinity) with (S754_infinity false).
  destruct (Prim2SF f) as [s|s| |s m e]; try (destruct s; reflexivity); try reflexivity.
  unfold SFeqb. rewrite SFcompare_refl. destruct s; reflexivity.
Qed.

Lemma SFleb_SFltb a b : SFleb a b = true -> SFltb b a = false.
Proof.
  unfold SFleb, SFltb.
  destruct a as [sa|sa| |sa ma ea], b as [sb|sb| |sb mb eb]; cbn [SFcompare];
    try (destruct sa); try (destruct sb); try reflexivity; try discriminate;
    rewrite (Z.compare_antisym ea eb);
    change (Pos.compare_cont Eq mb ma) with (mb ?= ma)%positive;
    change (Pos.compare_cont Eq ma mb) with (ma ?= mb)%positive;
    rewrite (Pos.compare_antisym ma mb);
    destruct (ea ?= eb); destruct (ma ?= mb)%positive; cbn; congruence.
Qed.

Lemma leb_ltb a b : (a <=? b)%float = true -> (b <? a)%float = false.
Proof. rewrite leb_spec, ltb_spec. apply SFleb_SFltb. Qed.

Lemma pos_finite_valid f m e :
  Prim2SF f = S754_finite false m e -> valid_binary (S754_finite false m e) = true.
Proof. intros <-. apply Prim2SF_valid. Qed.

Lemma pos_finite_pos f v : pos_finite f v -> (0 < v)%R.
Proof.
  intros (m & e & _ & ->). apply Rmult_lt_0_compat; [apply IZR_lt; lia|apply bpow_pos].
Qed.

Lemma pos_finite_facts f v :
  pos_finite f v ->
  is_finite f = true /\ (0 <? f)%float = true /\ (f =? 0)%float = false.
Proof.
  intros (m & e & E & _). rewrite is_finite_SF, ltb_spec, eqb_spec, E.
  change (Prim2SF 0) with (S754_zero false). repeat split; reflexivity.
Qed.

(** A float at least a positive finite one is positive: finite or infinite. *)
Lemma leb_pos_finite a va d :
  pos_finite a va -> (a <=? d)%float = true ->
  Prim2SF d = S754_infinity false \/ exists vd, pos_finite d vd /\ (va <= vd)%R.
Proof.
  intros (m & e & E & ->) H. rewrite leb_spec, E in H.
  pose proof (Prim2SF_valid d) as Vd. pose proof (pos_finite_valid _ _ _ E) as Va.
  destruct (Prim2SF d) as [s|s| |s md ed] eqn:Ed; try discriminate.
  - destruct s; [discriminate|]. left; reflexivity.
  - destruct s; [discriminate|]. right. eexists. split.
    + exists md, ed. split; [exact Ed|reflexivity].
    + apply SFleb_val; assumption.
Qed.

Lemma mul_rounds a va b vb :
  pos_finite a va -> pos_finite b vb -> rounds_to (va * vb) (Prim2SF (a * b)).
Proof.
  intros (ma & ea & Ea & ->) (mb & eb & Eb & ->). rewrite mul_spec, Ea, Eb.
  apply SFmul_rounds_to; eapply pos_finite_valid; eassumption.
Qed.

Lemma div_rounds a va b vb :
  pos_finite a va -> pos_finite b vb -> rounds_to (va / vb) (Prim2SF (a / b)).
Proof.
  intros (ma & ea & Ea & ->) (mb & eb & Eb & ->). rewrite div_spec, Ea, Eb.
  apply SFdiv_rounds_to.
Qed.

Lemma float_of_Z_rounds n : 0 < n -> rounds_to (IZR n) (Prim2SF (float_of_Z n)).
Proof.
  intros Hn. pose proof (normalize_rounds_to n Hn) as H. unfold float_of_Z.
  rewrite Prim2SF_SF2Prim; [exact H|]. eapply rounds_to_valid; eassumption.
Qed.

Lemma rounds_pos_finite x f a b :
  rounds_to x (Prim2SF f) -> -1074 <= a -> b <= 1023 -> (bpow a <= x <= bpow b)%R ->
  exists v, pos_finite f v /\ (bpow a <= v <= bpow b)%R.
Proof.
  intros H Ha Hb Hx. destruct (rounds_to_pow_bounds _ _ _ _ H Ha Hb Hx) as (m & e & E & B).
  eexists. split; [exists m, e; split; [exact E|reflexivity]|exact B].
Qed.

(** The constants of the application *)
Lemma ORIG_FX_finite : exists v, pos_finite ORIG_FX v /\ (bpow 9 <= v <= bpow 10)%R.
Proof.
  eexists. split.
  - eexists _, _. split; [vm_compute; reflexivity|reflexivity].
  - rewrite (bpow_IZR 9), (bpow_IZR 10) by lia. 
    replace (-43) with (-(43)) by lia. unfold bpow. rewrite powerRZ_neg'.
    change (powerRZ 2 43) with (bpow 43). rewrite (bpow_IZR 43) by lia.
    simpl Z.pow. split; lra.
Qed.

Lemma bpow_neg k : bpow (- k) = (/ bpow k)%R.
Proof. unfold bpow. apply powerRZ_neg'. Qed.

(* concrete power evaluation *)
Ltac bpow_num :=
  repeat match goal with
  | |- context [bpow (Z.neg ?p)] =>
      change (bpow (Z.neg p)) with (bpow (- Z.pos p)); rewrite (bpow_neg (Z.pos p))
  | |- context [bpow (Z.pos ?p)] => rewrite (bpow_IZR (Z.pos p)) by lia
  | |- context [bpow 0] => change (bpow 0) with 1%R
  end; simpl Z.pow.

Lemma const_finite_10 : exists v, pos_finite BASELINE v /\ (bpow 3 <= v <= bpow 4)%R.
Proof.
  eexists. split.
  - eexists _, _. split; [vm_compute; reflexivity|reflexivity].
  - bpow_num. split; lra.
Qed.

Lemma const_finite_1280 : exists v, pos_finite (float_of_Z CALIB_W) v /\ (bpow 10 <= v <= bpow 11)%R.
Proof.
  eexists. split.
  - eexists _, _. split; [vm_compute; reflexivity|reflexivity].
  - bpow_num. split; lra.
Qed.

Lemma float_of_Z_finite w :
  0 < w < 2 ^ 53 -> exists v, pos_finite (float_of_Z w) v /\ (bpow 0 <= v <= bpow 53)%R.
Proof.
  intros Hw. apply rounds_pos_finite with (x := IZR w); try lia.
  - apply float_of_Z_rounds. lia.
  - rewrite (bpow_IZR 0), (bpow_IZR 53) by lia. split; apply IZR_le; simpl Z.pow in *; lia.
Qed.

Lemma is_small_pos w : 0 < w < 2 ^ 53 -> is_small w = true.
Proof. intros H. unfold is_small. apply Z.ltb_lt. lia. Qed.

Lemma int_truediv_small w b :
  is_small w = true -> is_small b = true -> b <> 0 ->
  int_truediv w b = OK (float_of_Z w / float_of_Z b)%float.
Proof.
  intros Hw Hb N. unfold int_truediv. rewrite (proj2 (Z.eqb_neq _ _) N), Hw, Hb. reflexivity.
Qed.

(** scale factor w / 1280 *)
Lemma scale_x_finite w :
  0 < w < 2 ^ 53 ->
  exists v, pos_finite (float_of_Z w / float_of_Z CALIB_W) v /\ (bpow (-11) <= v <= bpow 43)%R.
Proof.
  intros Hw. destruct (float_of_Z_finite w Hw) as (vw & Pw & Bw).
  destruct const_finite_1280 as (vc & Pc & Bc).
  apply rounds_pos_finite with (x := (vw / vc)%R); try lia.
  - apply div_rounds; assumption.
  - revert Bw Bc. bpow_num. intros Bw Bc.
    assert (0 < vc)%R by lra.
    split.
    + apply Rmult_le_reg_r with vc; [assumption|]. unfold Rdiv. rewrite Rmult_assoc, Rinv_l by lra. lra.
    + apply Rmult_le_reg_r with vc; [assumption|]. unfold Rdiv. rewrite Rmult_assoc, Rinv_l by lra. lra.
Qed.

Lemma Rmul_pow_bounds va vb a1 a2 b1 b2 :
  (bpow a1 <= va <= bpow a2)%R -> (bpow b1 <= vb <= bpow b2)%R ->
  (bpow (a1 + b1) <= va * vb <= bpow (a2 + b2))%R.
Proof.
  intros [A1 A2] [B1 B2]. rewrite !bpow_plus.
  pose proof (bpow_pos a1). pose proof (bpow_pos b1).
  split; apply Rmult_le_compat; lra.
Qed.

Lemma Rdiv_pow_bounds va vb a1 a2 b1 b2 :
  (bpow a1 <= va <= bpow a2)%R -> (bpow b1 <= vb <= bpow b2)%R ->
  (bpow (a1 - b2) <= va / vb <= bpow (a2 - b1))%R.
Proof.
  intros A [B1 B2]. pose proof (bpow_pos b1). pose proof (bpow_pos b2).
  assert (I : (bpow (- b2) <= / vb <= bpow (- b1))%R).
  { rewrite !bpow_neg. split; apply Rinv_le_contravar; lra. }
  unfold Rdiv, Z.sub. apply Rmul_pow_bounds; assumption.
Qed.

Lemma mul_bounds a va b vb a1 a2 b1 b2 :
  pos_finite a va -> pos_finite b vb ->
  (bpow a1 <= va <= bpow a2)%R -> (bpow b1 <= vb <= bpow b2)%R ->
  -1074 <= a1 + b1 -> a2 + b2 <= 1023 ->
  exists v, pos_finite (a * b) v /\ (bpow (a1 + b1) <= v <= bpow (a2 + b2))%R.
Proof.
  intros Pa Pb Ba Bb L U. apply rounds_pos_finite with (x := (va * vb)%R); try lia.
  - apply mul_rounds; assumption.
  - apply Rmul_pow_bounds; assumption.
Qed.

Lemma div_bounds a va b vb a1 a2 b1 b2 :
  pos_finite a va -> pos_finite b vb ->
  (bpow a1 <= va <= bpow a2)%R -> (bpow b1 <= vb <= bpow b2)%R ->
  -1074 <= a1 - b2 -> a2 - b1 <= 1023 ->
  exists v, pos_finite (a / b) v /\ (bpow (a1 - b2) <= v <= bpow (a2 - b1))%R.
Proof.
  intros Pa Pb Ba Bb L U. apply rounds_pos_finite with (x := (va / vb)%R); try lia.
  - apply div_rounds; assumption.
  - apply Rdiv_pow_bounds; assumption.
Qed.

(** Range of a finite positive float *)
Lemma pos_finite_range f v : pos_finite f v -> (bpow (-1074) <= v < bpow 1024)%R.
Proof.
  intros (m & e & E & ->). pose proof (pos_finite_valid _ _ _ E) as V.
  destruct (valid_canonical _ _ _ V) as [C Le].
  destruct (canonical_range _ _ _ _ C) as [U _]. destruct C as (_ & Hm & HE & _).
  split.
  - assert (bpow (-1074) <= bpow e)%R by (apply bpow_le; lia).
    assert (1 <= IZR (Z.pos m))%R by (apply IZR_le; lia).
    pose proof (bpow_pos e). nra.
  - assert (bpow (e + 53) <= bpow 1024)%R by (apply bpow_le; lia). lra.
Qed.

(** ** The scaler on dimensions that fit a mantissa *)
Lemma get_scaled_intrinsics_small w h :
  is_small w = true -> is_small h = true ->
  get_scaled_intrinsics w h =
  OK (mkIntrinsics (ORIG_FX * (float_of_Z w / float_of_Z CALIB_W))
                   (ORIG_FY * (float_of_Z h / float_of_Z CALIB_H))
                   (ORIG_CX * (float_of_Z w / float_of_Z CALIB_W))
                   (ORIG_CY * (float_of_Z h / float_of_Z CALIB_H)))%float.
Proof.
  intros Hw Hh. unfold get_scaled_intrinsics.
  rewrite (int_truediv_small w CALIB_W Hw eq_refl) by (intro; discriminate).
  rewrite (int_truediv_small h CALIB_H Hh eq_refl) by (intro; discriminate).
  reflexivity.
Qed.

Lemma fx_finite w :
  0 < w < 2 ^ 53 ->
  exists v, pos_finite (ORIG_FX * (float_of_Z w / float_of_Z CALIB_W)) v /\
            (bpow (-2) <= v <= bpow 53)%R.
Proof.
  intros Hw. destruct (scale_x_finite w Hw) as (vs & Ps & Bs).
  destruct ORIG_FX_finite as (vf & Pf & Bf).
  exact (mul_bounds _ _ _ _ 9 10 (-11) 43 Pf Ps Bf Bs ltac:(lia) ltac:(lia)).
Qed.

Lemma disparity_ge_1 d :
  (1 <=? d)%float = true -> is_finite d = true ->
  exists vd, pos_finite d vd /\ (bpow 0 <= vd < bpow 1024)%R.
Proof.
  intros H F.
  assert (P1 : pos_finite 1 (bpow 0)).
  { exists 4503599627370496%positive, (-52). split; [vm_compute; reflexivity|].
    bpow_num. lra. }
  destruct (leb_pos_finite _ _ _ P1 H) as [I|(vd & Pd & Hd)].
  - rewrite is_finite_SF, I in F. discriminate.
  - exists vd. split; [assumption|]. split; [assumption|]. apply (pos_finite_range d), Pd.
Qed.

Lemma calculated_Z_finite fx0 vf d :
  pos_finite fx0 vf -> (bpow (-2) <= vf <= bpow 53)%R ->
  (1 <=? d)%float = true -> is_finite d = true ->
  exists Zc, calculated_Z fx0 d = OK Zc /\ Zc = (fx0 * BASELINE / d)%float /\
             is_finite Zc = true /\ (0 <? Zc)%float = true.
Proof.
  intros Pf Bf H F. destruct (disparity_ge_1 d H F) as (vd & Pd & Bd).
  destruct const_finite_10 as (vb & Pb & Bb).
  destruct (mul_bounds _ _ _ _ (-2) 53 3 4 Pf Pb Bf Bb ltac:(lia) ltac:(lia)) as (va & Pa & Ba).
  assert (Bd' : (bpow 0 <= vd <= bpow 1024)%R) by lra.
  destruct (div_bounds _ _ _ _ (-2 + 3) (53 + 4) 0 1024 Pa Pd Ba Bd' ltac:(lia) ltac:(lia))
    as (vz & Pz & Bz).
  exists (fx0 * BASELINE / d)%float. unfold calculated_Z, float_truediv.
  destruct (pos_finite_facts _ _ Pd) as (_ & _ & ->).
  destruct (pos_finite_facts _ _ Pz) as (Fz & Gz & _).
  repeat split; assumption.
Qed.

Lemma rounds_to_lower x f :
  rounds_to x f -> (bpow (-1074) <= x)%R ->
  f = S754_infinity false \/ exists m e, f = S754_finite false m e.
Proof.
  intros Hf Hx. destruct (pow2_subnormal (-1074) ltac:(lia)) as [V E].
  rewrite <- E in Hx.
  pose proof (rounds_to_mono _ _ _ _ (rounds_to_exact _ _ V) Hf Hx) as L.
  destruct f as [s|s| |s m e]; try discriminate.
  - destruct s; [discriminate|]. left; reflexivity.
  - destruct s; [discriminate|]. right; eauto.
Qed.







(** ** Doubling *)
Lemma double_value m e : (IZR (Z.pos m) * bpow (e + 1) = 2 * (IZR (Z.pos m) * bpow e))%R.
Proof. rewrite bpow_succ. ring. Qed.

Lemma rounds_double_unique x m e g :
  rounds_to x (S754_finite false m e) -> (bpow (-1022) <= x < bpow 1022)%R ->
  rounds_to (2 * x) g -> g = S754_finite false m (e + 1).
Proof.
  intros H B G. eapply rounds_to_unique; [exact G|]. apply rounds_to_double; assumption.
Qed.

Lemma two_mul f m e :
  Prim2SF f = S754_finite false m e ->
  (bpow (-1022) <= IZR (Z.pos m) * bpow e < bpow 1022)%R ->
  Prim2SF (2 * f) = S754_finite false m (e + 1).
Proof.
  intros E B. apply rounds_double_unique with (x := (IZR (Z.pos m) * bpow e)%R).
  - apply rounds_to_exact. eapply pos_finite_valid; eassumption.
  - exact B.
  - assert (P2 : pos_finite 2 2).
    { exists 4503599627370496%positive, (-51). split; [vm_compute; reflexivity|].
      bpow_num. lra. }
    apply mul_rounds; [exact P2|]. exists m, e. split; [exact E|reflexivity].
Qed.

Lemma mul_double c vc a a2 ma ea mq xq :
  pos_finite c vc ->
  Prim2SF a = S754_finite false ma ea -> Prim2SF a2 = S754_finite false ma (ea + 1) ->
  Prim2SF (c * a) = S754_finite false mq xq ->
  (bpow (-1022) <= vc * (IZR (Z.pos ma) * bpow ea) < bpow 1022)%R ->
  Prim2SF (c * a2) = S754_finite false mq (xq + 1).
Proof.
  intros Pc Ea Ea2 Hq B.
  apply rounds_double_unique with (x := (vc * (IZR (Z.pos ma) * bpow ea))%R).
  - rewrite <- Hq. apply mul_rounds; [exact Pc|]. exists ma, ea. split; [exact Ea|reflexivity].
  - exact B.
  - replace (2 * (vc * (IZR (Z.pos ma) * bpow ea)))%R
      with (vc * (IZR (Z.pos ma) * bpow (ea + 1)))%R by (rewrite double_value; ring).
    apply mul_rounds; [exact Pc|]. exists ma, (ea + 1). split; [exact Ea2|reflexivity].
Qed.

Lemma div_double c vc a a2 ma ea mq xq :
  pos_finite c vc ->
  Prim2SF a = S754_finite false ma ea -> Prim2SF a2 = S754_finite false ma (ea + 1) ->
  Prim2SF (a / c) = S754_finite false mq xq ->
  (bpow (-1022) <= IZR (Z.pos ma) * bpow ea / vc < bpow 1022)%R ->
  Prim2SF (a2 / c) = S754_finite false mq (xq + 1).
Proof.
  intros Pc Ea Ea2 Hq B.
  apply rounds_double_unique with (x := (IZR (Z.pos ma) * bpow ea / vc)%R).
  - rewrite <- Hq. apply div_rounds; [|exact Pc]. exists ma, ea. split; [exact Ea|reflexivity].
  - exact B.
  - replace (2 * (IZR (Z.pos ma) * bpow ea / vc))%R
      with (IZR (Z.pos ma) * bpow (ea + 1) / vc)%R
      by (rewrite double_value; unfold Rdiv; ring).
    apply div_rounds; [|exact Pc]. exists ma, (ea + 1). split; [exact Ea2|reflexivity].
Qed.

Lemma float_of_Z_double w m e :
  0 < w < 2 ^ 52 -> Prim2SF (float_of_Z w) = S754_finite false m e ->
  Prim2SF (float_of_Z (2 * w)) = S754_finite false m (e + 1).
Proof.
  intros Hw E. apply rounds_double_unique with (x := IZR w).
  - rewrite <- E. apply float_of_Z_rounds. lia.
  - assert (1 <= IZR w)%R by (apply IZR_le; lia).
    assert (IZR w <= IZR (2 ^ 52))%R by (apply IZR_le; lia).
    rewrite <- (bpow_IZR 52) in * by lia.
    assert (bpow (-1022) <= bpow 0)%R by (apply bpow_le; lia).
    assert (bpow 52 < bpow 1022)%R by (apply bpow_lt; lia).
    change (bpow 0) with 1%R in *. lra.
  - rewrite <- mult_IZR. apply float_of_Z_rounds. lia.
Qed.

(** ** Signs and swapped subtraction *)
Lemma round_aux_opp s m e l :
  binary_round_aux prec emax (negb s) m e l = SFopp (binary_round_aux prec emax s m e l).
Proof.
  unfold binary_round_aux. destruct (shr_fexp prec emax m e l) as [mrs e'].
  destruct (shr_fexp prec emax _ e' loc_Exact) as [mrs' e''].
  destruct (shr_m mrs'); [reflexivity| |reflexivity].
  destruct (e'' <=? emax - prec); reflexivity.
Qed.

Lemma normalize_opp z e :
  binary_normalize prec emax (- z) e false = SFopp (binary_normalize prec emax z e false) \/
  (z = 0 /\ binary_normalize prec emax z e false = S754_zero false).
Proof.
  destruct z as [|p|p]; [right; split; reflexivity| |]; left; cbn [Z.opp binary_normalize];
    unfold binary_round; destruct (shl_align p e _) as [mz ez].
  - apply (round_aux_opp false).
  - change false with (negb true) at 1. rewrite (round_aux_opp true).
    destruct (binary_round_aux prec emax true (Z.pos mz) ez loc_Exact) as [[]|[]| |[] ? ?];
      reflexivity.
Qed.

Lemma SFsub_swap x y :
  SFsub prec emax y x = SFopp (SFsub prec emax x y) \/
  SFsub prec emax y x = SFsub prec emax x y.
Proof.
  destruct x as [sx|sx| |sx mx ex], y as [sy|sy| |sy my ey];
    try (destruct sx, sy; cbn; auto; fail);
    try (destruct sx; cbn; auto; fail);
    try (destruct sy; cbn; auto; fail);
    try (cbn; auto; fail).
  cbn [SFsub]. rewrite (Z.min_comm ey ex).
  set (A := cond_Zopp sx (Z.pos (fst (shl_align mx ex (Z.min ex ey))))).
  set (B := cond_Zopp sy (Z.pos (fst (shl_align my ey (Z.min ex ey))))).
  replace (B - A) with (- (A - B)) by lia.
  destruct (normalize_opp (A - B) (Z.min ex ey)) as [->|[Z0 E]].
  - left; reflexivity.
  - right. rewrite Z0 at 1. rewrite E. reflexivity.
Qed.

Lemma SFabs_opp x : SFabs (SFopp x) = SFabs x.
Proof. destruct x; reflexivity. Qed.

Lemma SFmul_opp_opp x : SFmul prec emax (SFopp x) (SFopp x) = SFmul prec emax x x.
Proof. destruct x as [[]|[]| |[] m e]; reflexivity. Qed.

Lemma sub_swap a b : (b - a = - (a - b))%float \/ (b - a = a - b)%float.
Proof.
  destruct (SFsub_swap (Prim2SF a) (Prim2SF b)) as [H|H]; [left|right];
    apply Prim2SF_inj; rewrite ?opp_spec, !sub_spec; exact H.
Qed.

Lemma abs_opp a : PrimFloat.abs (- a) = PrimFloat.abs a.
Proof. apply Prim2SF_inj. rewrite !abs_spec, opp_spec. apply SFabs_opp. Qed.

Lemma is_finite_opp a : is_finite (- a) = is_finite a.
Proof. rewrite !is_finite_SF, opp_spec. destruct (Prim2SF a); reflexivity. Qed.

Lemma float_pow2_opp a : float_pow2 (- a) = float_pow2 a.
Proof.
  unfold float_pow2. rewrite is_finite_opp.
  replace (- a * - a)%float with (a * a)%float; [reflexivity|].
  apply Prim2SF_inj. rewrite !mul_spec, opp_spec. symmetry. apply SFmul_opp_opp.
Qed.

Lemma abs_sub_swap a b : PrimFloat.abs (b - a) = PrimFloat.abs (a - b).
Proof. destruct (sub_swap a b) as [->| ->]; [apply abs_opp|reflexivity]. Qed.

Lemma float_pow2_sub_swap a b : float_pow2 (b - a) = float_pow2 (a - b).
Proof. destruct (sub_swap a b) as [->| ->]; [apply float_pow2_opp|reflexivity]. Qed.

(** ** Cancellation *)
Lemma shl_align_same m e : shl_align m e e = (m, e).
Proof. unfold shl_align. rewrite Z.sub_diag. reflexivity. Qed.

Lemma sub_self a : is_finite a = true -> (a - a)%float = 0%float.
Proof.
  rewrite is_finite_SF. intros F. apply Prim2SF_inj. rewrite sub_spec.
  change (Prim2SF 0) with (S754_zero false).
  destruct (Prim2SF a) as [[]|[]| |s m e]; try discriminate; try reflexivity.
  cbn [SF64sub SFsub]. unfold SF64sub. cbn [SFsub]. rewrite Z.min_id, shl_align_same.
  cbn [fst]. rewrite Z.sub_diag. reflexivity.
Qed.

Lemma round_aux_sign m e l : nonneg_or_nan (binary_round_aux prec emax false m e l) = true.
Proof.
  unfold binary_round_aux. destruct (shr_fexp prec emax m e l) as [mrs e'].
  destruct (shr_fexp prec emax _ e' loc_Exact) as [mrs' e''].
  destruct (shr_m mrs'); [reflexivity| |reflexivity].
  destruct (e'' <=? emax - prec); reflexivity.
Qed.

Lemma SFmul_self_sign x : nonneg_or_nan (SFmul prec emax x x) = true.
Proof.
  destruct x as [[]|[]| |s m e]; try reflexivity. cbn [SFmul].
  replace (xorb s s) with false by (destruct s; reflexivity). apply round_aux_sign.
Qed.

Lemma SFadd_sign x y :
  nonneg_or_nan x = true -> nonneg_or_nan y = true ->
  nonneg_or_nan (SFadd prec emax x y) = true.
Proof.
  destruct x as [[]|[]| |[] mx ex], y as [[]|[]| |[] my ey]; try discriminate; try reflexivity.
  intros _ _. cbn [SFadd cond_Zopp]. unfold binary_normalize.
  destruct (shl_align mx ex _) as [ma ea]. destruct (shl_align my ey _) as [mb eb].
  cbn [fst Z.add]. unfold binary_round. destruct (shl_align (ma + mb) _ _) as [mz ez].
  apply round_aux_sign.
Qed.

Lemma nonneg_not_lt0 f : nonneg_or_nan f = true -> SFltb f (S754_zero false) = false.
Proof. destruct f as [[]|[]| |[] m e]; try discriminate; reflexivity. Qed.

Lemma float_pow2_OK a r : float_pow2 a = OK r -> r = (a * a)%float.
Proof.
  unfold float_pow2. destruct (is_infinity (a * a) && is_finite a); [discriminate|].
  intros [= <-]. reflexivity.
Qed.

Lemma math_sqrt_squares a b dx2 dy2 :
  float_pow2 a = OK dx2 -> float_pow2 b = OK dy2 ->
  math_sqrt (dx2 + dy2) = OK (PrimFloat.sqrt (dx2 + dy2)).
Proof.
  intros Ha Hb. apply float_pow2_OK in Ha, Hb. subst dx2 dy2. unfold math_sqrt.
  assert (L : ((a * a + b * b) <? 0)%float = false).
  { rewrite ltb_spec, add_spec, !mul_spec. change (Prim2SF 0) with (S754_zero false).
    apply nonneg_not_lt0, SFadd_sign; apply SFmul_self_sign. }
  rewrite L. reflexivity.
Qed.

Lemma ltb_1_not_0 d : (d <? 1)%float = false -> (d =? 0)%float = false.
Proof.
  rewrite ltb_spec, eqb_spec. change (Prim2SF 1) with (S754_finite false 4503599627370496 (-52)).
  change (Prim2SF 0) with (S754_zero false).
  destruct (Prim2SF d) as [[]|[]| |[] m e]; try reflexivity; discriminate.
Qed.

Lemma stereo_small pl pr w h k :
  get_scaled_intrinsics w h = OK k ->
  (disparity_of pl pr <? 1)%float = true ->
  calculate_stereo pl pr w h = OK DisparityTooSmall.
Proof. intros G L. unfold calculate_stereo. rewrite G. cbn [bind]. rewrite L. reflexivity. Qed.

Lemma stereo_large pl pr w h k :
  get_scaled_intrinsics w h = OK k ->
  (disparity_of pl pr <? 1)%float = false ->
  calculate_stereo pl pr w h =
  OK (StereoResult (round (fx k * BASELINE / disparity_of pl pr) 4)
                   (round (disparity_of pl pr) 2)).
Proof.
  intros G L. unfold calculate_stereo, calculated_Z, float_truediv. rewrite G. cbn [bind].
  rewrite L, (ltb_1_not_0 _ L). reflexivity.
Qed.

Lemma scaled_1280_720 : get_scaled_intrinsics 1280 720 = OK k_1280_720.
Proof. vm_compute. reflexivity. Qed.

(** C1 (amended).  Whenever the scaler returns intrinsics [k] for the image
    dimensions and the disparity [d = |p_left.x - p_right.x|] is at least 1.0,
    line 60 computes [(fx * BASELINE) / d] without raising, and the payload
    carries that quotient rounded to four decimals, next to the disparity
    rounded to two.  At 1280x720 with p_left = (400, 300) and
    p_right = (380, 300) the disparity is 20.0, [(991.396 * 10.0) / 20.0] is
    495.698 and the returned depth is 495.698. *)
Theorem C1_depth_is_rounded_quotient :
  (forall p_left p_right img_w img_h k,
     get_scaled_intrinsics img_w img_h = OK k ->
     (1 <=? disparity_of p_left p_right)%float = true ->
     calculated_Z (fx k) (disparity_of p_left p_right)
       = OK (fx k * BASELINE / disparity_of p_left p_right)%float /\
     calculate_stereo p_left p_right img_w img_h
       = OK (StereoResult (round (fx k * BASELINE / disparity_of p_left p_right) 4)
                          (round (disparity_of p_left p_right) 2))) /\
  disparity_of (mkPoint 400 300) (mkPoint 380 300) = 20%float /\
  (991.396 * 10.0 / 20.0 = 495.698)%float /\
  calculate_stereo (mkPoint 400 300) (mkPoint 380 300) 1280 720
    = OK (StereoResult 495.698 20).
Proof.
  split; [|repeat split; vm_compute; reflexivity].
  intros pl pr w h k G H. pose proof (leb_ltb _ _ H) as L. split.
  - unfold calculated_Z, float_truediv. rewrite (ltb_1_not_0 _ L). reflexivity.
  - apply stereo_large; assumption.
Qed.

Lemma C1_witness :
  calculate_stereo (mkPoint 383 300) (mkPoint 380 300) 1280 720
  = OK (StereoResult (round (fx k_1280_720 * BASELINE
                             / disparity_of (mkPoint 383 300) (mkPoint 380 300)) 4)
                     (round (disparity_of (mkPoint 383 300) (mkPoint 380 300)) 2)).
Proof.
  apply (proj1 C1_depth_is_rounded_quotient (mkPoint 383 300) (mkPoint 380 300) 1280 720
           k_1280_720 scaled_1280_720).
  vm_compute. reflexivity.
Defined.

Lemma C1_counterexample :
  get_scaled_intrinsics 1280 720 = OK k_1280_720 /\
  (1 <=? disparity_of (mkPoint 383 300) (mkPoint 380 300))%float = true /\
  calculated_Z (fx k_1280_720) (disparity_of (mkPoint 383 300) (mkPoint 380 300))
    = OK 3304.6533333333332%float /\
  calculate_stereo (mkPoint 383 300) (mkPoint 380 300) 1280 720
    = OK (StereoResult 3304.6533 3) /\
  (3304.6533 =? 3304.6533333333332)%float = false.
Proof. repeat split; vm_compute; reflexivity. Qed.

(** C2.  Once the scaler has returned, the depth route answers with the
    DisparityTooSmall payload exactly when the disparity is strictly below
    1.0, and answers with a depth otherwise.  A disparity of exactly 1.0
    (381 against 380) succeeds and a disparity of 0.999 fails. *)
Theorem C2_disparity_too_small_iff :
  (forall p_left p_right img_w img_h k,
     get_scaled_intrinsics img_w img_h = OK k ->
     (calculate_stereo p_left p_right img_w img_h = OK DisparityTooSmall <->
      (disparity_of p_left p_right <? 1.0)%float = true) /\
     ((disparity_of p_left p_right <? 1.0)%float = false ->
      exists Z_cm d, calculate_stereo p_left p_right img_w img_h = OK (StereoResult Z_cm d))) /\
  disparity_of (mkPoint 381 300) (mkPoint 380 300) = 1.0%float /\
  calculate_stereo (mkPoint 381 300) (mkPoint 380 300) 1280 720
    = OK (StereoResult 9913.96 1) /\
  disparity_of (mkPoint 0.999 300) (mkPoint 0 300) = 0.999%float /\
  calculate_stereo (mkPoint 0.999 300) (mkPoint 0 300) 1280 720 = OK DisparityTooSmall.
Proof.
  split; [|repeat split; vm_compute; reflexivity].
  intros pl pr w h k G. split; [split|].
  - intros H. destruct (disparity_of pl pr <? 1)%float eqn:L; [reflexivity|].
    rewrite (stereo_large _ _ _ _ _ G L) in H. discriminate.
  - apply (stereo_small _ _ _ _ k); assumption.
  - intros L. eexists _, _. apply (stereo_large _ _ _ _ k); assumption.
Qed.

Lemma C2_witness :
  calculate_stereo (mkPoint 380.5 300) (mkPoint 380 300) 1280 720 = OK DisparityTooSmall
  <-> (disparity_of (mkPoint 380.5 300) (mkPoint 380 300) <? 1.0)%float = true.
Proof.
  exact (proj1 (proj1 C2_disparity_too_small_iff (mkPoint 380.5 300) (mkPoint 380 300)
                  1280 720 k_1280_720 scaled_1280_720)).
Defined.

Lemma zero_div d : (1 <=? d)%float = true -> (0 / d)%float = 0%float.
Proof.
  intros H. apply Prim2SF_inj. rewrite div_spec. change (Prim2SF 0) with (S754_zero false).
  rewrite leb_spec in H. change (Prim2SF 1) with (S754_finite false 4503599627370496 (-52)) in H.
  destruct (Prim2SF d) as [[]|[]| |[] m e]; try discriminate; reflexivity.
Qed.

(** C5 (amended).  With [image_width = 0] the depth route signals no
    dimension error: for every pair of points whose disparity is at least
    1.0 (and every height the scaler accepts) it returns the depth 0.0. *)
Theorem C5_zero_width_returns_zero_depth :
  forall p_left p_right img_h scale_y,
    int_truediv img_h CALIB_H = OK scale_y ->
    (1 <=? disparity_of p_left p_right)%float = true ->
    calculate_stereo p_left p_right 0 img_h
      = OK (StereoResult 0 (round (disparity_of p_left p_right) 2)).
Proof.
  intros pl pr h sy Hh H.
  assert (G : get_scaled_intrinsics 0 h
              = OK (mkIntrinsics (ORIG_FX * 0) (ORIG_FY * sy) (ORIG_CX * 0) (ORIG_CY * sy))%float).
  { unfold get_scaled_intrinsics. change (int_truediv 0 CALIB_W) with (OK 0%float).
    cbn [bind]. rewrite Hh. reflexivity. }
  rewrite (stereo_large _ _ _ _ _ G (leb_ltb _ _ H)). cbn [fx].
  change (ORIG_FX * 0 * BASELINE)%float with 0%float. rewrite (zero_div _ H).
  reflexivity.
Qed.

Lemma C5_witness :
  calculate_stereo (mkPoint 400 300) (mkPoint 380 300) 0 720
  = OK (StereoResult 0 (round (disparity_of (mkPoint 400 300) (mkPoint 380 300)) 2)).
Proof.
  apply (C5_zero_width_returns_zero_depth (mkPoint 400 300) (mkPoint 380 300) 720 1).
  - vm_compute. reflexivity.
  - vm_compute. reflexivity.
Defined.

Lemma C5_counterexample :
  calculate_stereo (mkPoint 400 300) (mkPoint 380 300) 0 720 = OK (StereoResult 0 20).
Proof. vm_compute. reflexivity. Qed.

Lemma const_finite c m e a b :
  Prim2SF c = S754_finite false m e ->
  (bpow a <= IZR (Z.pos m) * bpow e <= bpow b)%R ->
  exists v, pos_finite c v /\ (bpow a <= v <= bpow b)%R.
Proof. intros E B. eexists. split; [exists m, e; split; [exact E|reflexivity]|exact B]. Qed.

Lemma ORIG_FY_finite : exists v, pos_finite ORIG_FY v /\ (bpow 9 <= v <= bpow 10)%R.
Proof.
  eapply const_finite; [vm_compute; reflexivity|]. bpow_num. split; lra.
Qed.

Lemma ORIG_CX_finite : exists v, pos_finite ORIG_CX v /\ (bpow 9 <= v <= bpow 10)%R.
Proof.
  eapply const_finite; [vm_compute; reflexivity|]. bpow_num. split; lra.
Qed.

Lemma const_finite_720 :
  exists v, pos_finite (float_of_Z CALIB_H) v /\ (bpow 9 <= v <= bpow 10)%R.
Proof.
  eapply const_finite; [vm_compute; reflexivity|]. bpow_num. split; lra.
Qed.

Lemma fy_finite h :
  0 < h < 2 ^ 53 ->
  exists v, pos_finite (ORIG_FY * (float_of_Z h / float_of_Z CALIB_H)) v /\
            (bpow (-1) <= v <= bpow 54)%R.
Proof.
  intros Hh. destruct (float_of_Z_finite h Hh) as (vh & Ph & Bh).
  destruct const_finite_720 as (vc & Pc & Bc).
  destruct (div_bounds _ _ _ _ 0 53 9 10 Ph Pc Bh Bc ltac:(lia) ltac:(lia)) as (vs & Ps & Bs).
  destruct ORIG_FY_finite as (vf & Pf & Bf).
  exact (mul_bounds _ _ _ _ 9 10 (0 - 10) (53 - 9) Pf Ps Bf Bs ltac:(lia) ltac:(lia)).
Qed.

(** C6 (amended).  For image dimensions from 1 to [2^53 - 1] and a finite
    disparity of at least 1.0, the scaler and line 60 both return, and the
    depth computed before the display rounding is a finite, strictly positive
    binary64 number; the payload carries its rounding to four decimals. *)
Theorem C6_computed_depth_finite_positive :
  forall p_left p_right img_w img_h,
    0 < img_w < 2 ^ 53 -> 0 < img_h < 2 ^ 53 ->
    (1 <=? disparity_of p_left p_right)%float = true ->
    is_finite (disparity_of p_left p_right) = true ->
    exists k Zc,
      get_scaled_intrinsics img_w img_h = OK k /\
      calculated_Z (fx k) (disparity_of p_left p_right) = OK Zc /\
      is_finite Zc = true /\ (0 <? Zc)%float = true /\
      calculate_stereo p_left p_right img_w img_h
        = OK (StereoResult (round Zc 4) (round (disparity_of p_left p_right) 2)).
Proof.
  intros pl pr w h Hw Hh H F.
  pose proof (get_scaled_intrinsics_small w h (is_small_pos _ Hw) (is_small_pos _ Hh)) as G.
  destruct (fx_finite w Hw) as (vf & Pf & Bf).
  destruct (calculated_Z_finite _ _ _ Pf Bf H F) as (Zc & EZ & -> & FZ & PZ).
  eexists _, _. split; [exact G|]. cbn [fx]. split; [exact EZ|].
  split; [exact FZ|]. split; [exact PZ|].
  rewrite (stereo_large _ _ _ _ _ G (leb_ltb _ _ H)). reflexivity.
Qed.

Lemma C6_witness :
  exists k Zc,
    get_scaled_intrinsics 1280 720 = OK k /\
    calculated_Z (fx k) (disparity_of (mkPoint 400 300) (mkPoint 380 300)) = OK Zc /\
    is_finite Zc = true /\ (0 <? Zc)%float = true /\
    calculate_stereo (mkPoint 400 300) (mkPoint 380 300) 1280 720
      = OK (StereoResult (round Zc 4)
                         (round (disparity_of (mkPoint 400 300) (mkPoint 380 300)) 2)).
Proof.
  apply (C6_computed_depth_finite_positive (mkPoint 400 300) (mkPoint 380 300) 1280 720).
  - vm_compute. split; reflexivity.
  - vm_compute. split; reflexivity.
  - vm_compute. reflexivity.
  - vm_compute. reflexivity.
Defined.

Lemma C6_counterexample :
  (1 <=? disparity_of (mkPoint 1000000000 300) (mkPoint 0 300))%float = true /\
  calculate_stereo (mkPoint 1000000000 300) (mkPoint 0 300) 1280 720
    = OK (StereoResult 0 1000000000) /\
  (0 <? 0)%float = false.
Proof. repeat split; vm_compute; reflexivity. Qed.




Lemma scaled_double c vc w :
  pos_finite c vc -> (bpow 9 <= vc <= bpow 10)%R -> 0 < w < 2 ^ 52 ->
  (c * (float_of_Z (2 * w) / float_of_Z CALIB_W)
   = 2 * (c * (float_of_Z w / float_of_Z CALIB_W)))%float.
Proof.
  intros Pc Bc Hw.
  destruct (float_of_Z_finite w ltac:(lia)) as (vw & Pw & Bw).
  destruct const_finite_1280 as (v0 & P0 & B0).
  destruct (div_bounds _ _ _ _ 0 53 10 11 Pw P0 Bw B0 ltac:(lia) ltac:(lia)) as (vq & Pq & Bq).
  destruct (mul_bounds _ _ _ _ 9 10 (0 - 11) (53 - 10) Pc Pq Bc Bq ltac:(lia) ltac:(lia))
    as (vr & Pr & Br).
  pose proof (Rdiv_pow_bounds _ _ _ _ _ _ Bw B0) as Xq.
  destruct Pw as (mw & ew & Ew & ->).
  pose proof (float_of_Z_double w mw ew Hw Ew) as E2w.
  destruct Pq as (mq & xq & Hq & ->).
  assert (L1 : (bpow (-1022) <= bpow (0 - 11))%R) by (apply bpow_le; lia).
  assert (U1 : (bpow (53 - 10) < bpow 1022)%R) by (apply bpow_lt; lia).
  assert (L2 : (bpow (-1022) <= bpow (9 + (0 - 11)))%R) by (apply bpow_le; lia).
  assert (U2 : (bpow (10 + (53 - 10)) < bpow 1022)%R) by (apply bpow_lt; lia).
  assert (Xq' : (bpow (-1022) <= IZR (Z.pos mw) * bpow ew / v0 < bpow 1022)%R) by lra.
  pose proof (div_double _ _ _ _ mw ew mq xq P0 Ew E2w Hq Xq') as Hq2.
  pose proof (Rmul_pow_bounds _ _ _ _ _ _ Bc Bq) as Xr.
  destruct Pr as (mr & er & Er & ->).
  assert (Xr' : (bpow (-1022) <= vc * (IZR (Z.pos mq) * bpow xq) < bpow 1022)%R) by lra.
  pose proof (mul_double _ _ _ _ mq xq mr er Pc Hq Hq2 Er Xr') as Er2.
  apply Prim2SF_inj. rewrite Er2. symmetry. apply two_mul; [exact Er|lra].
Qed.

(** C4 (amended).  For a width from 1 to [2^52 - 1] and a height from 1 to
    [2^53 - 1] the scaler returns [fx = 991.396 * (w / 1280)],
    [fy = 991.628 * (h / 720)], [cx = 671.244 * (w / 1280)] and
    [cy = 371.286 * (h / 720)], every operation being the binary64 one; and
    doubling the width doubles [fx] and [cx] exactly and leaves [fy] and
    [cy] unchanged. *)
Theorem C4_scaled_intrinsics :
  forall img_w img_h,
    0 < img_w < 2 ^ 52 -> 0 < img_h < 2 ^ 53 ->
    get_scaled_intrinsics img_w img_h
      = OK (mkIntrinsics (991.396 * (float_of_Z img_w / float_of_Z 1280))
                         (991.628 * (float_of_Z img_h / float_of_Z 720))
                         (671.244 * (float_of_Z img_w / float_of_Z 1280))
                         (371.286 * (float_of_Z img_h / float_of_Z 720)))%float /\
    exists k k2,
      get_scaled_intrinsics img_w img_h = OK k /\
      get_scaled_intrinsics (2 * img_w) img_h = OK k2 /\
      fx k2 = (2 * fx k)%float /\ cx k2 = (2 * cx k)%float /\
      fy k2 = fy k /\ cy k2 = cy k.
Proof.
  intros img_w img_h Hw Hh.
  assert (Hw1 : 0 < img_w < 2 ^ 53) by lia. assert (Hw2 : 0 < 2 * img_w < 2 ^ 53) by lia.
  pose proof (get_scaled_intrinsics_small _ _ (is_small_pos _ Hw1) (is_small_pos _ Hh)) as G.
  pose proof (get_scaled_intrinsics_small _ _ (is_small_pos _ Hw2) (is_small_pos _ Hh)) as G2.
  split; [exact G|]. eexists _, _. split; [exact G|]. split; [exact G2|]. cbn [fx fy cx cy].
  destruct ORIG_FX_finite as (vf & Pf & Bf). destruct ORIG_CX_finite as (vc & Pc & Bc).
  repeat split.
  - apply (scaled_double _ _ _ Pf Bf Hw).
  - apply (scaled_double _ _ _ Pc Bc Hw).
Qed.

Lemma C4_witness :
  get_scaled_intrinsics 640 360
    = OK (mkIntrinsics (991.396 * (float_of_Z 640 / float_of_Z 1280))
                       (991.628 * (float_of_Z 360 / float_of_Z 720))
                       (671.244 * (float_of_Z 640 / float_of_Z 1280))
                       (371.286 * (float_of_Z 360 / float_of_Z 720)))%float /\
  exists k k2,
    get_scaled_intrinsics 640 360 = OK k /\
    get_scaled_intrinsics (2 * 640) 360 = OK k2 /\
    fx k2 = (2 * fx k)%float /\ cx k2 = (2 * cx k)%float /\
    fy k2 = fy k /\ cy k2 = cy k.
Proof.
  apply (C4_scaled_intrinsics 640 360); vm_compute; split; reflexivity.
Defined.

Lemma C4_counterexample :
  0 < 1280 * 2 ^ 1024 /\ 0 < 720 /\
  get_scaled_intrinsics (1280 * 2 ^ 1024) 720 = Raise OverflowError.
Proof. repeat split; vm_compute; reflexivity. Qed.

(** C9.  The size route is symmetric in its two points: exchanging [p1] and
    [p2] gives the same outcome, be it the same payload (size, dX and dY) or
    the same exception. *)
Theorem C9_size_symmetric :
  forall p1 p2 Zd img_w img_h,
    calculate_size p1 p2 Zd img_w img_h = calculate_size p2 p1 Zd img_w img_h.
Proof.
  intros p1 p2 Zd w h. unfold calculate_size.
  destruct (get_scaled_intrinsics w h) as [k|e]; [|reflexivity]. cbn [bind].
  unfold measure, back_project, float_truediv.
  destruct (fx k =? 0)%float; [reflexivity|]. cbn [bind].
  destruct (fy k =? 0)%float; [reflexivity|]. cbn [bind].
  set (X1 := ((px p1 - cx k) * Zd / fx k)%float). set (Y1 := ((py p1 - cy k) * Zd / fy k)%float).
  set (X2 := ((px p2 - cx k) * Zd / fx k)%float). set (Y2 := ((py p2 - cy k) * Zd / fy k)%float).
  rewrite (float_pow2_sub_swap X2 X1), (float_pow2_sub_swap Y2 Y1).
  destruct (float_pow2 (X2 - X1)) as [dx2|e]; [|reflexivity]. cbn [bind].
  destruct (float_pow2 (Y2 - Y1)) as [dy2|e]; [|reflexivity]. cbn [bind].
  destruct (math_sqrt (dx2 + dy2)) as [s|e]; [|reflexivity]. cbn [bind].
  rewrite (abs_sub_swap X2 X1), (abs_sub_swap Y2 Y1). reflexivity.
Qed.

(** C8 (amended).  When the back-projected coordinates of [p] at depth [Zd]
    are finite numbers, the size route called with [p1 = p2 = p] returns
    size 0.0 and dX = dY = 0.0. *)
Theorem C8_same_point_zero_size :
  forall p Zd img_w img_h k X Y,
    get_scaled_intrinsics img_w img_h = OK k ->
    back_project (px p) (cx k) Zd (fx k) = OK X ->
    back_project (py p) (cy k) Zd (fy k) = OK Y ->
    is_finite X = true -> is_finite Y = true ->
    calculate_size p p Zd img_w img_h = OK (mkSize 0 0 0).
Proof.
  intros p Zd w h k X Y G HX HY FX FY. unfold calculate_size, measure.
  rewrite G. cbn [bind]. rewrite HX, HY. cbn [bind].
  rewrite (sub_self X FX), (sub_self Y FY). vm_compute. reflexivity.
Qed.

Lemma C8_witness :
  calculate_size (mkPoint 400 300) (mkPoint 400 300) 495.698 1280 720 = OK (mkSize 0 0 0).
Proof.
  apply (C8_same_point_zero_size (mkPoint 400 300) 495.698 1280 720 k_1280_720
           ((400 - 671.244) * 495.698 / 991.396)%float
           ((300 - 371.286) * 495.698 / 991.628)%float);
    vm_compute; reflexivity.
Defined.

Lemma C8_counterexample :
  calculate_size (mkPoint 0 0) (mkPoint 0 0) 1e308 1280 720 = OK (mkSize nan nan nan) /\
  (0 <? 1e308)%float = true /\ is_finite 1e308 = true.
Proof. repeat split; vm_compute; reflexivity. Qed.

Lemma scaled_nonzero w h k :
  0 < w < 2 ^ 53 -> 0 < h < 2 ^ 53 -> get_scaled_intrinsics w h = OK k ->
  (fx k =? 0)%float = false /\ (fy k =? 0)%float = false.
Proof.
  intros Hw Hh G.
  rewrite (get_scaled_intrinsics_small w h (is_small_pos _ Hw) (is_small_pos _ Hh)) in G.
  injection G as <-. cbn [fx fy].
  destruct (fx_finite w Hw) as (vx & Px & _). destruct (fy_finite h Hh) as (vy & Py & _).
  split; [apply (pos_finite_facts _ _ Px)|apply (pos_finite_facts _ _ Py)].
Qed.




Lemma in_range_wide f : in_range f = true -> wide_range f = true.
Proof.
  destruct f as [s|s| |s m e]; try discriminate. cbn.
  rewrite !andb_true_iff, !Z.leb_le. lia.
Qed.


Lemma rounds_as_range s x s' m e :
  rounds_as s x (S754_finite s' m e) -> -1072 <= e <= 966 ->
  (bpow (-1022) <= x < bpow 1022)%R.
Proof.
  intros (m' & E & l & C & Ef) He.
  destruct (canonical_range _ _ _ _ C) as [U L].
  assert (HE : e - 1 <= E <= e).
  { revert Ef. unfold rounded.
    destruct (Z.eqb_spec (round_nearest_even m' l) 0); [discriminate|].
    destruct (Z.eqb_spec (round_nearest_even m' l) (2 ^ 53)).
    - destruct (Z.leb_spec (E + 1) 971); [|discriminate]. intros [= -> -> ->]. lia.
    - destruct (Z.leb_spec E 971); [|discriminate]. intros [= -> -> ->]. lia. }
  assert (bpow (-1022) <= bpow (E + 52))%R by (apply bpow_le; lia).
  assert (bpow (E + 53) <= bpow 1022)%R by (apply bpow_le; lia).
  assert (bpow (E + 52) <= x)%R by (apply L; lia).
  lra.
Qed.

Lemma double_by_rounding s x r g :
  rounds_as s x r -> wide_range r = true -> rounds_as s (2 * x) g -> g = scale2 r.
Proof.
  intros Hr R Hg. destruct r as [s'|s'| |s' m e]; try discriminate.
  cbn in R. rewrite andb_true_iff, !Z.leb_le in R. cbn [scale2].
  eapply rounds_as_unique; [exact Hg|]. apply rounds_as_double; [exact Hr|].
  eapply rounds_as_range; [exact Hr|lia].
Qed.

Lemma rounds_as_nonzero s x f :
  rounds_as s x f -> (bpow (-1074) <= x)%R -> SFzero f = false.
Proof.
  intros (m & E & l & C & ->) Hx. unfold rounded.
  pose proof (rne_bounds m l) as RB.
  destruct (Z.eqb_spec (round_nearest_even m l) 0) as [Z0|_].
  - exfalso. destruct C as (H & Hm & HE & Hc).
    assert (m = 0) by lia. subst m.
    destruct Hc as [->|]; [|lia].
    apply inbetween_bounds in H. lra.
  - destruct (_ =? _); destruct (_ <=? _); reflexivity.
Qed.




Lemma scale2_valid f :
  valid_binary f = true -> wide_range f = true -> valid_binary (scale2 f) = true.
Proof.
  destruct f as [s|s| |s m e]; try discriminate. intros V R.
  cbn in R. rewrite andb_true_iff, !Z.leb_le in R. cbn [scale2].
  apply valid_finite in V. apply valid_finite. rewrite fexp_eq in *. lia.
Qed.


Lemma SFmul_scale_l x y :
  valid_binary x = true -> valid_binary (scale2 x) = true -> valid_binary y = true ->
  SFzero x = true \/ wide_range (SFmul prec emax x y) = true ->
  SFmul prec emax (scale2 x) y = scale2 (SFmul prec emax x y).
Proof.
  intros Vx Vx' Vy Hx.
  destruct x as [sx|sx| |sx mx ex], y as [sy|sy| |sy my ey]; try reflexivity.
  destruct Hx as [Hx|Hx]; [discriminate|]. cbn [scale2] in *.
  apply (double_by_rounding (xorb sx sy)
           (IZR (Z.pos mx) * bpow ex * (IZR (Z.pos my) * bpow ey))%R).
  - apply SFmul_rounds_as; assumption.
  - exact Hx.
  - replace (2 * (IZR (Z.pos mx) * bpow ex * (IZR (Z.pos my) * bpow ey)))%R
      with (IZR (Z.pos mx) * bpow (ex + 1) * (IZR (Z.pos my) * bpow ey))%R
      by (rewrite double_value; ring).
    apply SFmul_rounds_as; assumption.
Qed.


Lemma normalize_zero z e :
  -1074 <= e -> SFzero (binary_normalize prec emax z e false) = true -> z = 0.
Proof.
  intros He H. destruct z as [|p|p]; [reflexivity| |]; exfalso; cbn [binary_normalize] in H.
  - rewrite (rounds_as_nonzero false (IZR (Z.pos p) * bpow e)) in H; [discriminate| |].
    + apply binary_round_rounds_as.
    + assert (1 <= IZR (Z.pos p))%R by (apply IZR_le; lia).
      assert (bpow (-1074) <= bpow e)%R by (apply bpow_le; lia).
      pose proof (bpow_pos (-1074)). nra.
  - rewrite (rounds_as_nonzero true (IZR (Z.pos p) * bpow e)) in H; [discriminate| |].
    + apply binary_round_rounds_as.
    + assert (1 <= IZR (Z.pos p))%R by (apply IZR_le; lia).
      assert (bpow (-1074) <= bpow e)%R by (apply bpow_le; lia).
      pose proof (bpow_pos (-1074)). nra.
Qed.

Lemma normalize_scale z e :
  -1074 <= e ->
  SFzero (binary_normalize prec emax z e false) = true \/
    wide_range (binary_normalize prec emax z e false) = true ->
  binary_normalize prec emax z (e + 1) false = scale2 (binary_normalize prec emax z e false).
Proof.
  intros He [H|H].
  - apply normalize_zero in H; [|exact He]. subst z. reflexivity.
  - destruct z as [|p|p]; [discriminate| |]; cbn [binary_normalize] in *.
    + apply (double_by_rounding false (IZR (Z.pos p) * bpow e)).
      * apply binary_round_rounds_as.
      * exact H.
      * rewrite <- double_value. apply binary_round_rounds_as.
    + apply (double_by_rounding true (IZR (Z.pos p) * bpow e)).
      * apply binary_round_rounds_as.
      * exact H.
      * rewrite <- double_value. apply binary_round_rounds_as.
Qed.

Lemma shl_align_shift m e1 e2 :
  fst (shl_align m (e1 + 1) (e2 + 1)) = fst (shl_align m e1 e2).
Proof.
  unfold shl_align. replace (e2 + 1 - (e1 + 1)) with (e2 - e1) by lia.
  destruct (e2 - e1); reflexivity.
Qed.

Lemma valid_exp s m e : valid_binary (S754_finite s m e) = true -> -1074 <= e.
Proof. intros V. apply valid_finite in V. rewrite fexp_eq in V. lia. Qed.

Lemma SFsub_scale x y :
  valid_binary x = true -> valid_binary y = true ->
  SFzero (SFsub prec emax x y) = true \/ wide_range (SFsub prec emax x y) = true ->
  SFsub prec emax (scale2 x) (scale2 y) = scale2 (SFsub prec emax x y).
Proof.
  intros Vx Vy H.
  destruct x as [[]|[]| |sx mx ex], y as [[]|[]| |sy my ey]; try reflexivity.
  apply valid_exp in Vx, Vy. cbn [SFsub scale2] in *.
  rewrite Z.add_min_distr_r, !shl_align_shift.
  apply normalize_scale; [lia|exact H].
Qed.





Lemma scales_cases a r :
  scales a r = true ->
  (SFzero (Prim2SF a) = true /\ SFzero (Prim2SF r) = true) \/ in_range (Prim2SF r) = true.
Proof.
  unfold scales. rewrite orb_true_iff, andb_true_iff. trivial.
Qed.

Lemma scales_wide a r :
  scales a r = true -> SFzero (Prim2SF a) = true \/ wide_range (Prim2SF r) = true.
Proof.
  intros H. destruct (scales_cases _ _ H) as [[H1 _]|H1]; [left; exact H1|].
  right. apply in_range_wide, H1.
Qed.

Lemma scales_result a r :
  scales a r = true -> SFzero (Prim2SF r) = true \/ in_range (Prim2SF r) = true.
Proof.
  intros H. destruct (scales_cases _ _ H) as [[_ H1]|H1]; [left|right]; exact H1.
Qed.

Lemma two_scale f :
  SFzero (Prim2SF f) = true \/ in_range (Prim2SF f) = true ->
  Prim2SF (2 * f) = scale2 (Prim2SF f).
Proof.
  intros H. rewrite mul_spec.
  change (Prim2SF 2) with (S754_finite false 4503599627370496 (-51)).
  pose proof (Prim2SF_valid f) as V.
  destruct (Prim2SF f) as [[]|s| |s m e];
    try (destruct H as [H|H]; discriminate H); try reflexivity.
  destruct H as [H|H]; [discriminate|].
  apply (double_by_rounding s (IZR (Z.pos m) * bpow e)).
  - apply rounds_as_exact, V.
  - apply in_range_wide, H.
  - replace (2 * (IZR (Z.pos m) * bpow e))%R
      with (IZR 4503599627370496 * bpow (-51) * (IZR (Z.pos m) * bpow e))%R.
    + apply (SFmul_rounds_as false _ _ s); [reflexivity|exact V].
    + assert (T : (IZR 4503599627370496 * bpow (-51) = 2)%R) by (bpow_num; lra).
      rewrite T. reflexivity.
Qed.

Lemma doubled f f' :
  Prim2SF f' = scale2 (Prim2SF f) ->
  SFzero (Prim2SF f) = true \/ in_range (Prim2SF f) = true ->
  f' = (2 * f)%float.
Proof.
  intros H R. apply Prim2SF_inj. rewrite H. symmetry. apply two_scale, R.
Qed.




Lemma sub_scale x y x' y' :
  Prim2SF x' = scale2 (Prim2SF x) -> Prim2SF y' = scale2 (Prim2SF y) ->
  scales (x - y) (x - y) = true ->
  Prim2SF (x' - y') = scale2 (Prim2SF (x - y)).
Proof.
  intros Hx Hy S. apply scales_result in S. rewrite sub_spec in S.
  rewrite !sub_spec, Hx, Hy.
  apply SFsub_scale; try apply Prim2SF_valid.
  destruct S as [S|S]; [left; exact S|right; apply in_range_wide, S].
Qed.





Lemma is_infinity_SF f :
  is_infinity f = match Prim2SF f with
                  | S754_infinity _ => true
                  | _ => false
                  end.
Proof.
  unfold is_infinity. rewrite eqb_spec, abs_spec.
  change (Prim2SF infinity) with (S754_infinity false).
  destruct (Prim2SF f) as [s|s| |s m e]; try (destruct s; reflexivity); reflexivity.
Qed.







(** ** Further behaviour of the two routes *)
Lemma int_truediv_raise a b e :
  b <> 0 -> int_truediv a b = Raise e -> e = OverflowError.
Proof.
  intros Hb. unfold int_truediv. destruct (Z.eqb_spec b 0); [contradiction|].
  destruct (is_small a && is_small b); [discriminate|].
  destruct (is_infinity (Z_quotient a b)); [|discriminate]. intros [= <-]. reflexivity.
Qed.

Lemma scaler_raise w h e : get_scaled_intrinsics w h = Raise e -> e = OverflowError.
Proof.
  unfold get_scaled_intrinsics.
  destruct (int_truediv w CALIB_W) as [sx|e1] eqn:E1; cbn [bind].
  - destruct (int_truediv h CALIB_H) as [sy|e2] eqn:E2; cbn [bind]; [discriminate|].
    intros [= <-]. apply (int_truediv_raise h CALIB_H); [discriminate|exact E2].
  - intros [= <-]. apply (int_truediv_raise w CALIB_W); [discriminate|exact E1].
Qed.

Lemma stereo_after_scaler pl pr w h k :
  get_scaled_intrinsics w h = OK k -> exists r, calculate_stereo pl pr w h = OK r.
Proof.
  intros G. destruct (disparity_of pl pr <? 1)%float eqn:D.
  - eexists. eapply stereo_small; eassumption.
  - eexists. eapply stereo_large; eassumption.
Qed.

Lemma stereo_raise_scaler pl pr w h e :
  calculate_stereo pl pr w h = Raise e -> get_scaled_intrinsics w h = Raise e.
Proof.
  intros H. destruct (get_scaled_intrinsics w h) as [k|e'] eqn:G.
  - destruct (stereo_after_scaler pl pr w h k G) as [r R]. congruence.
  - unfold calculate_stereo in H. rewrite G in H. cbn [bind] in H. congruence.
Qed.

(** X1.  The depth route does not care which click is called left and which
    right: exchanging the two points gives the same outcome. *)
Theorem stereo_swap_clicks :
  forall p_left p_right img_w img_h,
    calculate_stereo p_left p_right img_w img_h
    = calculate_stereo p_right p_left img_w img_h.
Proof.
  intros pl pr w h. unfold calculate_stereo, disparity_of.
  rewrite (abs_sub_swap (px pl) (px pr)). reflexivity.
Qed.

(** X2.  The only exception the depth route can raise is the OverflowError
    of the scaler's integer division: the guard on the disparity keeps the
    division of line 60 away from a zero divisor. *)
Theorem stereo_only_overflow :
  forall p_left p_right img_w img_h e,
    calculate_stereo p_left p_right img_w img_h = Raise e ->
    e = OverflowError /\ get_scaled_intrinsics img_w img_h = Raise OverflowError.
Proof.
  intros pl pr w h e H. apply stereo_raise_scaler in H.
  pose proof (scaler_raise _ _ _ H) as ->. split; [reflexivity|exact H].
Qed.

Lemma stereo_only_overflow_witness :
  calculate_stereo (mkPoint 400 300) (mkPoint 380 300) (1280 * 2 ^ 1024) 720
    = Raise OverflowError /\
  OverflowError = OverflowError /\
  get_scaled_intrinsics (1280 * 2 ^ 1024) 720 = Raise OverflowError.
Proof.
  split; [vm_compute; reflexivity|].
  apply (stereo_only_overflow (mkPoint 400 300) (mkPoint 380 300) (1280 * 2 ^ 1024) 720).
  vm_compute; reflexivity.
Defined.

(** X3.  For image dimensions of magnitude below [2^53], zero and negative
    ones included, the depth route always returns a payload, whatever the
    two points are. *)
Theorem stereo_returns_small_dims :
  forall p_left p_right img_w img_h,
    Z.abs img_w < 2 ^ 53 -> Z.abs img_h < 2 ^ 53 ->
    exists r, calculate_stereo p_left p_right img_w img_h = OK r.
Proof.
  intros pl pr w h Hw Hh. eapply stereo_after_scaler.
  apply get_scaled_intrinsics_small; unfold is_small; apply Z.ltb_lt; assumption.
Qed.

Lemma stereo_returns_small_dims_witness :
  exists r, calculate_stereo (mkPoint nan 0) (mkPoint 3 0) (-5) 0 = OK r.
Proof.
  apply (stereo_returns_small_dims (mkPoint nan 0) (mkPoint 3 0) (-5) 0); reflexivity.
Defined.

(** X4.  The image height plays no part in the depth: two heights of
    magnitude below [2^53] give the same outcome. *)
Theorem stereo_height_irrelevant :
  forall p_left p_right img_w h1 h2,
    Z.abs img_w < 2 ^ 53 -> Z.abs h1 < 2 ^ 53 -> Z.abs h2 < 2 ^ 53 ->
    calculate_stereo p_left p_right img_w h1 = calculate_stereo p_left p_right img_w h2.
Proof.
  intros pl pr w h1 h2 Hw H1 H2. unfold calculate_stereo.
  rewrite !get_scaled_intrinsics_small by (unfold is_small; apply Z.ltb_lt; assumption).
  reflexivity.
Qed.

Lemma stereo_height_irrelevant_witness :
  calculate_stereo (mkPoint 400 300) (mkPoint 380 300) 1280 720
  = calculate_stereo (mkPoint 400 300) (mkPoint 380 300) 1280 1.
Proof.
  apply (stereo_height_irrelevant (mkPoint 400 300) (mkPoint 380 300) 1280 720 1);
    reflexivity.
Defined.

(** X5.  Two clicks in the same pixel column, at any finite abscissa, are
    answered with the DisparityTooSmall payload. *)
Theorem stereo_same_column :
  forall p_left p_right img_w img_h k,
    get_scaled_intrinsics img_w img_h = OK k ->
    px p_left = px p_right -> is_finite (px p_left) = true ->
    calculate_stereo p_left p_right img_w img_h = OK DisparityTooSmall.
Proof.
  intros pl pr w h k G E F. apply (stereo_small _ _ _ _ k G).
  unfold disparity_of. rewrite <- E, (sub_self _ F). reflexivity.
Qed.

Lemma stereo_same_column_witness :
  calculate_stereo (mkPoint 400 300) (mkPoint 400 10) 1280 720 = OK DisparityTooSmall.
Proof.
  apply (stereo_same_column (mkPoint 400 300) (mkPoint 400 10) 1280 720 k_1280_720);
    reflexivity.
Defined.

Lemma is_nan_SF f : is_nan f = true -> Prim2SF f = S754_nan.
Proof.
  unfold is_nan. rewrite negb_true_iff, eqb_spec.
  destruct (Prim2SF f) as [[]|[]| |s m e]; try discriminate; try reflexivity.
  unfold SFeqb. rewrite SFcompare_refl. discriminate.
Qed.

Lemma nan_SF f : Prim2SF f = S754_nan -> f = nan.
Proof. intros H. apply Prim2SF_inj. rewrite H. reflexivity. Qed.

Lemma disparity_nan pl pr :
  is_nan (px pl) = true \/ is_nan (px pr) = true -> disparity_of pl pr = nan.
Proof.
  intros H. apply nan_SF. unfold disparity_of. rewrite abs_spec, sub_spec.
  destruct H as [H|H]; apply is_nan_SF in H; rewrite H.
  - reflexivity.
  - destruct (Prim2SF (px pl)) as [[]|[]| |s m e]; reflexivity.
Qed.

(** X6.  A NaN abscissa is not caught by the disparity guard: as soon as the
    scaler has returned, the depth route answers with a NaN depth and a NaN
    disparity instead of the error payload. *)
Theorem stereo_nan_click :
  forall p_left p_right img_w img_h k,
    get_scaled_intrinsics img_w img_h = OK k ->
    is_nan (px p_left) = true \/ is_nan (px p_right) = true ->
    calculate_stereo p_left p_right img_w img_h = OK (StereoResult nan nan).
Proof.
  intros pl pr w h k G H. apply disparity_nan in H.
  rewrite (stereo_large pl pr w h k G); rewrite H; [|reflexivity].
  replace (fx k * BASELINE / nan)%float with nan; [reflexivity|].
  symmetry. apply nan_SF. rewrite div_spec. change (Prim2SF nan) with S754_nan.
  destruct (Prim2SF (fx k * BASELINE)) as [[]|[]| |s m e]; reflexivity.
Qed.

Lemma stereo_nan_click_witness :
  calculate_stereo (mkPoint nan 300) (mkPoint 380 300) 1280 720
    = OK (StereoResult nan nan).
Proof.
  apply (stereo_nan_click (mkPoint nan 300) (mkPoint 380 300) 1280 720 k_1280_720).
  - reflexivity.
  - left. reflexivity.
Defined.

Lemma pos_finite_leb a va b vb :
  pos_finite a va -> pos_finite b vb ->
  SFleb (Prim2SF a) (Prim2SF b) = true -> (va <= vb)%R.
Proof.
  intros (ma & ea & Ea & ->) (mb & eb & Eb & ->) H. rewrite Ea, Eb in H.
  apply SFleb_val; [eapply pos_finite_valid; eassumption..|exact H].
Qed.

Lemma pos_finite_exact a va : pos_finite a va -> rounds_to va (Prim2SF a).
Proof.
  intros (ma & ea & Ea & ->). rewrite Ea. apply rounds_to_exact.
  eapply pos_finite_valid; eassumption.
Qed.

Lemma scaler_fx w h k :
  is_small w = true -> get_scaled_intrinsics w h = OK k ->
  fx k = (ORIG_FX * (float_of_Z w / float_of_Z CALIB_W))%float /\
  cx k = (ORIG_CX * (float_of_Z w / float_of_Z CALIB_W))%float.
Proof.
  intros Hw. unfold get_scaled_intrinsics.
  rewrite (int_truediv_small w CALIB_W Hw) by (reflexivity || discriminate).
  cbn [bind]. destruct (int_truediv h CALIB_H); cbn [bind]; [|discriminate].
  intros [= <-]. split; reflexivity.
Qed.

(** X7.  The depth of line 60 never exceeds [fx * BASELINE], the depth of a
    one-pixel disparity: for a width from 1 to [2^53 - 1] and a finite
    disparity of at least 1.0 the division returns a depth at most
    [fx * BASELINE]. *)
Theorem stereo_depth_bounded :
  forall img_w img_h k d,
    0 < img_w < 2 ^ 53 -> get_scaled_intrinsics img_w img_h = OK k ->
    (1 <=? d)%float = true -> is_finite d = true ->
    exists z, calculated_Z (fx k) d = OK z /\ (z <=? fx k * BASELINE)%float = true.
Proof.
  intros w h k d Hw G Hd Fd.
  destruct (scaler_fx w h k (is_small_pos _ Hw) G) as [Efx _].
  destruct (fx_finite w Hw) as (vf & Pf & Bf). rewrite <- Efx in Pf.
  destruct (calculated_Z_finite _ _ d Pf Bf Hd Fd) as (z & Ez & -> & _).
  exists (fx k * BASELINE / d)%float. split; [exact Ez|].
  destruct const_finite_10 as (vb & Pb & Bb).
  destruct (mul_bounds _ _ _ _ (-2) 53 3 4 Pf Pb Bf Bb ltac:(lia) ltac:(lia))
    as (vn & Pn & Bn).
  destruct (disparity_ge_1 d Hd Fd) as (vd & Pd & Bd).
  rewrite leb_spec. apply (rounds_to_mono (vn / vd) vn).
  - apply div_rounds; assumption.
  - apply pos_finite_exact, Pn.
  - pose proof (pos_finite_pos _ _ Pn) as Hn. revert Bd. bpow_num. intros Bd.
    apply Rmult_le_reg_r with vd; [lra|].
    unfold Rdiv. rewrite Rmult_assoc, Rinv_l by lra. nra.
Qed.

Lemma stereo_depth_bounded_witness :
  exists z, calculated_Z (fx k_1280_720) 20 = OK z /\
            (z <=? fx k_1280_720 * BASELINE)%float = true.
Proof.
  apply (stereo_depth_bounded 1280 720 k_1280_720 20); try reflexivity. lia.
Defined.

Lemma float_pow2_raise a e : float_pow2 a = Raise e -> e = OverflowError.
Proof.
  unfold float_pow2. destruct (is_infinity (a * a) && is_finite a); [|discriminate].
  intros [= <-]. reflexivity.
Qed.

Lemma measure_raise p1 p2 Zd k e :
  measure p1 p2 Zd k = Raise e ->
  (e = ZeroDivisionError /\ ((fx k =? 0)%float = true \/ (fy k =? 0)%float = true)) \/
  (e = OverflowError /\ (fx k =? 0)%float = false /\ (fy k =? 0)%float = false).
Proof.
  unfold measure, back_project, float_truediv.
  destruct (fx k =? 0)%float; cbn [bind]; [intros [= <-]; left; auto|].
  destruct (fy k =? 0)%float; cbn [bind]; [intros [= <-]; left; auto|].
  destruct (float_pow2 _) as [dx2|ex] eqn:Px; cbn [bind];
    [|intros [= <-]; right; apply float_pow2_raise in Px; auto].
  destruct (float_pow2 _) as [dy2|ey] eqn:Py in |- *; cbn [bind];
    [|intros [= <-]; right; apply float_pow2_raise in Py; auto].
  rewrite (math_sqrt_squares _ _ _ _ Px Py). cbn [bind]. discriminate.
Qed.

Lemma measure_zero_focal p1 p2 Zd k :
  (fx k =? 0)%float = true \/ (fy k =? 0)%float = true ->
  measure p1 p2 Zd k = Raise ZeroDivisionError.
Proof.
  unfold measure, back_project, float_truediv. intros [H|H].
  - rewrite H. reflexivity.
  - rewrite H. destruct (fx k =? 0)%float; reflexivity.
Qed.

Lemma size_raise p1 p2 Zd w h e :
  calculate_size p1 p2 Zd w h = Raise e ->
  get_scaled_intrinsics w h = Raise e \/
  exists k, get_scaled_intrinsics w h = OK k /\ measure p1 p2 Zd k = Raise e.
Proof.
  unfold calculate_size. destruct (get_scaled_intrinsics w h) as [k|e0]; cbn [bind].
  - destruct (measure p1 p2 Zd k) as [[[s dx] dy]|e1] eqn:M; cbn [bind]; [discriminate|].
    intros [= <-]. right. exists k. split; [reflexivity|exact M].
  - intros [= <-]. left. reflexivity.
Qed.

(** X8.  For image dimensions from 0 to [2^53 - 1] the size route raises
    ZeroDivisionError exactly when the width or the height is 0: a zero
    dimension scales a focal length to 0.0, by which line 84 or 85 divides. *)
Theorem size_zero_division_iff :
  forall p1 p2 Zd img_w img_h,
    0 <= img_w < 2 ^ 53 -> 0 <= img_h < 2 ^ 53 ->
    (calculate_size p1 p2 Zd img_w img_h = Raise ZeroDivisionError <->
     img_w = 0 \/ img_h = 0).
Proof.
  intros p1 p2 Zd w h Hw Hh.
  assert (Sw : is_small w = true) by (unfold is_small; apply Z.ltb_lt; lia).
  assert (Sh : is_small h = true) by (unfold is_small; apply Z.ltb_lt; lia).
  pose proof (get_scaled_intrinsics_small w h Sw Sh) as G. split.
  - intros H. destruct (Z.eq_dec w 0) as [|Nw]; [left; assumption|].
    destruct (Z.eq_dec h 0) as [|Nh]; [right; assumption|]. exfalso.
    apply size_raise in H. destruct H as [H|(k & Gk & H)]; [congruence|].
    destruct (scaled_nonzero w h k ltac:(lia) ltac:(lia) Gk) as [Fx Fy].
    apply measure_raise in H. destruct H as [[_ [H|H]]|[H _]]; congruence.
  - intros H. unfold calculate_size. rewrite G. cbn [bind].
    rewrite measure_zero_focal; [reflexivity|]. cbn [fx fy].
    destruct H as [-> | ->]; [left|right]; vm_compute; reflexivity.
Qed.

Lemma size_zero_division_iff_witness :
  calculate_size (mkPoint 400 300) (mkPoint 450 310) 495.698 1280 0
    = Raise ZeroDivisionError <-> 1280 = 0 \/ 0 = 0.
Proof.
  apply (size_zero_division_iff (mkPoint 400 300) (mkPoint 450 310) 495.698 1280 0); lia.
Defined.

(** X9.  The size route never raises ValueError: the argument of
    [math.sqrt] is a sum of two squares.  Every exception it raises is an
    OverflowError or a ZeroDivisionError. *)
Theorem size_raises_only :
  forall p1 p2 Zd img_w img_h e,
    calculate_size p1 p2 Zd img_w img_h = Raise e ->
    e = OverflowError \/ e = ZeroDivisionError.
Proof.
  intros p1 p2 Zd w h e H. apply size_raise in H. destruct H as [H|(k & _ & H)].
  - left. eapply scaler_raise, H.
  - apply measure_raise in H. destruct H as [[-> _]|[-> _]]; auto.
Qed.

Lemma size_raises_only_witness :
  calculate_size (mkPoint 0 0) (mkPoint 1e200 0) 1 1280 720 = Raise OverflowError /\
  (OverflowError = OverflowError \/ OverflowError = ZeroDivisionError).
Proof.
  split; [vm_compute; reflexivity|].
  apply (size_raises_only (mkPoint 0 0) (mkPoint 1e200 0) 1 1280 720).
  vm_compute; reflexivity.
Defined.

(** ** Signs of the rounded payload *)
Lemma Z_quotient_pos a b :
  Prim2SF (Z_quotient (Z.pos a) (Z.pos b))
  = SFdiv prec emax (S754_finite false a 0) (S754_finite false b 0).
Proof.
  unfold Z_quotient, SF64round. cbn [Z.ltb Z.compare xorb Z.abs].
  apply Prim2SF_SF2Prim. apply (rounds_to_valid _ _ (SFdiv_rounds_to a 0 b 0)).
Qed.

Lemma Z_quotient_nonneg a b :
  0 <= a -> 0 < b -> nonneg_or_nan (Prim2SF (Z_quotient a b)) = true.
Proof.
  intros Ha Hb. destruct b as [|b|b]; try lia. destruct a as [|a|a]; try lia.
  - reflexivity.
  - rewrite Z_quotient_pos. cbn [SFdiv xorb].
    destruct (SFdiv_core_binary prec emax (Z.pos a) 0 (Z.pos b) 0) as [[q e] l].
    apply round_aux_sign.
Qed.

Lemma Z_round_half_even_nonneg n d : 0 <= n -> 0 < d -> 0 <= Z_round_half_even n d.
Proof.
  intros Hn Hd. unfold Z_round_half_even.
  assert (0 <= n / d) by (apply Z.div_pos; lia).
  destruct (2 * (n mod d) ?= d); [destruct (Z.even (n / d))| |]; lia.
Qed.

Lemma round_nonneg x n :
  0 <= n -> nonneg_or_nan (Prim2SF x) = true -> nonneg_or_nan (Prim2SF (round x n)) = true.
Proof.
  intros Hn H. unfold round. destruct (Prim2SF x) as [s|s| |s m e] eqn:E;
    try (rewrite E; exact H).
  destruct s; [discriminate|].
  assert (Hp : 0 < 10 ^ n) by (apply Z.pow_pos_nonneg; lia).
  apply Z_quotient_nonneg; [|exact Hp].
  destruct (Z.leb_spec 0 e).
  - assert (0 < 2 ^ e) by (apply Z.pow_pos_nonneg; lia). nia.
  - apply Z_round_half_even_nonneg; [nia|]. apply Z.pow_pos_nonneg; lia.
Qed.

Lemma abs_nonneg x : nonneg_or_nan (Prim2SF (PrimFloat.abs x)) = true.
Proof. rewrite abs_spec. destruct (Prim2SF x) as [s|s| |s m e]; reflexivity. Qed.

Lemma sqrt_nonneg x :
  nonneg_or_nan (Prim2SF x) = true -> nonneg_or_nan (Prim2SF (PrimFloat.sqrt x)) = true.
Proof.
  rewrite sqrt_spec. destruct (Prim2SF x) as [[]|[]| |[] m e]; try discriminate;
    try reflexivity.
  intros _. cbn [SF64sqrt SFsqrt]. unfold SF64sqrt. cbn [SFsqrt].
  destruct (SFsqrt_core_binary prec emax (Z.pos m) e) as [[q e'] l].
  apply round_aux_sign.
Qed.

Lemma measure_size_nonneg p1 p2 Zd k s dx dy :
  measure p1 p2 Zd k = OK (s, dx, dy) -> nonneg_or_nan (Prim2SF s) = true.
Proof.
  unfold measure, back_project, float_truediv.
  destruct (fx k =? 0)%float; cbn [bind]; [discriminate|].
  destruct (fy k =? 0)%float; cbn [bind]; [discriminate|].
  destruct (float_pow2 _) as [dx2|ex] eqn:Px; cbn [bind]; [|discriminate].
  destruct (float_pow2 _) as [dy2|ey] eqn:Py in |- *; cbn [bind]; [|discriminate].
  rewrite (math_sqrt_squares _ _ _ _ Px Py). cbn [bind]. intros [= <- _ _].
  apply float_pow2_OK in Px, Py. subst dx2 dy2.
  apply sqrt_nonneg. rewrite add_spec, !mul_spec.
  apply SFadd_sign; apply SFmul_self_sign.
Qed.

Lemma nonneg_ltb x : nonneg_or_nan (Prim2SF x) = true -> (x <? 0)%float = false.
Proof.
  intros H. rewrite ltb_spec. change (Prim2SF 0) with (S754_zero false).
  apply nonneg_not_lt0, H.
Qed.

(** X10.  No field of the size payload is ever negative: whenever the size
    route returns, [size_cm], [dX] and [dY] are each not below zero (a NaN
    or a nonnegative number). *)
Theorem size_payload_nonnegative :
  forall p1 p2 Zd img_w img_h r,
    calculate_size p1 p2 Zd img_w img_h = OK r ->
    (size_cm r <? 0)%float = false /\ (dX r <? 0)%float = false /\
    (dY r <? 0)%float = false.
Proof.
  intros p1 p2 Zd w h r. unfold calculate_size.
  destruct (get_scaled_intrinsics w h) as [k|e0]; cbn [bind]; [|discriminate].
  destruct (measure p1 p2 Zd k) as [[[s dx] dy]|e1] eqn:M; cbn [bind]; [|discriminate].
  intros [= <-]. cbn [size_cm dX dY]. apply measure_size_nonneg in M.
  repeat split; apply nonneg_ltb, round_nonneg; try lia;
    [exact M|apply abs_nonneg..].
Qed.

Lemma size_payload_nonnegative_witness :
  (size_cm (mkSize 5.0434 5.0434 0) <? 0)%float = false /\
  (dX (mkSize 5.0434 5.0434 0) <? 0)%float = false /\
  (dY (mkSize 5.0434 5.0434 0) <? 0)%float = false.
Proof.
  apply (size_payload_nonnegative (mkPoint 450 300) (mkPoint 400 300) 100 1280 720).
  vm_compute; reflexivity.
Defined.

(** ** Depth zero *)
Lemma back_project_zero a f :
  is_finite a = true -> (f =? 0)%float = false -> is_finite f = true ->
  SFzero (Prim2SF (a * 0 / f)) = true.
Proof.
  rewrite !is_finite_SF, eqb_spec, div_spec, mul_spec.
  change (Prim2SF 0) with (S754_zero false).
  destruct (Prim2SF a) as [sa|sa| |sa ma ea]; try discriminate;
    destruct (Prim2SF f) as [sf|sf| |sf mf ef]; try discriminate;
    intros _ _ _; try reflexivity;
    try (destruct sf; discriminate).
Qed.

Lemma sub_zero x y :
  SFzero (Prim2SF x) = true -> SFzero (Prim2SF y) = true ->
  SFzero (Prim2SF (x - y)) = true.
Proof.
  rewrite sub_spec. destruct (Prim2SF x) as [[]| | |], (Prim2SF y) as [[]| | |];
    try discriminate; reflexivity.
Qed.

Lemma zero_SF x : Prim2SF x = S754_zero false -> x = 0%float.
Proof. intros H. apply Prim2SF_inj. rewrite H. reflexivity. Qed.

Lemma sq_zero d : SFzero (Prim2SF d) = true -> (d * d)%float = 0%float.
Proof.
  intros H. apply zero_SF. rewrite mul_spec.
  destruct (Prim2SF d) as [[]| | |]; try discriminate; reflexivity.
Qed.

Lemma abs_zero d : SFzero (Prim2SF d) = true -> PrimFloat.abs d = 0%float.
Proof.
  intros H. apply zero_SF. rewrite abs_spec.
  destruct (Prim2SF d) as [[]| | |]; try discriminate; reflexivity.
Qed.

(** X11.  At depth 0.0 every measurement collapses: for image dimensions
    from 1 to [2^53 - 1] and points whose centred coordinates are finite,
    the size route returns size 0.0 and dX = dY = 0.0. *)
Theorem size_zero_depth :
  forall p1 p2 img_w img_h k,
    0 < img_w < 2 ^ 53 -> 0 < img_h < 2 ^ 53 ->
    get_scaled_intrinsics img_w img_h = OK k ->
    is_finite (px p1 - cx k) = true -> is_finite (py p1 - cy k) = true ->
    is_finite (px p2 - cx k) = true -> is_finite (py p2 - cy k) = true ->
    calculate_size p1 p2 0 img_w img_h = OK (mkSize 0 0 0).
Proof.
  intros p1 p2 w h k Hw Hh G F1 F2 F3 F4.
  destruct (scaled_nonzero w h k Hw Hh G) as [Nx Ny].
  assert (Fx : is_finite (fx k) = true /\ is_finite (fy k) = true).
  { rewrite (get_scaled_intrinsics_small w h (is_small_pos _ Hw) (is_small_pos _ Hh)) in G.
    injection G as <-. cbn [fx fy].
    destruct (fx_finite w Hw) as (vx & Px & _). destruct (fy_finite h Hh) as (vy & Py & _).
    split; [apply (pos_finite_facts _ _ Px)|apply (pos_finite_facts _ _ Py)]. }
  destruct Fx as [Fx Fy].
  pose proof (back_project_zero _ _ F1 Nx Fx) as Z1.
  pose proof (back_project_zero _ _ F2 Ny Fy) as Z2.
  pose proof (back_project_zero _ _ F3 Nx Fx) as Z3.
  pose proof (back_project_zero _ _ F4 Ny Fy) as Z4.
  pose proof (sub_zero _ _ Z3 Z1) as Zx. pose proof (sub_zero _ _ Z4 Z2) as Zy.
  unfold calculate_size. rewrite G. cbn [bind].
  unfold measure, back_project, float_truediv. rewrite Nx, Ny. cbn [bind].
  unfold float_pow2. rewrite (sq_zero _ Zx), (sq_zero _ Zy).
  change (is_infinity 0) with false. cbn [andb bind].
  change (math_sqrt (0 + 0)) with (OK 0%float). cbn [bind].
  rewrite (abs_zero _ Zx), (abs_zero _ Zy). reflexivity.
Qed.

Lemma size_zero_depth_witness :
  calculate_size (mkPoint 400 300) (mkPoint 450 310) 0 1280 720 = OK (mkSize 0 0 0).
Proof.
  apply (size_zero_depth (mkPoint 400 300) (mkPoint 450 310) 1280 720 k_1280_720);
    try reflexivity; lia.
Defined.

(** ** The scaler in the image dimensions *)
Lemma scale_mono c vc D vD w1 w2 :
  pos_finite c vc -> (bpow 8 <= vc <= bpow 10)%R ->
  pos_finite (float_of_Z D) vD -> (bpow 9 <= vD <= bpow 11)%R ->
  0 < w1 -> w1 <= w2 -> w2 < 2 ^ 53 ->
  (c * (float_of_Z w1 / float_of_Z D) <=? c * (float_of_Z w2 / float_of_Z D))%float = true.
Proof.
  intros Pc Bc PD BD H1 H12 H2.
  destruct (float_of_Z_finite w1 ltac:(lia)) as (v1 & P1 & B1).
  destruct (float_of_Z_finite w2 ltac:(lia)) as (v2 & P2 & B2).
  assert (L0 : (v1 <= v2)%R).
  { apply (pos_finite_leb _ _ _ _ P1 P2).
    apply (rounds_to_mono (IZR w1) (IZR w2)); try (apply float_of_Z_rounds; lia).
    apply IZR_le. exact H12. }
  destruct (div_bounds _ _ _ _ 0 53 9 11 P1 PD B1 BD ltac:(lia) ltac:(lia)) as (q1 & Q1 & _).
  destruct (div_bounds _ _ _ _ 0 53 9 11 P2 PD B2 BD ltac:(lia) ltac:(lia)) as (q2 & Q2 & _).
  pose proof (pos_finite_pos _ _ PD) as HD. pose proof (pos_finite_pos _ _ Pc) as Hc.
  assert (L1 : (q1 <= q2)%R).
  { apply (pos_finite_leb _ _ _ _ Q1 Q2).
    apply (rounds_to_mono (v1 / vD) (v2 / vD)); try (apply div_rounds; assumption).
    unfold Rdiv. apply Rmult_le_compat_r; [|exact L0].
    apply Rlt_le, Rinv_0_lt_compat, HD. }
  rewrite leb_spec.
  apply (rounds_to_mono (vc * q1) (vc * q2)); try (apply mul_rounds; assumption).
  apply Rmult_le_compat_l; lra.
Qed.

Lemma ORIG_CY_finite : exists v, pos_finite ORIG_CY v /\ (bpow 8 <= v <= bpow 10)%R.
Proof.
  eapply const_finite; [vm_compute; reflexivity|]. bpow_num. split; lra.
Qed.

Lemma widen_8 v : (bpow 9 <= v <= bpow 10)%R -> (bpow 8 <= v <= bpow 10)%R.
Proof. intros H. assert (bpow 8 <= bpow 9)%R by (apply bpow_le; lia). lra. Qed.

Lemma widen_11 v : (bpow 9 <= v <= bpow 10)%R -> (bpow 9 <= v <= bpow 11)%R.
Proof. intros H. assert (bpow 10 <= bpow 11)%R by (apply bpow_le; lia). lra. Qed.

Lemma widen_9 v : (bpow 10 <= v <= bpow 11)%R -> (bpow 9 <= v <= bpow 11)%R.
Proof. intros H. assert (bpow 9 <= bpow 10)%R by (apply bpow_le; lia). lra. Qed.

(** X12.  The scaled intrinsics grow with the image: for dimensions from 1
    to [2^53 - 1], a width at least as large gives [fx] and [cx] at least as
    large, and a height at least as large gives [fy] and [cy] at least as
    large. *)
Theorem scaler_monotone :
  forall w1 h1 w2 h2,
    0 < w1 -> w1 <= w2 -> w2 < 2 ^ 53 -> 0 < h1 -> h1 <= h2 -> h2 < 2 ^ 53 ->
    exists k1 k2,
      get_scaled_intrinsics w1 h1 = OK k1 /\ get_scaled_intrinsics w2 h2 = OK k2 /\
      (fx k1 <=? fx k2)%float = true /\ (fy k1 <=? fy k2)%float = true /\
      (cx k1 <=? cx k2)%float = true /\ (cy k1 <=? cy k2)%float = true.
Proof.
  intros w1 h1 w2 h2 Hw1 Hw Hw2 Hh1 Hh Hh2.
  rewrite !get_scaled_intrinsics_small by (apply is_small_pos; lia).
  eexists _, _. split; [reflexivity|]. split; [reflexivity|]. cbn [fx fy cx cy].
  destruct ORIG_FX_finite as (vfx & Pfx & Bfx). destruct ORIG_FY_finite as (vfy & Pfy & Bfy).
  destruct ORIG_CX_finite as (vcx & Pcx & Bcx). destruct ORIG_CY_finite as (vcy & Pcy & Bcy).
  destruct const_finite_1280 as (vW & PW & BW). destruct const_finite_720 as (vH & PH & BH).
  apply widen_8 in Bfx, Bfy, Bcx. apply widen_9 in BW. apply widen_11 in BH.
  repeat split; eapply scale_mono; eassumption.
Qed.

Lemma scaler_monotone_witness :
  exists k1 k2,
    get_scaled_intrinsics 640 360 = OK k1 /\ get_scaled_intrinsics 1280 720 = OK k2 /\
    (fx k1 <=? fx k2)%float = true /\ (fy k1 <=? fy k2)%float = true /\
    (cx k1 <=? cx k2)%float = true /\ (cy k1 <=? cy k2)%float = true.
Proof. apply (scaler_monotone 640 360 1280 720); lia. Defined.

Lemma scaled_double_by c vc D vD w :
  pos_finite c vc -> (bpow 8 <= vc <= bpow 10)%R ->
  pos_finite (float_of_Z D) vD -> (bpow 9 <= vD <= bpow 11)%R ->
  0 < w < 2 ^ 52 ->
  (c * (float_of_Z (2 * w) / float_of_Z D)
   = 2 * (c * (float_of_Z w / float_of_Z D)))%float.
Proof.
  intros Pc Bc P0 B0 Hw.
  destruct (float_of_Z_finite w ltac:(lia)) as (vw & Pw & Bw).
  destruct (div_bounds _ _ _ _ 0 53 9 11 Pw P0 Bw B0 ltac:(lia) ltac:(lia)) as (vq & Pq & Bq).
  destruct (mul_bounds _ _ _ _ 8 10 (0 - 11) (53 - 9) Pc Pq Bc Bq ltac:(lia) ltac:(lia))
    as (vr & Pr & Br).
  pose proof (Rdiv_pow_bounds _ _ _ _ _ _ Bw B0) as Xq.
  destruct Pw as (mw & ew & Ew & ->).
  pose proof (float_of_Z_double w mw ew Hw Ew) as E2w.
  destruct Pq as (mq & xq & Hq & ->).
  assert (L1 : (bpow (-1022) <= bpow (0 - 11))%R) by (apply bpow_le; lia).
  assert (U1 : (bpow (53 - 9) < bpow 1022)%R) by (apply bpow_lt; lia).
  assert (L2 : (bpow (-1022) <= bpow (8 + (0 - 11)))%R) by (apply bpow_le; lia).
  assert (U2 : (bpow (10 + (53 - 9)) < bpow 1022)%R) by (apply bpow_lt; lia).
  assert (Xq' : (bpow (-1022) <= IZR (Z.pos mw) * bpow ew / vD < bpow 1022)%R) by lra.
  pose proof (div_double _ _ _ _ mw ew mq xq P0 Ew E2w Hq Xq') as Hq2.
  pose proof (Rmul_pow_bounds _ _ _ _ _ _ Bc Bq) as Xr.
  destruct Pr as (mr & er & Er & ->).
  assert (Xr' : (bpow (-1022) <= vc * (IZR (Z.pos mq) * bpow xq) < bpow 1022)%R) by lra.
  pose proof (mul_double _ _ _ _ mq xq mr er Pc Hq Hq2 Er Xr') as Er2.
  apply Prim2SF_inj. rewrite Er2. symmetry. apply two_mul; [exact Er|lra].
Qed.

(** X13.  Doubling the image height doubles [fy] and [cy] exactly and leaves
    [fx] and [cx] unchanged, for a width from 1 to [2^53 - 1] and a height
    from 1 to [2^52 - 1]. *)
Theorem scaler_double_height :
  forall img_w img_h,
    0 < img_w < 2 ^ 53 -> 0 < img_h < 2 ^ 52 ->
    exists k k2,
      get_scaled_intrinsics img_w img_h = OK k /\
      get_scaled_intrinsics img_w (2 * img_h) = OK k2 /\
      fy k2 = (2 * fy k)%float /\ cy k2 = (2 * cy k)%float /\
      fx k2 = fx k /\ cx k2 = cx k.
Proof.
  intros w h Hw Hh.
  rewrite !get_scaled_intrinsics_small by (apply is_small_pos; lia).
  eexists _, _. split; [reflexivity|]. split; [reflexivity|]. cbn [fx fy cx cy].
  destruct ORIG_FY_finite as (vfy & Pfy & Bfy). destruct ORIG_CY_finite as (vcy & Pcy & Bcy).
  destruct const_finite_720 as (vH & PH & BH).
  apply widen_8 in Bfy. apply widen_11 in BH.
  repeat split; eapply scaled_double_by; eassumption.
Qed.

Lemma scaler_double_height_witness :
  exists k k2,
    get_scaled_intrinsics 1280 720 = OK k /\
    get_scaled_intrinsics 1280 (2 * 720) = OK k2 /\
    fy k2 = (2 * fy k)%float /\ cy k2 = (2 * cy k)%float /\
    fx k2 = fx k /\ cx k2 = cx k.
Proof. apply (scaler_double_height 1280 720); lia. Defined.

(** ** The CSV row and its header *)

(** The last character of a string. *)
Fixpoint last_char (s : string) : option ascii :=
  match s with
  | EmptyString => None
  | String c EmptyString => Some c
  | String _ s' => last_char s'
  end.

Lemma extend_each_flat_map {A B : Type} (f : A -> list B) items row :
  extend_each f items row = row ++ flat_map f items.
Proof.
  unfold extend_each. revert row. induction items as [|a items IH]; intros row; cbn.
  - rewrite app_nil_r. reflexivity.
  - rewrite IH, <- app_assoc. reflexivity.
Qed.

Lemma row_shape now results :
  extract_full_data now results = now :: pose_columns results ++ hand_columns results.
Proof.
  unfold extract_full_data, pose_columns, hand_columns.
  destruct (pose_landmarks results), (right_hand_landmarks results);
    rewrite ?extend_each_flat_map, <- ?app_assoc; reflexivity.
Qed.

Lemma header_shape PoseLandmark :
  generate_header PoseLandmark = "timestamp"%string :: pose_names PoseLandmark ++ hand_names.
Proof.
  unfold generate_header. rewrite !extend_each_flat_map, <- app_assoc. reflexivity.
Qed.

Lemma pose_columns_length results :
  List.length (pose_columns results)
  = match pose_landmarks results with
    | Some landmark => (4 * List.length landmark)%nat
    | None => 132%nat
    end.
Proof.
  unfold pose_columns. destruct (pose_landmarks results) as [l|].
  - rewrite (flat_map_constant_length (c := 4)); [lia|reflexivity].
  - apply repeat_length.
Qed.

Lemma hand_columns_length results :
  List.length (hand_columns results)
  = match right_hand_landmarks results with
    | Some landmark => (3 * List.length landmark)%nat
    | None => 63%nat
    end.
Proof.
  unfold hand_columns. destruct (right_hand_landmarks results) as [l|].
  - rewrite (flat_map_constant_length (c := 3)); [lia|reflexivity].
  - apply repeat_length.
Qed.

Lemma pose_names_length PoseLandmark :
  List.length (pose_names PoseLandmark) = (4 * List.length PoseLandmark)%nat.
Proof.
  unfold pose_names. rewrite (flat_map_constant_length (c := 4)); [lia|reflexivity].
Qed.

Lemma nth_error_flat_map {A B : Type} (f : A -> list B) (k : nat) l i j a :
  (forall x, List.length (f x) = k) -> nth_error l i = Some a -> (j < k)%nat ->
  nth_error (flat_map f l) (k * i + j) = nth_error (f a) j.
Proof.
  intros Hk. revert i. induction l as [|b l IH]; intros [|i] Hi Hj; try discriminate.
  - injection Hi as ->. cbn [flat_map]. rewrite Nat.mul_0_r.
    apply nth_error_app1. rewrite Hk. exact Hj.
  - cbn [flat_map]. rewrite nth_error_app2 by (rewrite Hk; lia). rewrite Hk.
    replace (k * S i + j - k)%nat with (k * i + j)%nat by lia. apply IH; assumption.
Qed.

(** X14.  A row has as many fields as the header has columns, 196, as long
    as the enumeration has 33 members and every detected list is complete
    (33 pose landmarks, 21 hand landmarks); an undetected list is padded
    with zeros to the same width. *)
Theorem row_width_matches_header :
  forall now results PoseLandmark,
    List.length PoseLandmark = 33%nat ->
    (forall landmark, pose_landmarks results = Some landmark ->
                      List.length landmark = 33%nat) ->
    (forall landmark, right_hand_landmarks results = Some landmark ->
                      List.length landmark = 21%nat) ->
    List.length (extract_full_data now results) = 196%nat /\
    List.length (generate_header PoseLandmark) = 196%nat.
Proof.
  intros now results names Hn Hp Hh. rewrite row_shape, header_shape. cbn [List.length].
  rewrite !length_app, pose_columns_length, hand_columns_length, pose_names_length, Hn.
  split; [|reflexivity].
  destruct (pose_landmarks results) as [lp|]; [rewrite (Hp lp eq_refl)|];
    (destruct (right_hand_landmarks results) as [lh|]; [rewrite (Hh lh eq_refl)|]);
    reflexivity.
Qed.

Lemma row_width_matches_header_witness :
  List.length (extract_full_data 0 (mkResults None None None)) = 196%nat /\
  List.length (generate_header (map str (seq 0 33))) = 196%nat.
Proof.
  apply (row_width_matches_header 0%float (mkResults None None None) (map str (seq 0 33)));
    [reflexivity|discriminate|discriminate].
Defined.

(** X15.  The pose columns of a row sit under their names: landmark
    number [i] of a detected pose fills columns [1 + 4i] to [4 + 4i] with its
    x, y, z and visibility, and the header names these four columns after
    member number [i] of the enumeration, with the suffixes _x, _y, _z and
    _vis. *)
Theorem pose_columns_aligned :
  forall now results PoseLandmark landmark i lm name,
    pose_landmarks results = Some landmark ->
    nth_error landmark i = Some lm -> nth_error PoseLandmark i = Some name ->
    let row := extract_full_data now results in
    let header := generate_header PoseLandmark in
    (nth_error row (1 + 4 * i) = Some (lm_x lm) /\
     nth_error header (1 + 4 * i) = Some (name ++ "_x")%string) /\
    (nth_error row (2 + 4 * i) = Some (lm_y lm) /\
     nth_error header (2 + 4 * i) = Some (name ++ "_y")%string) /\
    (nth_error row (3 + 4 * i) = Some (lm_z lm) /\
     nth_error header (3 + 4 * i) = Some (name ++ "_z")%string) /\
    (nth_error row (4 + 4 * i) = Some (lm_visibility lm) /\
     nth_error header (4 + 4 * i) = Some (name ++ "_vis")%string).
Proof.
  intros now results names lms i lm name Hp Hi Hn row header.
  subst row header. rewrite row_shape, header_shape.
  assert (R : forall j, (j < 4)%nat ->
            nth_error (now :: pose_columns results ++ hand_columns results) (S j + 4 * i)
            = nth_error [lm_x lm; lm_y lm; lm_z lm; lm_visibility lm] j).
  { intros j Hj. cbn [nth_error Nat.add].
    pose proof (pose_columns_length results) as L. rewrite Hp in L.
    assert (i < List.length lms)%nat by (apply nth_error_Some; congruence).
    rewrite nth_error_app1 by lia. unfold pose_columns. rewrite Hp.
    rewrite (Nat.add_comm j).
    apply (nth_error_flat_map (fun lm => [lm_x lm; lm_y lm; lm_z lm; lm_visibility lm])
             4 lms i j lm); [reflexivity|exact Hi|exact Hj]. }
  assert (H : forall j, (j < 4)%nat ->
            nth_error ("timestamp"%string :: pose_names names ++ hand_names) (S j + 4 * i)
            = nth_error [name ++ "_x"; name ++ "_y"; name ++ "_z"; name ++ "_vis"]%string j).
  { intros j Hj. cbn [nth_error Nat.add].
    pose proof (pose_names_length names) as L.
    assert (i < List.length names)%nat by (apply nth_error_Some; congruence).
    rewrite nth_error_app1 by lia. unfold pose_names.
    rewrite (Nat.add_comm j).
    apply (nth_error_flat_map
             (fun name => [name ++ "_x"; name ++ "_y"; name ++ "_z"; name ++ "_vis"]%string)
             4 names i j name); [reflexivity|exact Hn|exact Hj]. }
  repeat split;
    first [ apply (R 0%nat); lia | apply (R 1%nat); lia | apply (R 2%nat); lia
          | apply (R 3%nat); lia | apply (H 0%nat); lia | apply (H 1%nat); lia
          | apply (H 2%nat); lia | apply (H 3%nat); lia ].
Qed.

Lemma pose_columns_aligned_witness :
  let row := extract_full_data 9 (mkResults (Some [mkLandmark 1 2 3 4; mkLandmark 5 6 7 8])
                                            None None) in
  let header := generate_header ["NOSE"; "LEFT_EYE_INNER"]%string in
  (nth_error row (1 + 4 * 1) = Some 5%float /\
   nth_error header (1 + 4 * 1) = Some ("LEFT_EYE_INNER" ++ "_x")%string) /\
  (nth_error row (2 + 4 * 1) = Some 6%float /\
   nth_error header (2 + 4 * 1) = Some ("LEFT_EYE_INNER" ++ "_y")%string) /\
  (nth_error row (3 + 4 * 1) = Some 7%float /\
   nth_error header (3 + 4 * 1) = Some ("LEFT_EYE_INNER" ++ "_z")%string) /\
  (nth_error row (4 + 4 * 1) = Some 8%float /\
   nth_error header (4 + 4 * 1) = Some ("LEFT_EYE_INNER" ++ "_vis")%string).
Proof.
  apply (pose_columns_aligned 9%float
           (mkResults (Some [mkLandmark 1 2 3 4; mkLandmark 5 6 7 8]) None None)
           ["NOSE"; "LEFT_EYE_INNER"]%string
           [mkLandmark 1 2 3 4; mkLandmark 5 6 7 8] 1%nat (mkLandmark 5 6 7 8)
           "LEFT_EYE_INNER"%string); reflexivity.
Defined.

Lemma hand_names_nth i j :
  (i < 21)%nat -> (j < 3)%nat ->
  nth_error hand_names (3 * i + j)
  = nth_error ["RIGHT_HAND_" ++ str i ++ "_x"; "RIGHT_HAND_" ++ str i ++ "_y";
               "RIGHT_HAND_" ++ str i ++ "_z"]%string j.
Proof.
  intros Hi Hj. unfold hand_names.
  apply (nth_error_flat_map
           (fun i => ["RIGHT_HAND_" ++ str i ++ "_x"; "RIGHT_HAND_" ++ str i ++ "_y";
                      "RIGHT_HAND_" ++ str i ++ "_z"]%string) 3 (seq 0 21) i j i);
    [reflexivity| |exact Hj].
  rewrite nth_error_seq. apply Nat.ltb_lt in Hi. rewrite Hi. reflexivity.
Qed.

(** X16.  The right-hand columns of a row sit under their names whenever the
    pose part of the row is as wide as the pose part of the header (a
    detected pose with as many landmarks as the enumeration has members, or
    no pose and 33 members): landmark number [i] of a detected right hand
    fills the three columns from [1 + 4 * n + 3 * i] on, [n] being the number
    of members, and the header names them RIGHT_HAND_i_x, _y and _z. *)
Theorem hand_columns_aligned :
  forall now results PoseLandmark landmark i lm,
    match pose_landmarks results with
    | Some pose => List.length pose = List.length PoseLandmark
    | None => List.length PoseLandmark = 33%nat
    end ->
    right_hand_landmarks results = Some landmark ->
    nth_error landmark i = Some lm -> (i < 21)%nat ->
    let row := extract_full_data now results in
    let header := generate_header PoseLandmark in
    let c := (1 + 4 * List.length PoseLandmark + 3 * i)%nat in
    (nth_error row c = Some (lm_x lm) /\
     nth_error header c = Some ("RIGHT_HAND_" ++ str i ++ "_x")%string) /\
    (nth_error row (c + 1) = Some (lm_y lm) /\
     nth_error header (c + 1) = Some ("RIGHT_HAND_" ++ str i ++ "_y")%string) /\
    (nth_error row (c + 2) = Some (lm_z lm) /\
     nth_error header (c + 2) = Some ("RIGHT_HAND_" ++ str i ++ "_z")%string).
Proof.
  intros now results names hl i lm Hw Hh Hi Hlt row header c. subst row header c.
  rewrite row_shape, header_shape.
  assert (W : List.length (pose_columns results) = (4 * List.length names)%nat).
  { rewrite pose_columns_length. destruct (pose_landmarks results); lia. }
  assert (R : forall j, (j < 3)%nat ->
            nth_error (now :: pose_columns results ++ hand_columns results)
                      (1 + 4 * List.length names + 3 * i + j)
            = nth_error [lm_x lm; lm_y lm; lm_z lm] j).
  { intros j Hj. cbn [nth_error Nat.add]. rewrite nth_error_app2 by lia. rewrite W.
    replace (4 * List.length names + 3 * i + j - 4 * List.length names)%nat
      with (3 * i + j)%nat by lia.
    unfold hand_columns. rewrite Hh.
    apply (nth_error_flat_map (fun lm => [lm_x lm; lm_y lm; lm_z lm]) 3 hl i j lm);
      [reflexivity|exact Hi|exact Hj]. }
  assert (H : forall j, (j < 3)%nat ->
            nth_error ("timestamp"%string :: pose_names names ++ hand_names)
                      (1 + 4 * List.length names + 3 * i + j)
            = nth_error ["RIGHT_HAND_" ++ str i ++ "_x"; "RIGHT_HAND_" ++ str i ++ "_y";
                         "RIGHT_HAND_" ++ str i ++ "_z"]%string j).
  { intros j Hj. cbn [nth_error Nat.add].
    rewrite nth_error_app2 by (rewrite pose_names_length; lia).
    rewrite pose_names_length.
    replace (4 * List.length names + 3 * i + j - 4 * List.length names)%nat
      with (3 * i + j)%nat by lia.
    apply hand_names_nth; assumption. }
  pose proof (R 0%nat ltac:(lia)) as R0. pose proof (H 0%nat ltac:(lia)) as H0.
  rewrite Nat.add_0_r in R0, H0.
  repeat split;
    first [ exact R0 | exact H0 | apply (R 1%nat); lia | apply (R 2%nat); lia
          | apply (H 1%nat); lia | apply (H 2%nat); lia ].
Qed.

Lemma hand_columns_aligned_witness :
  let row := extract_full_data 9 (mkResults None None
                                            (Some [mkLandmark 1 2 3 0; mkLandmark 5 6 7 0])) in
  let header := generate_header (map str (seq 0 33)) in
  let c := (1 + 4 * List.length (map str (seq 0 33)) + 3 * 1)%nat in
  (nth_error row c = Some 5%float /\
   nth_error header c = Some ("RIGHT_HAND_" ++ str 1 ++ "_x")%string) /\
  (nth_error row (c + 1) = Some 6%float /\
   nth_error header (c + 1) = Some ("RIGHT_HAND_" ++ str 1 ++ "_y")%string) /\
  (nth_error row (c + 2) = Some 7%float /\
   nth_error header (c + 2) = Some ("RIGHT_HAND_" ++ str 1 ++ "_z")%string).
Proof.
  apply (hand_columns_aligned 9%float
           (mkResults None None (Some [mkLandmark 1 2 3 0; mkLandmark 5 6 7 0]))
           (map str (seq 0 33)) [mkLandmark 1 2 3 0; mkLandmark 5 6 7 0] 1%nat
           (mkLandmark 5 6 7 0)); try reflexivity. lia.
Defined.

(** X17.  What was not detected is logged as zeros: without a pose the
    columns 1 to 132 of the row are 0.0, and without a right hand its last
    63 columns are 0.0. *)
Theorem undetected_columns_zero :
  forall now results c,
    (pose_landmarks results = None -> (1 <= c <= 132)%nat ->
     nth_error (extract_full_data now results) c = Some 0%float) /\
    (right_hand_landmarks results = None ->
     (List.length (extract_full_data now results) - 63 <= c
      < List.length (extract_full_data now results))%nat ->
     nth_error (extract_full_data now results) c = Some 0%float).
Proof.
  intros now results c. rewrite row_shape. cbn [List.length]. rewrite length_app. split.
  - intros Hp Hc. destruct c as [|c]; [lia|]. cbn [nth_error].
    pose proof (pose_columns_length results) as L. rewrite Hp in L.
    rewrite nth_error_app1 by lia. unfold pose_columns. rewrite Hp.
    apply nth_error_repeat. lia.
  - intros Hh. pose proof (hand_columns_length results) as L. rewrite Hh in L.
    rewrite L. intros Hc. destruct c as [|c]; [lia|]. cbn [nth_error].
    rewrite nth_error_app2 by lia. unfold hand_columns. rewrite Hh.
    apply nth_error_repeat. lia.
Qed.

Lemma undetected_columns_zero_witness :
  nth_error (extract_full_data 9 (mkResults None None None)) 132 = Some 0%float /\
  nth_error (extract_full_data 9 (mkResults None None None)) 195 = Some 0%float.
Proof.
  split.
  - apply (proj1 (undetected_columns_zero 9%float (mkResults None None None) 132%nat));
      [reflexivity|lia].
  - apply (proj2 (undetected_columns_zero 9%float (mkResults None None None) 195%nat));
      [reflexivity|cbn; lia].
Defined.

(** ** Distinct column names *)
Lemma list_ascii_append s t :
  list_ascii_of_string (s ++ t) = list_ascii_of_string s ++ list_ascii_of_string t.
Proof. induction s as [|c s IH]; cbn; [reflexivity|rewrite IH; reflexivity]. Qed.

Lemma append_inv_tail s1 s2 t : (s1 ++ t)%string = (s2 ++ t)%string -> s1 = s2.
Proof.
  intros H. apply (f_equal list_ascii_of_string) in H.
  rewrite !list_ascii_append in H. apply app_inv_tail in H.
  rewrite <- (string_of_list_ascii_of_string s1), <- (string_of_list_ascii_of_string s2).
  rewrite H. reflexivity.
Qed.

Lemma last_char_append s c t :
  last_char (s ++ String c t) = last_char (String c t).
Proof.
  induction s as [|a s IH]; [reflexivity|].
  change (String a s ++ String c t)%string with (String a (s ++ String c t)).
  destruct (s ++ String c t)%string as [|a0 s0] eqn:E.
  - destruct s; discriminate.
  - change (last_char (String a (String a0 s0))) with (last_char (String a0 s0)).
    exact IH.
Qed.

Lemma pose_name_cases name x :
  In x [name ++ "_x"; name ++ "_y"; name ++ "_z"; name ++ "_vis"]%string ->
  exists t, x = (name ++ t)%string /\ In t ["_x"; "_y"; "_z"; "_vis"]%string.
Proof.
  cbn [In]. intros [<-|[<-|[<-|[<-|[]]]]]; eexists; (split; [reflexivity|]); cbn; auto.
Qed.

Lemma hand_name_cases i x :
  In x ["RIGHT_HAND_" ++ str i ++ "_x"; "RIGHT_HAND_" ++ str i ++ "_y";
        "RIGHT_HAND_" ++ str i ++ "_z"]%string ->
  exists t, x = (("RIGHT_HAND_" ++ str i) ++ t)%string /\ In t ["_x"; "_y"; "_z"; "_vis"]%string.
Proof.
  cbn [In]. intros [<-|[<-|[<-|[]]]]; eexists;
    (split; [cbn [append]; rewrite <- ?append_assoc; reflexivity|]); cbn; auto.
Qed.

Lemma suffixed_inj n1 t1 n2 t2 :
  In t1 ["_x"; "_y"; "_z"; "_vis"]%string -> In t2 ["_x"; "_y"; "_z"; "_vis"]%string ->
  (n1 ++ t1)%string = (n2 ++ t2)%string -> n1 = n2 /\ t1 = t2.
Proof.
  intros H1 H2 E. assert (T : t1 = t2).
  { apply (f_equal last_char) in E. cbn [In] in H1, H2.
    destruct H1 as [<-|[<-|[<-|[<-|[]]]]], H2 as [<-|[<-|[<-|[<-|[]]]]];
      rewrite !last_char_append in E; try reflexivity; discriminate. }
  subst t2. split; [|reflexivity]. eapply append_inv_tail, E.
Qed.

Lemma NoDup_flat_map {A B : Type} (f : A -> list B) l :
  NoDup l -> (forall a, In a l -> NoDup (f a)) ->
  (forall a b x, In a l -> In b l -> In x (f a) -> In x (f b) -> a = b) ->
  NoDup (flat_map f l).
Proof.
  induction 1 as [|a l Ha Hl IH]; intros Hf Hd; cbn [flat_map]; [constructor|].
  apply NoDup_app.
  - apply Hf. left. reflexivity.
  - apply IH; [intros; apply Hf; right; assumption|].
    intros b c x Hb Hc. apply Hd; right; assumption.
  - intros x Hx Hx'. apply in_flat_map in Hx'. destruct Hx' as (b & Hb & Hxb).
    assert (a = b) by (apply (Hd a b x); [left; reflexivity|right; assumption|assumption..]).
    subst b. contradiction.
Qed.

(** X18.  No two columns of the header bear the same name, provided the
    members of the enumeration have distinct names and none of them is
    called RIGHT_HAND_i for an index i below 21. *)
Theorem header_names_distinct :
  forall PoseLandmark,
    NoDup PoseLandmark ->
    (forall i, (i < 21)%nat -> ~ In ("RIGHT_HAND_" ++ str i)%string PoseLandmark) ->
    NoDup (generate_header PoseLandmark).
Proof.
  intros names Hn Hr. rewrite header_shape.
  assert (Np : NoDup (pose_names names)).
  { apply NoDup_flat_map; [exact Hn| |].
    - intros a _. repeat constructor; cbn [In];
        intros H; repeat (destruct H as [H|H]; [|]); try contradiction;
        apply (suffixed_inj a _ a _) in H; cbn; auto; destruct H; discriminate.
    - intros a b x _ _ Ha Hb. apply pose_name_cases in Ha, Hb.
      destruct Ha as (ta & -> & Hta), Hb as (tb & E & Htb).
      apply suffixed_inj in E; tauto. }
  assert (Nh : NoDup hand_names).
  { assert (E : nodup string_dec hand_names = hand_names) by (vm_compute; reflexivity).
    rewrite <- E. apply NoDup_nodup. }
  constructor.
  - intros H. apply in_app_or in H. destruct H as [H|H].
    + apply in_flat_map in H. destruct H as (n & _ & H). apply pose_name_cases in H.
      destruct H as (t & E & Ht). apply (f_equal last_char) in E. cbn [In] in Ht.
      destruct Ht as [<-|[<-|[<-|[<-|[]]]]]; rewrite last_char_append in E; discriminate.
    + revert H. vm_compute. intuition discriminate.
  - apply NoDup_app; [exact Np|exact Nh|].
    intros x Hp Hh. apply in_flat_map in Hp, Hh.
    destruct Hp as (n & Hin & Hp), Hh as (i & Hi & Hh).
    apply in_seq in Hi. apply pose_name_cases in Hp. apply hand_name_cases in Hh.
    destruct Hp as (tp & -> & Htp), Hh as (th & E & Hth).
    apply suffixed_inj in E; [|assumption..]. destruct E as [-> _].
    apply (Hr i); [lia|exact Hin].
Qed.

Lemma header_names_distinct_witness :
  NoDup (generate_header ["NOSE"; "LEFT_EYE_INNER"; "LEFT_EYE"]%string).
Proof.
  apply (header_names_distinct ["NOSE"; "LEFT_EYE_INNER"; "LEFT_EYE"]%string).
  - repeat constructor; cbn [In]; intuition discriminate.
  - intros i Hi. cbn [In]. intros [H|[H|[H|[]]]];
      apply (f_equal (fun s => String.get 0 s)) in H; discriminate.
Defined.

Import Request.

(** ** The handlers on the parsed request *)

Lemma subscript_found members key v :
  lookup key members = Some v -> subscript (JObject members) key = Return v.
Proof. intros H. unfold subscript. rewrite H. reflexivity. Qed.

Lemma subscript_missing members key :
  lookup key members = None -> subscript (JObject members) key = Fail (KeyError key).
Proof. intros H. unfold subscript. rewrite H. reflexivity. Qed.

(** X19.  A request that lacks one of the keys p_left, p_right, img_w and
    img_h makes the depth route raise KeyError for the first of them that is
    missing, in this order, whatever the other values are. *)
Theorem stereo_missing_key :
  forall members key,
    first_missing ["p_left"; "p_right"; "img_w"; "img_h"]%string members = Some key ->
    RequestRoutes.calculate_stereo (JObject members) = Fail (KeyError key).
Proof.
  intros members key. unfold first_missing, RequestRoutes.calculate_stereo. cbn [find].
  destruct (lookup "p_left" members) as [v1|] eqn:L1;
    [rewrite (subscript_found _ _ _ L1)
    |rewrite (subscript_missing _ _ L1); intros [= <-]; reflexivity].
  destruct (lookup "p_right" members) as [v2|] eqn:L2;
    [rewrite (subscript_found _ _ _ L2)
    |rewrite (subscript_missing _ _ L2); intros [= <-]; reflexivity].
  destruct (lookup "img_w" members) as [v3|] eqn:L3;
    [rewrite (subscript_found _ _ _ L3)
    |rewrite (subscript_missing _ _ L3); intros [= <-]; reflexivity].
  destruct (lookup "img_h" members) as [v4|] eqn:L4;
    [discriminate|rewrite (subscript_missing _ _ L4); intros [= <-]; reflexivity].
Qed.

Lemma stereo_missing_key_witness :
  RequestRoutes.calculate_stereo
    (JObject [("p_left", JObject [("x", JFloat 400)]); ("img_h", JInt 720);
              ("p_right", JString "here")]%string)
  = Fail (KeyError "img_w").
Proof.
  apply (stereo_missing_key
           [("p_left", JObject [("x", JFloat 400)]); ("img_h", JInt 720);
            ("p_right", JString "here")]%string "img_w"%string).
  reflexivity.
Defined.

(** X20.  A request that lacks one of the keys p1, p2, Z, img_w and img_h
    makes the size route raise KeyError for the first of them that is
    missing, in this order, whatever the other values are. *)
Theorem size_missing_key :
  forall members key,
    first_missing ["p1"; "p2"; "Z"; "img_w"; "img_h"]%string members = Some key ->
    RequestRoutes.calculate_size (JObject members) = Fail (KeyError key).
Proof.
  intros members key. unfold first_missing, RequestRoutes.calculate_size. cbn [find].
  destruct (lookup "p1" members) as [v1|] eqn:L1;
    [rewrite (subscript_found _ _ _ L1)
    |rewrite (subscript_missing _ _ L1); intros [= <-]; reflexivity].
  destruct (lookup "p2" members) as [v2|] eqn:L2;
    [rewrite (subscript_found _ _ _ L2)
    |rewrite (subscript_missing _ _ L2); intros [= <-]; reflexivity].
  destruct (lookup "Z" members) as [v3|] eqn:L3;
    [rewrite (subscript_found _ _ _ L3)
    |rewrite (subscript_missing _ _ L3); intros [= <-]; reflexivity].
  destruct (lookup "img_w" members) as [v4|] eqn:L4;
    [rewrite (subscript_found _ _ _ L4)
    |rewrite (subscript_missing _ _ L4); intros [= <-]; reflexivity].
  destruct (lookup "img_h" members) as [v5|] eqn:L5;
    [discriminate|rewrite (subscript_missing _ _ L5); intros [= <-]; reflexivity].
Qed.

Lemma size_missing_key_witness :
  RequestRoutes.calculate_size
    (JObject [("p1", JNull); ("p2", JNull); ("img_w", JInt 1280); ("img_h", JInt 720)]%string)
  = Fail (KeyError "Z").
Proof.
  apply (size_missing_key
           [("p1", JNull); ("p2", JNull); ("img_w", JInt 1280); ("img_h", JInt 720)]%string
           "Z"%string).
  reflexivity.
Defined.

Lemma scaler_on_ints w h :
  RequestRoutes.get_scaled_intrinsics (JInt w) (JInt h) = lift (get_scaled_intrinsics w h).
Proof.
  unfold RequestRoutes.get_scaled_intrinsics, get_scaled_intrinsics. cbn [number bind].
  unfold RequestRoutes.truediv.
  destruct (int_truediv w CALIB_W) as [sx|e]; cbn [lift bind Py.bind]; [|reflexivity].
  destruct (int_truediv h CALIB_H) as [sy|e]; cbn [lift bind Py.bind]; reflexivity.
Qed.

(** X21.  On a request whose points carry float x coordinates and whose
    dimensions are integers, the depth route is the typed computation on
    these values: the same payload, with a float disparity, or the same
    arithmetic exception.  The y coordinates are never read. *)
Theorem stereo_request_agrees :
  forall members left right p_left p_right img_w img_h,
    lookup "p_left" members = Some (JObject left) ->
    lookup "p_right" members = Some (JObject right) ->
    lookup "img_w" members = Some (JInt img_w) ->
    lookup "img_h" members = Some (JInt img_h) ->
    lookup "x" left = Some (JFloat (px p_left)) ->
    lookup "x" right = Some (JFloat (px p_right)) ->
    RequestRoutes.calculate_stereo (JObject members)
    = stereo_outcome (calculate_stereo p_left p_right img_w img_h).
Proof.
  intros members ml mr pl pr w h L1 L2 L3 L4 Lx Rx.
  unfold RequestRoutes.calculate_stereo.
  rewrite (subscript_found _ _ _ L1), (subscript_found _ _ _ L2),
    (subscript_found _ _ _ L3), (subscript_found _ _ _ L4). cbn [bind].
  rewrite scaler_on_ints. unfold calculate_stereo.
  destruct (get_scaled_intrinsics w h) as [k|e]; cbn [lift bind Py.bind]; [|reflexivity].
  rewrite (subscript_found _ _ _ Lx), (subscript_found _ _ _ Rx).
  cbn [bind number RequestRoutes.sub as_float RequestRoutes.abs RequestRoutes.below_one].
  fold (disparity_of pl pr).
  destruct (disparity_of pl pr <? 1)%float; [reflexivity|].
  unfold RequestRoutes.truediv, calculated_Z. cbn [as_float bind].
  destruct (float_truediv (fx k * BASELINE) (disparity_of pl pr)) as [z|e];
    cbn [lift bind Py.bind]; reflexivity.
Qed.

Lemma stereo_request_agrees_witness :
  RequestRoutes.calculate_stereo
    (JObject [("p_left", JObject [("x", JFloat 400)]);
              ("p_right", JObject [("x", JFloat 380); ("y", JNull)]);
              ("img_w", JInt 1280); ("img_h", JInt 720)]%string)
  = stereo_outcome (calculate_stereo (mkPoint 400 300) (mkPoint 380 300) 1280 720).
Proof.
  apply (stereo_request_agrees
           [("p_left", JObject [("x", JFloat 400)]);
            ("p_right", JObject [("x", JFloat 380); ("y", JNull)]);
            ("img_w", JInt 1280); ("img_h", JInt 720)]%string
           [("x", JFloat 400)]%string [("x", JFloat 380); ("y", JNull)]%string
           (mkPoint 400 300) (mkPoint 380 300) 1280 720); reflexivity.
Defined.

Lemma back_project_on_floats members axis x c Zd f :
  lookup axis members = Some (JFloat x) ->
  RequestRoutes.back_project (JObject members) axis c (JFloat Zd) f
  = lift (back_project x c Zd f).
Proof.
  intros L. unfold RequestRoutes.back_project, back_project.
  rewrite (subscript_found _ _ _ L). reflexivity.
Qed.

(** X22.  On a request whose points carry float coordinates, whose depth is
    a float and whose dimensions are integers, the size route is the typed
    computation on these values: the same payload or the same arithmetic
    exception. *)
Theorem size_request_agrees :
  forall members first second p1 p2 Zd img_w img_h,
    lookup "p1" members = Some (JObject first) ->
    lookup "p2" members = Some (JObject second) ->
    lookup "Z" members = Some (JFloat Zd) ->
    lookup "img_w" members = Some (JInt img_w) ->
    lookup "img_h" members = Some (JInt img_h) ->
    lookup "x" first = Some (JFloat (px p1)) -> lookup "y" first = Some (JFloat (py p1)) ->
    lookup "x" second = Some (JFloat (px p2)) -> lookup "y" second = Some (JFloat (py p2)) ->
    RequestRoutes.calculate_size (JObject members)
    = lift (calculate_size p1 p2 Zd img_w img_h).
Proof.
  intros members m1 m2 p1 p2 Zd w h L1 L2 L3 L4 L5 X1 Y1 X2 Y2.
  unfold RequestRoutes.calculate_size.
  rewrite (subscript_found _ _ _ L1), (subscript_found _ _ _ L2),
    (subscript_found _ _ _ L3), (subscript_found _ _ _ L4), (subscript_found _ _ _ L5).
  cbn [bind]. rewrite scaler_on_ints. unfold calculate_size.
  destruct (get_scaled_intrinsics w h) as [k|e]; cbn [lift bind Py.bind]; [|reflexivity].
  rewrite (back_project_on_floats _ _ _ _ _ _ X1), (back_project_on_floats _ _ _ _ _ _ Y1),
    (back_project_on_floats _ _ _ _ _ _ X2), (back_project_on_floats _ _ _ _ _ _ Y2).
  unfold measure, RequestRoutes.planar_distance.
  destruct (back_project (px p1) (cx k) Zd (fx k)) as [a1|e]; cbn [lift bind Py.bind];
    [|reflexivity].
  destruct (back_project (py p1) (cy k) Zd (fy k)) as [b1|e]; cbn [lift bind Py.bind];
    [|reflexivity].
  destruct (back_project (px p2) (cx k) Zd (fx k)) as [a2|e]; cbn [lift bind Py.bind];
    [|reflexivity].
  destruct (back_project (py p2) (cy k) Zd (fy k)) as [b2|e]; cbn [lift bind Py.bind];
    [|reflexivity].
  destruct (float_pow2 (a2 - a1)) as [dx2|e]; cbn [lift bind Py.bind]; [|reflexivity].
  destruct (float_pow2 (b2 - b1)) as [dy2|e]; cbn [lift bind Py.bind]; [|reflexivity].
  destruct (math_sqrt (dx2 + dy2)) as [s|e]; cbn [lift bind Py.bind]; reflexivity.
Qed.

Lemma size_request_agrees_witness :
  RequestRoutes.calculate_size
    (JObject [("p1", JObject [("x", JFloat 400); ("y", JFloat 300)]);
              ("p2", JObject [("x", JFloat 450); ("y", JFloat 310)]);
              ("Z", JFloat 495.698); ("img_w", JInt 1280); ("img_h", JInt 720)]%string)
  = lift (calculate_size (mkPoint 400 300) (mkPoint 450 310) 495.698 1280 720).
Proof.
  apply (size_request_agrees
           [("p1", JObject [("x", JFloat 400); ("y", JFloat 300)]);
            ("p2", JObject [("x", JFloat 450); ("y", JFloat 310)]);
            ("Z", JFloat 495.698); ("img_w", JInt 1280); ("img_h", JInt 720)]%string
           [("x", JFloat 400); ("y", JFloat 300)]%string
           [("x", JFloat 450); ("y", JFloat 310)]%string
           (mkPoint 400 300) (mkPoint 450 310) 495.698%float 1280 720); reflexivity.
Defined.

(** ** Integers in a request *)
Lemma normalize_valid n : valid_binary (binary_normalize prec emax n 0 false) = true.
Proof.
  destruct n as [|p|p]; [reflexivity| |]; cbn [binary_normalize].
  - apply (rounds_to_valid _ _ (binary_round_rounds_to p 0)).
  - pose proof (rounds_to_valid _ _ (binary_round_rounds_to p 0)) as V.
    unfold binary_round in *. destruct (shl_align p 0 _) as [mz ez].
    change true with (negb false). rewrite round_aux_opp.
    destruct (binary_round_aux prec emax false (Z.pos mz) ez loc_Exact) as [s|s| |s m e];
      try exact V; reflexivity.
Qed.

Lemma float_of_Z_SF n : Prim2SF (float_of_Z n) = binary_normalize prec emax n 0 false.
Proof. unfold float_of_Z. apply Prim2SF_SF2Prim, normalize_valid. Qed.

Lemma float_of_Z_opp n : float_of_Z (- n) = (- float_of_Z n)%float \/ n = 0.
Proof.
  destruct (normalize_opp n 0) as [H|[H _]]; [left|right; exact H].
  apply Prim2SF_inj. rewrite opp_spec, !float_of_Z_SF. exact H.
Qed.

Lemma float_of_Z_not_infinite n : is_small n = true -> is_infinity (float_of_Z n) = false.
Proof.
  unfold is_small. intros H. apply Z.ltb_lt in H.
  assert (P : forall w, 0 < w < 2 ^ 53 -> is_infinity (float_of_Z w) = false).
  { intros w Hw. destruct (float_of_Z_finite w Hw) as (v & (m & e & E & _) & _).
    rewrite is_infinity_SF, E. reflexivity. }
  destruct (Z.lt_trichotomy n 0) as [N|[->|N]].
  - destruct (float_of_Z_opp (- n)) as [E|E]; [|lia]. rewrite Z.opp_involutive in E.
    rewrite E, is_infinity_SF, opp_spec. specialize (P (- n) ltac:(lia)).
    rewrite is_infinity_SF in P. destruct (Prim2SF (float_of_Z (- n))); try discriminate;
      reflexivity.
  - reflexivity.
  - apply P. lia.
Qed.

Lemma to_float_small n : is_small n = true -> to_float n = Return (float_of_Z n).
Proof. intros H. unfold to_float. rewrite (float_of_Z_not_infinite n H). reflexivity. Qed.

(** X23.  With integer x coordinates whose difference is below [2^53] in
    magnitude, the depth route answers with the error payload exactly when
    the two coordinates are equal; otherwise the disparity of the payload is
    the integer [|x_left - x_right|] itself and the depth is
    [fx * BASELINE] divided by its conversion to float, rounded to four
    decimals. *)
Theorem stereo_integer_clicks :
  forall members left right x_left x_right img_w img_h k,
    lookup "p_left" members = Some (JObject left) ->
    lookup "p_right" members = Some (JObject right) ->
    lookup "img_w" members = Some (JInt img_w) ->
    lookup "img_h" members = Some (JInt img_h) ->
    lookup "x" left = Some (JInt x_left) ->
    lookup "x" right = Some (JInt x_right) ->
    get_scaled_intrinsics img_w img_h = OK k ->
    Z.abs (x_left - x_right) < 2 ^ 53 ->
    RequestRoutes.calculate_stereo (JObject members)
    = if x_left =? x_right then
        Return (RequestRoutes.ErrorPayload
          "Disparity is too small (d < 1.0). You clicked the same pixel or close to it!")
      else
        Return (RequestRoutes.DepthPayload
                  (round (fx k * BASELINE / float_of_Z (Z.abs (x_left - x_right))) 4)
                  (Int (Z.abs (x_left - x_right)))).
Proof.
  intros members ml mr xl xr w h k L1 L2 L3 L4 Lx Rx G Hd.
  unfold RequestRoutes.calculate_stereo.
  rewrite (subscript_found _ _ _ L1), (subscript_found _ _ _ L2),
    (subscript_found _ _ _ L3), (subscript_found _ _ _ L4). cbn [bind].
  rewrite scaler_on_ints, G. cbn [lift bind].
  rewrite (subscript_found _ _ _ Lx), (subscript_found _ _ _ Rx).
  cbn [bind number RequestRoutes.sub RequestRoutes.abs RequestRoutes.below_one
       RequestRoutes.round].
  destruct (Z.eqb_spec xl xr) as [->|N].
  - rewrite Z.sub_diag. reflexivity.
  - destruct (Z.ltb_spec (Z.abs (xl - xr)) 1) as [|_]; [lia|].
    unfold RequestRoutes.truediv. cbn [as_float bind].
    rewrite to_float_small by (unfold is_small; apply Z.ltb_lt; lia). cbn [bind].
    destruct (float_of_Z_finite (Z.abs (xl - xr)) ltac:(lia)) as (v & P & _).
    unfold float_truediv. rewrite (proj2 (proj2 (pos_finite_facts _ _ P))). reflexivity.
Qed.

Lemma stereo_integer_clicks_witness :
  RequestRoutes.calculate_stereo
    (JObject [("p_left", JObject [("x", JInt 400)]); ("p_right", JObject [("x", JInt 380)]);
              ("img_w", JInt 1280); ("img_h", JInt 720)]%string)
  = if 400 =? 380 then
      Return (RequestRoutes.ErrorPayload
        "Disparity is too small (d < 1.0). You clicked the same pixel or close to it!")
    else
      Return (RequestRoutes.DepthPayload
                (round (fx k_1280_720 * BASELINE / float_of_Z (Z.abs (400 - 380))) 4)
                (Int (Z.abs (400 - 380)))).
Proof.
  apply (stereo_integer_clicks
           [("p_left", JObject [("x", JInt 400)]); ("p_right", JObject [("x", JInt 380)]);
            ("img_w", JInt 1280); ("img_h", JInt 720)]%string
           [("x", JInt 400)]%string [("x", JInt 380)]%string 400 380 1280 720 k_1280_720);
    reflexivity.
Defined.

Lemma back_project_on_ints members axis x c Zd f :
  lookup axis members = Some (JInt x) -> is_small x = true -> is_small Zd = true ->
  RequestRoutes.back_project (JObject members) axis c (JInt Zd) f
  = lift (back_project (float_of_Z x) c (float_of_Z Zd) f).
Proof.
  intros L Hx Hz. unfold RequestRoutes.back_project, back_project.
  rewrite (subscript_found _ _ _ L).
  cbn [bind number RequestRoutes.sub RequestRoutes.mul as_float].
  rewrite (to_float_small x Hx).
  cbn [bind number RequestRoutes.sub RequestRoutes.mul as_float].
  rewrite (to_float_small Zd Hz). reflexivity.
Qed.

(** X24.  Integers in a size request behave as their conversions to float:
    with integer coordinates and an integer depth, all below [2^53] in
    magnitude, the size route gives the outcome of the typed computation on
    the converted values. *)
Theorem size_integer_values :
  forall members first second x1 y1 x2 y2 Zd img_w img_h,
    lookup "p1" members = Some (JObject first) ->
    lookup "p2" members = Some (JObject second) ->
    lookup "Z" members = Some (JInt Zd) ->
    lookup "img_w" members = Some (JInt img_w) ->
    lookup "img_h" members = Some (JInt img_h) ->
    lookup "x" first = Some (JInt x1) -> lookup "y" first = Some (JInt y1) ->
    lookup "x" second = Some (JInt x2) -> lookup "y" second = Some (JInt y2) ->
    Z.abs x1 < 2 ^ 53 -> Z.abs y1 < 2 ^ 53 -> Z.abs x2 < 2 ^ 53 -> Z.abs y2 < 2 ^ 53 ->
    Z.abs Zd < 2 ^ 53 ->
    RequestRoutes.calculate_size (JObject members)
    = lift (calculate_size (mkPoint (float_of_Z x1) (float_of_Z y1))
                           (mkPoint (float_of_Z x2) (float_of_Z y2))
                           (float_of_Z Zd) img_w img_h).
Proof.
  intros members m1 m2 x1 y1 x2 y2 Zd w h L1 L2 L3 L4 L5 X1 Y1 X2 Y2 S1 S2 S3 S4 S5.
  apply Z.ltb_lt in S1, S2, S3, S4, S5.
  unfold RequestRoutes.calculate_size.
  rewrite (subscript_found _ _ _ L1), (subscript_found _ _ _ L2),
    (subscript_found _ _ _ L3), (subscript_found _ _ _ L4), (subscript_found _ _ _ L5).
  cbn [bind]. rewrite scaler_on_ints. unfold calculate_size.
  destruct (get_scaled_intrinsics w h) as [k|e]; cbn [lift bind Py.bind]; [|reflexivity].
  rewrite (back_project_on_ints _ _ _ _ _ _ X1 S1 S5),
    (back_project_on_ints _ _ _ _ _ _ Y1 S2 S5),
    (back_project_on_ints _ _ _ _ _ _ X2 S3 S5),
    (back_project_on_ints _ _ _ _ _ _ Y2 S4 S5).
  unfold measure, RequestRoutes.planar_distance. cbn [px py].
  destruct (back_project (float_of_Z x1) (cx k) (float_of_Z Zd) (fx k)) as [a1|e];
    cbn [lift bind Py.bind]; [|reflexivity].
  destruct (back_project (float_of_Z y1) (cy k) (float_of_Z Zd) (fy k)) as [b1|e];
    cbn [lift bind Py.bind]; [|reflexivity].
  destruct (back_project (float_of_Z x2) (cx k) (float_of_Z Zd) (fx k)) as [a2|e];
    cbn [lift bind Py.bind]; [|reflexivity].
  destruct (back_project (float_of_Z y2) (cy k) (float_of_Z Zd) (fy k)) as [b2|e];
    cbn [lift bind Py.bind]; [|reflexivity].
  destruct (float_pow2 (a2 - a1)) as [dx2|e]; cbn [lift bind Py.bind]; [|reflexivity].
  destruct (float_pow2 (b2 - b1)) as [dy2|e]; cbn [lift bind Py.bind]; [|reflexivity].
  destruct (math_sqrt (dx2 + dy2)) as [s|e]; cbn [lift bind Py.bind]; reflexivity.
Qed.

Lemma size_integer_values_witness :
  RequestRoutes.calculate_size
    (JObject [("p1", JObject [("x", JInt 400); ("y", JInt 300)]);
              ("p2", JObject [("x", JInt 450); ("y", JInt 310)]);
              ("Z", JInt 500); ("img_w", JInt 1280); ("img_h", JInt 720)]%string)
  = lift (calculate_size (mkPoint (float_of_Z 400) (float_of_Z 300))
                         (mkPoint (float_of_Z 450) (float_of_Z 310))
                         (float_of_Z 500) 1280 720).
Proof.
  apply (size_integer_values
           [("p1", JObject [("x", JInt 400); ("y", JInt 300)]);
            ("p2", JObject [("x", JInt 450); ("y", JInt 310)]);
            ("Z", JInt 500); ("img_w", JInt 1280); ("img_h", JInt 720)]%string
           [("x", JInt 400); ("y", JInt 300)]%string
           [("x", JInt 450); ("y", JInt 310)]%string
           400 300 450 310 500 1280 720); reflexivity.
Defined.

(** ** Every failure of a route *)
Lemma bind_fail {A B : Type} (r : outcome A) (k : A -> outcome B) e :
  Request.bind r k = Fail e -> r = Fail e \/ exists a, r = Return a /\ k a = Fail e.
Proof.
  destruct r as [a|e0]; cbn; intros H; [right; eauto|left].
  injection H as ->. reflexivity.
Qed.

Lemma subscript_fail v key e :
  subscript v key = Fail e -> e = KeyError key \/ e = TypeError.
Proof.
  unfold subscript. destruct v; try (intros [= <-]; right; reflexivity).
  destruct (lookup key members); [discriminate|]. intros [= <-]. left. reflexivity.
Qed.

Lemma number_fail v e : number v = Fail e -> e = TypeError.
Proof. destruct v; cbn; try discriminate; intros [= <-]; reflexivity. Qed.

Lemma to_float_fail n e : to_float n = Fail e -> e = Arithmetic OverflowError.
Proof.
  unfold to_float. destruct (is_infinity (float_of_Z n)); [|discriminate].
  intros [= <-]. reflexivity.
Qed.

Lemma as_float_fail a e : as_float a = Fail e -> e = Arithmetic OverflowError.
Proof. destruct a; cbn; [apply to_float_fail|discriminate]. Qed.

Lemma sub_fail a b e : RequestRoutes.sub a b = Fail e -> e = Arithmetic OverflowError.
Proof.
  unfold RequestRoutes.sub. destruct a as [x|x], b as [y|y]; try discriminate; intros H;
    apply bind_fail in H; destruct H as [H|(u & _ & H)];
    try (apply as_float_fail in H; exact H);
    apply bind_fail in H; destruct H as [H|(w & _ & H)];
    try (apply as_float_fail in H; exact H); discriminate.
Qed.

Lemma mul_fail a b e : RequestRoutes.mul a b = Fail e -> e = Arithmetic OverflowError.
Proof.
  unfold RequestRoutes.mul. destruct a as [x|x], b as [y|y]; try discriminate; intros H;
    apply bind_fail in H; destruct H as [H|(u & _ & H)];
    try (apply as_float_fail in H; exact H);
    apply bind_fail in H; destruct H as [H|(w & _ & H)];
    try (apply as_float_fail in H; exact H); discriminate.
Qed.

Lemma lift_fail {A : Type} (r : result A) e :
  lift r = Fail e -> exists e', e = Arithmetic e' /\ r = Raise e'.
Proof. destruct r; cbn; [discriminate|]. intros [= <-]. eauto. Qed.

Lemma float_truediv_raise a b e :
  float_truediv a b = Raise e -> e = ZeroDivisionError /\ (b =? 0)%float = true.
Proof.
  unfold float_truediv. destruct (b =? 0)%float; [|discriminate].
  intros [= <-]. split; reflexivity.
Qed.

Lemma truediv_fail a b e :
  RequestRoutes.truediv a b = Fail e ->
  e = Arithmetic OverflowError \/
  (e = Arithmetic ZeroDivisionError /\
   match b with
   | Int y => y = 0 \/ exists x, a = Float x /\ (float_of_Z y =? 0)%float = true
   | Float y => (y =? 0)%float = true
   end).
Proof.
  unfold RequestRoutes.truediv. destruct a as [x|x], b as [y|y]; intros H.
  - apply lift_fail in H. destruct H as (e' & -> & H). unfold int_truediv in H.
    destruct (Z.eqb_spec y 0); [injection H as <-; right; split; auto|].
    left. f_equal. apply (int_truediv_raise x y); [assumption|].
    unfold int_truediv. destruct (Z.eqb_spec y 0); [contradiction|exact H].
  - apply bind_fail in H. destruct H as [H|(u & _ & H)];
      [left; apply as_float_fail in H; exact H|].
    cbn [as_float Request.bind] in H. apply lift_fail in H. destruct H as (e' & -> & H).
    apply float_truediv_raise in H. destruct H as [-> H]. right. split; auto.
  - cbn [as_float Request.bind] in H. apply bind_fail in H.
    destruct H as [H|(u & Hu & H)]; [left; apply to_float_fail in H; exact H|].
    apply lift_fail in H. destruct H as (e' & -> & H).
    apply float_truediv_raise in H. destruct H as [-> H]. right. split; [reflexivity|].
    right. exists x. split; [reflexivity|]. unfold to_float in Hu.
    destruct (is_infinity (float_of_Z y)); [discriminate|]. injection Hu as ->. exact H.
  - cbn [as_float Request.bind] in H. apply lift_fail in H. destruct H as (e' & -> & H).
    apply float_truediv_raise in H. destruct H as [-> H]. right. split; auto.
Qed.

Lemma scaler_request_fail a b e :
  RequestRoutes.get_scaled_intrinsics a b = Fail e ->
  e = TypeError \/ e = Arithmetic OverflowError.
Proof.
  assert (D : forall x c, (c = CALIB_W \/ c = CALIB_H) ->
              RequestRoutes.truediv x (Int c) = Fail e -> e = Arithmetic OverflowError).
  { intros x c Hc H. apply truediv_fail in H. destruct H as [H|[_ H]]; [exact H|].
    exfalso. destruct H as [H|(y & _ & H)]; destruct Hc as [-> | ->]; discriminate. }
  unfold RequestRoutes.get_scaled_intrinsics. intros H.
  apply bind_fail in H. destruct H as [H|(w & _ & H)]; [left; eapply number_fail, H|].
  apply bind_fail in H. destruct H as [H|(sx & _ & H)]; [right; eapply D; [|exact H]; auto|].
  apply bind_fail in H. destruct H as [H|(h & _ & H)]; [left; eapply number_fail, H|].
  apply bind_fail in H. destruct H as [H|(sy & _ & H)]; [right; eapply D; [|exact H]; auto|].
  discriminate.
Qed.

Lemma float_of_Z_nonzero n : 1 <= n -> (float_of_Z n =? 0)%float = false.
Proof.
  intros Hn. pose proof (float_of_Z_rounds n ltac:(lia)) as R.
  apply rounds_to_lower in R.
  - rewrite eqb_spec. change (Prim2SF 0) with (S754_zero false).
    destruct R as [-> |(m & e & ->)]; reflexivity.
  - assert (1 <= IZR n)%R by (apply IZR_le; exact Hn).
    assert (bpow (-1074) <= bpow 0)%R by (apply bpow_le; lia).
    change (bpow 0) with 1%R in *. lra.
Qed.

(** X25.  Whatever JSON value the depth route receives, it fails only with
    a KeyError for one of the keys it reads (p_left, p_right, img_w, img_h
    and x), with a TypeError, or with an OverflowError: it never divides by
    zero. *)
Theorem stereo_request_failures :
  forall data e,
    RequestRoutes.calculate_stereo data = Fail e ->
    match e with
    | KeyError key => In key ["p_left"; "p_right"; "img_w"; "img_h"; "x"]%string
    | TypeError => True
    | Arithmetic e' => e' = OverflowError
    end.
Proof.
  intros data e H. unfold RequestRoutes.calculate_stereo in H.
  assert (S : forall v key, In key ["p_left"; "p_right"; "img_w"; "img_h"; "x"]%string ->
              subscript v key = Fail e ->
              match e with
              | KeyError key => In key ["p_left"; "p_right"; "img_w"; "img_h"; "x"]%string
              | TypeError => True
              | Arithmetic e' => e' = OverflowError
              end).
  { intros v key Hk F. apply subscript_fail in F. destruct F as [-> | ->]; [exact Hk|exact I]. }
  apply bind_fail in H. destruct H as [H|(pl & _ & H)]; [eapply S, H; cbn; auto|].
  apply bind_fail in H. destruct H as [H|(pr & _ & H)]; [eapply S, H; cbn; auto|].
  apply bind_fail in H. destruct H as [H|(w & _ & H)]; [eapply S, H; cbn; auto|].
  apply bind_fail in H. destruct H as [H|(h & _ & H)]; [eapply S, H; cbn; auto|].
  apply bind_fail in H. destruct H as [H|(k & _ & H)];
    [apply scaler_request_fail in H; destruct H as [-> | ->]; [exact I|reflexivity]|].
  apply bind_fail in H. destruct H as [H|(xl & _ & H)]; [eapply S, H; cbn; auto 6|].
  apply bind_fail in H. destruct H as [H|(xr & _ & H)]; [eapply S, H; cbn; auto 6|].
  apply bind_fail in H. destruct H as [H|(a & _ & H)];
    [apply number_fail in H; subst e; exact I|].
  apply bind_fail in H. destruct H as [H|(b & _ & H)];
    [apply number_fail in H; subst e; exact I|].
  apply bind_fail in H. destruct H as [H|(d & _ & H)];
    [apply sub_fail in H; subst e; reflexivity|].
  destruct (RequestRoutes.below_one (RequestRoutes.abs d)) eqn:B; [discriminate|].
  apply bind_fail in H. destruct H as [H|(z & _ & H)]; [|discriminate].
  apply truediv_fail in H. destruct H as [-> |[_ H]]; [reflexivity|exfalso].
  destruct d as [x|x]; cbn [RequestRoutes.abs RequestRoutes.below_one] in B, H.
  - apply Z.ltb_ge in B. destruct H as [H|(y & _ & H)]; [lia|].
    rewrite (float_of_Z_nonzero _ B) in H. discriminate.
  - rewrite (ltb_1_not_0 _ B) in H. discriminate.
Qed.

Lemma stereo_request_failures_witness :
  match KeyError "x" with
  | KeyError key => In key ["p_left"; "p_right"; "img_w"; "img_h"; "x"]%string
  | TypeError => True
  | Arithmetic e' => e' = OverflowError
  end.
Proof.
  apply (stereo_request_failures
           (JObject [("p_left", JObject []); ("p_right", JObject []);
                     ("img_w", JInt 1280); ("img_h", JFloat 720)]%string)).
  vm_compute. reflexivity.
Defined.

Lemma back_project_request_fail p axis c Zd f e :
  RequestRoutes.back_project p axis c Zd f = Fail e ->
  e = KeyError axis \/ e = TypeError \/ e = Arithmetic OverflowError \/
  e = Arithmetic ZeroDivisionError.
Proof.
  unfold RequestRoutes.back_project. intros H.
  apply bind_fail in H. destruct H as [H|(v & _ & H)];
    [apply subscript_fail in H; tauto|].
  apply bind_fail in H. destruct H as [H|(a & _ & H)]; [apply number_fail in H; tauto|].
  apply bind_fail in H. destruct H as [H|(d & _ & H)]; [apply sub_fail in H; tauto|].
  apply bind_fail in H. destruct H as [H|(z & _ & H)]; [apply number_fail in H; tauto|].
  apply bind_fail in H. destruct H as [H|(m & _ & H)]; [apply mul_fail in H; tauto|].
  apply truediv_fail in H. tauto.
Qed.

Lemma planar_distance_raise X1 Y1 X2 Y2 e :
  RequestRoutes.planar_distance X1 Y1 X2 Y2 = Raise e -> e = OverflowError.
Proof.
  unfold RequestRoutes.planar_distance.
  destruct (float_pow2 (X2 - X1)) as [dx2|ex] eqn:Px; cbn [Py.bind];
    [|intros [= <-]; apply float_pow2_raise in Px; exact Px].
  destruct (float_pow2 (Y2 - Y1)) as [dy2|ey] eqn:Py; cbn [Py.bind];
    [|intros [= <-]; apply float_pow2_raise in Py; exact Py].
  rewrite (math_sqrt_squares _ _ _ _ Px Py). discriminate.
Qed.

(** X26.  Whatever JSON value the size route receives, it fails only with a
    KeyError for one of the keys it reads (p1, p2, Z, img_w, img_h, x and
    y), with a TypeError, an OverflowError or a ZeroDivisionError: never
    with the ValueError of [math.sqrt]. *)
Theorem size_request_failures :
  forall data e,
    RequestRoutes.calculate_size data = Fail e ->
    match e with
    | KeyError key => In key ["p1"; "p2"; "Z"; "img_w"; "img_h"; "x"; "y"]%string
    | TypeError => True
    | Arithmetic e' => e' = OverflowError \/ e' = ZeroDivisionError
    end.
Proof.
  intros data e H. unfold RequestRoutes.calculate_size in H.
  assert (S : forall v key,
              In key ["p1"; "p2"; "Z"; "img_w"; "img_h"; "x"; "y"]%string ->
              subscript v key = Fail e ->
              match e with
              | KeyError key => In key ["p1"; "p2"; "Z"; "img_w"; "img_h"; "x"; "y"]%string
              | TypeError => True
              | Arithmetic e' => e' = OverflowError \/ e' = ZeroDivisionError
              end).
  { intros v key Hk F. apply subscript_fail in F. destruct F as [-> | ->]; [exact Hk|exact I]. }
  assert (B : forall p axis c Zd f, (axis = "x" \/ axis = "y")%string ->
              RequestRoutes.back_project p axis c Zd f = Fail e ->
              match e with
              | KeyError key => In key ["p1"; "p2"; "Z"; "img_w"; "img_h"; "x"; "y"]%string
              | TypeError => True
              | Arithmetic e' => e' = OverflowError \/ e' = ZeroDivisionError
              end).
  { intros p axis c Zd f Ha F. apply back_project_request_fail in F.
    destruct F as [-> |[-> |[-> | ->]]]; auto.
    destruct Ha as [-> | ->]; cbn; auto 8. }
  apply bind_fail in H. destruct H as [H|(p1 & _ & H)]; [eapply S, H; cbn; auto|].
  apply bind_fail in H. destruct H as [H|(p2 & _ & H)]; [eapply S, H; cbn; auto|].
  apply bind_fail in H. destruct H as [H|(Zd & _ & H)]; [eapply S, H; cbn; auto|].
  apply bind_fail in H. destruct H as [H|(w & _ & H)]; [eapply S, H; cbn; auto|].
  apply bind_fail in H. destruct H as [H|(h & _ & H)]; [eapply S, H; cbn; auto 6|].
  apply bind_fail in H. destruct H as [H|(k & _ & H)];
    [apply scaler_request_fail in H; destruct H as [-> | ->]; [exact I|left; reflexivity]|].
  apply bind_fail in H. destruct H as [H|(X1 & _ & H)]; [eapply B, H; auto|].
  apply bind_fail in H. destruct H as [H|(Y1 & _ & H)]; [eapply B, H; auto|].
  apply bind_fail in H. destruct H as [H|(X2 & _ & H)]; [eapply B, H; auto|].
  apply bind_fail in H. destruct H as [H|(Y2 & _ & H)]; [eapply B, H; auto|].
  apply bind_fail in H. destruct H as [H|([[s dx] dy] & _ & H)]; [|discriminate].
  apply lift_fail in H. destruct H as (e' & -> & H).
  apply planar_distance_raise in H. left. exact H.
Qed.

Lemma size_request_failures_witness :
  match Arithmetic ZeroDivisionError with
  | KeyError key => In key ["p1"; "p2"; "Z"; "img_w"; "img_h"; "x"; "y"]%string
  | TypeError => True
  | Arithmetic e' => e' = OverflowError \/ e' = ZeroDivisionError
  end.
Proof.
  apply (size_request_failures
           (JObject [("p1", JObject [("x", JInt 1); ("y", JInt 1)]);
                     ("p2", JObject [("x", JInt 2); ("y", JInt 2)]);
                     ("Z", JBool true); ("img_w", JInt 0); ("img_h", JFloat 720)]%string)).
  vm_compute. reflexivity.
Defined.

(** ** The same scene at twice the resolution *)

Lemma SFdiv_scale_both x y :
  SFdiv prec emax (scale2 x) (scale2 y) = SFdiv prec emax x y.
Proof.
  destruct x as [sx|sx| |sx mx ex], y as [sy|sy| |sy my ey]; try reflexivity.
  cbn [scale2].
  apply (rounds_as_unique (xorb sx sy)
           (IZR (Z.pos mx) * bpow ex / (IZR (Z.pos my) * bpow ey))%R);
    [|apply SFdiv_rounds_as].
  replace (IZR (Z.pos mx) * bpow ex / (IZR (Z.pos my) * bpow ey))%R
    with (IZR (Z.pos mx) * bpow (ex + 1) / (IZR (Z.pos my) * bpow (ey + 1)))%R;
    [apply SFdiv_rounds_as|].
  rewrite !double_value.
  assert (0 < IZR (Z.pos my))%R by (apply IZR_lt; lia).
  pose proof (bpow_pos ey). field. split; lra.
Qed.

Lemma pos_finite_wide f v a b :
  pos_finite f v -> (bpow a <= v <= bpow b)%R -> -1019 <= a -> b <= 966 ->
  wide_range (Prim2SF f) = true.
Proof.
  intros (m & e & E & ->) [Hl Hu] Ha Hb. rewrite E. cbn [wide_range].
  pose proof (pos_finite_valid _ _ _ E) as V.
  destruct (valid_canonical _ _ _ V) as [(_ & Hm & _) _].
  pose proof (bpow_pos e) as He.
  assert (M1 : (1 <= IZR (Z.pos m))%R) by (apply IZR_le; lia).
  assert (M2 : (IZR (Z.pos m) < bpow 53)%R)
    by (rewrite (bpow_IZR 53) by lia; apply IZR_lt; lia).
  apply andb_true_iff. split; apply Z.leb_le.
  - destruct (Z_le_gt_dec (-1072) e) as [|G]; [assumption|exfalso].
    assert (bpow (e + 53) <= bpow a)%R by (apply bpow_le; lia).
    rewrite bpow_plus in *. nra.
  - destruct (Z_le_gt_dec e 966) as [|G]; [assumption|exfalso].
    assert (bpow b < bpow e)%R by (apply bpow_lt; lia). nra.
Qed.

Lemma in_range_of_bounds f v a b :
  pos_finite f v -> (bpow a <= v <= bpow b)%R -> -1019 <= a -> b <= 960 ->
  in_range (Prim2SF f) = true.
Proof.
  intros P B Ha Hb. pose proof (pos_finite_wide f v a b P B Ha ltac:(lia)) as W.
  destruct P as (m & e & E & ->). rewrite E in *. cbn [wide_range in_range] in *.
  apply andb_true_iff in W. destruct W as [W1 _]. rewrite W1. cbn [andb].
  apply Z.leb_le. destruct (Z_le_gt_dec e 960) as [|G]; [assumption|exfalso].
  destruct B as [_ Hu]. pose proof (bpow_pos e).
  assert (1 <= IZR (Z.pos m))%R by (apply IZR_le; lia).
  assert (bpow b < bpow e)%R by (apply bpow_lt; lia). nra.
Qed.

Lemma scaled_double_SF c vc D vD w :
  pos_finite c vc -> (bpow 8 <= vc <= bpow 10)%R ->
  pos_finite (float_of_Z D) vD -> (bpow 9 <= vD <= bpow 11)%R ->
  0 < w < 2 ^ 52 ->
  Prim2SF (c * (float_of_Z (2 * w) / float_of_Z D))
  = scale2 (Prim2SF (c * (float_of_Z w / float_of_Z D))).
Proof.
  intros Pc Bc P0 B0 Hw. rewrite (scaled_double_by c vc D vD w Pc Bc P0 B0 Hw).
  destruct (float_of_Z_finite w ltac:(lia)) as (vw & Pw & Bw).
  destruct (div_bounds _ _ _ _ 0 53 9 11 Pw P0 Bw B0 ltac:(lia) ltac:(lia)) as (vq & Pq & Bq).
  destruct (mul_bounds _ _ _ _ 8 10 (0 - 11) (53 - 9) Pc Pq Bc Bq ltac:(lia) ltac:(lia))
    as (vr & Pr & Br).
  apply two_scale. right. apply in_range_of_bounds with (1 := Pr) (2 := Br); lia.
Qed.

Lemma mul_scale_l a a' Zd :
  Prim2SF a' = scale2 (Prim2SF a) -> scales a (a * Zd) = true ->
  Prim2SF (a' * Zd) = scale2 (Prim2SF (a * Zd)).
Proof.
  intros H S. apply scales_wide in S. rewrite mul_spec in S. rewrite !mul_spec, H.
  apply SFmul_scale_l; try apply Prim2SF_valid; [|exact S].
  rewrite <- H. apply Prim2SF_valid.
Qed.

Lemma back_project_doubled x c Zd f x' c' f' :
  Prim2SF x' = scale2 (Prim2SF x) -> Prim2SF c' = scale2 (Prim2SF c) ->
  Prim2SF f' = scale2 (Prim2SF f) ->
  scales (x - c) (x - c) = true -> scales (x - c) ((x - c) * Zd) = true ->
  ((x' - c') * Zd / f' = (x - c) * Zd / f)%float.
Proof.
  intros Hx Hc Hf S1 S2. apply Prim2SF_inj.
  pose proof (sub_scale _ _ _ _ Hx Hc S1) as Ha.
  pose proof (mul_scale_l _ _ Zd Ha S2) as Hn.
  rewrite !div_spec, Hn, Hf. apply SFdiv_scale_both.
Qed.

Lemma scaler_doubled w h :
  0 < w < 2 ^ 52 -> 0 < h < 2 ^ 52 ->
  exists k k2,
    get_scaled_intrinsics w h = OK k /\ get_scaled_intrinsics (2 * w) (2 * h) = OK k2 /\
    Prim2SF (fx k2) = scale2 (Prim2SF (fx k)) /\ Prim2SF (fy k2) = scale2 (Prim2SF (fy k)) /\
    Prim2SF (cx k2) = scale2 (Prim2SF (cx k)) /\ Prim2SF (cy k2) = scale2 (Prim2SF (cy k)).
Proof.
  intros Hw Hh. rewrite !get_scaled_intrinsics_small by (apply is_small_pos; lia).
  eexists _, _. split; [reflexivity|]. split; [reflexivity|]. cbn [fx fy cx cy].
  destruct ORIG_FX_finite as (vfx & Pfx & Bfx). destruct ORIG_FY_finite as (vfy & Pfy & Bfy).
  destruct ORIG_CX_finite as (vcx & Pcx & Bcx). destruct ORIG_CY_finite as (vcy & Pcy & Bcy).
  destruct const_finite_1280 as (vW & PW & BW). destruct const_finite_720 as (vH & PH & BH).
  apply widen_8 in Bfx, Bfy, Bcx. apply widen_9 in BW. apply widen_11 in BH.
  repeat split; eapply scaled_double_SF; eassumption.
Qed.

Lemma scales_two p : scales p p = true -> Prim2SF (2 * p) = scale2 (Prim2SF p).
Proof. intros S. apply two_scale, (scales_result _ _ S). Qed.

(** X27.  The size does not depend on the resolution at which the same
    scene is clicked: when the image dimensions and all pixel coordinates
    are doubled and the depth is kept, the size route returns exactly the
    same outcome, as long as each coordinate, its centred value and the
    product of that value with the depth is zero or in the normal range
    ([resolution_safe]). *)
Theorem size_resolution_invariant :
  forall p1 p2 Zd img_w img_h k,
    0 < img_w < 2 ^ 52 -> 0 < img_h < 2 ^ 52 ->
    get_scaled_intrinsics img_w img_h = OK k ->
    resolution_safe p1 p2 Zd k = true ->
    calculate_size (mkPoint (2 * px p1) (2 * py p1)) (mkPoint (2 * px p2) (2 * py p2)) Zd
                   (2 * img_w) (2 * img_h)
    = calculate_size p1 p2 Zd img_w img_h.
Proof.
  intros p1 p2 Zd w h k Hw Hh G S.
  destruct (scaler_doubled w h Hw Hh) as (k0 & k2 & G0 & G2 & Efx & Efy & Ecx & Ecy).
  rewrite G in G0. injection G0 as <-.
  unfold resolution_safe in S. cbv zeta in S. rewrite !andb_true_iff in S.
  destruct S as [[[[[A1 A2] A3] [[B1 B2] B3]] [[C1 C2] C3]] [[D1 D2] D3]].
  unfold calculate_size. rewrite G, G2. cbn [Py.bind].
  replace (measure (mkPoint (2 * px p1) (2 * py p1)) (mkPoint (2 * px p2) (2 * py p2)) Zd k2)
    with (measure p1 p2 Zd k); [reflexivity|].
  destruct (scaled_nonzero w h k ltac:(lia) ltac:(lia) G) as [Nx Ny].
  destruct (scaled_nonzero (2 * w) (2 * h) k2 ltac:(lia) ltac:(lia) G2) as [Nx2 Ny2].
  unfold measure, back_project, float_truediv. cbn [px py]. rewrite Nx, Ny, Nx2, Ny2.
  rewrite (back_project_doubled (px p1) (cx k) Zd (fx k) _ _ _ (scales_two _ A1) Ecx Efx A2 A3).
  rewrite (back_project_doubled (py p1) (cy k) Zd (fy k) _ _ _ (scales_two _ B1) Ecy Efy B2 B3).
  rewrite (back_project_doubled (px p2) (cx k) Zd (fx k) _ _ _ (scales_two _ C1) Ecx Efx C2 C3).
  rewrite (back_project_doubled (py p2) (cy k) Zd (fy k) _ _ _ (scales_two _ D1) Ecy Efy D2 D3).
  reflexivity.
Qed.

Lemma size_resolution_invariant_witness :
  calculate_size (mkPoint (2 * 400) (2 * 300)) (mkPoint (2 * 450) (2 * 310)) 495.698
                 (2 * 640) (2 * 360)
  = calculate_size (mkPoint 400 300) (mkPoint 450 310) 495.698 640 360.
Proof.
  assert (G : exists k, get_scaled_intrinsics 640 360 = OK k /\
                resolution_safe (mkPoint 400 300) (mkPoint 450 310) 495.698 k = true).
  { eexists. split; vm_compute; reflexivity. }
  destruct G as (k & G & S).
  apply (size_resolution_invariant (mkPoint 400 300) (mkPoint 450 310) 495.698 640 360 k);
    [lia|lia|exact G|exact S].
Defined.

Lemma abs_scale d d' :
  Prim2SF d' = scale2 (Prim2SF d) ->
  Prim2SF (PrimFloat.abs d') = scale2 (Prim2SF (PrimFloat.abs d)).
Proof. intros H. rewrite !abs_spec, H. destruct (Prim2SF d); reflexivity. Qed.

(** X28.  The depth does not depend on the resolution either: when the
    image width and the two abscissas are doubled, the disparity doubles and
    the depth route returns the same depth, for a width from 1 to
    [2^52 - 1], heights below [2^53] in magnitude, abscissas that are zero or
    in the normal range and a disparity of at least 1.0 in that range. *)
Theorem stereo_resolution_invariant :
  forall p_left p_right y_left y_right img_w h1 h2,
    0 < img_w < 2 ^ 52 -> Z.abs h1 < 2 ^ 53 -> Z.abs h2 < 2 ^ 53 ->
    scales (px p_left) (px p_left) = true -> scales (px p_right) (px p_right) = true ->
    scales (px p_left - px p_right) (px p_left - px p_right) = true ->
    (1 <=? disparity_of p_left p_right)%float = true ->
    let d := disparity_of p_left p_right in
    let z := round (ORIG_FX * (float_of_Z img_w / float_of_Z CALIB_W) * BASELINE / d) 4 in
    calculate_stereo p_left p_right img_w h1 = OK (StereoResult z (round d 2)) /\
    calculate_stereo (mkPoint (2 * px p_left) y_left) (mkPoint (2 * px p_right) y_right)
                     (2 * img_w) h2
    = OK (StereoResult z (round (2 * d) 2)).
Proof.
  intros pl pr yl yr w h1 h2 Hw Hh1 Hh2 Sl Sr Sd Hd d z.
  assert (Sm : forall n, Z.abs n < 2 ^ 53 -> is_small n = true)
    by (intros n Hn; unfold is_small; apply Z.ltb_lt; exact Hn).
  pose proof (get_scaled_intrinsics_small w h1 (Sm w ltac:(lia)) (Sm h1 Hh1)) as G1.
  pose proof (get_scaled_intrinsics_small (2 * w) h2 (Sm (2 * w) ltac:(lia)) (Sm h2 Hh2)) as G2.
  assert (Fd : is_finite d = true).
  { subst d. unfold disparity_of. rewrite is_finite_SF, abs_spec.
    apply scales_result in Sd. destruct (Prim2SF (px pl - px pr));
      destruct Sd as [Sd|Sd]; try discriminate Sd; reflexivity. }
  destruct (disparity_ge_1 d Hd Fd) as (vd & Pd & Bd).
  assert (L1 : (d <? 1)%float = false) by (apply leb_ltb, Hd).
  split.
  - rewrite (stereo_large pl pr w h1 _ G1 L1). reflexivity.
  - set (pl2 := mkPoint (2 * px pl) yl). set (pr2 := mkPoint (2 * px pr) yr).
    assert (E0 : Prim2SF (px pl2 - px pr2) = scale2 (Prim2SF (px pl - px pr))).
    { apply sub_scale; [apply scales_two, Sl|apply scales_two, Sr|exact Sd]. }
    assert (Ed : Prim2SF (disparity_of pl2 pr2) = scale2 (Prim2SF d))
      by (apply abs_scale, E0).
    assert (Rd : in_range (Prim2SF d) = true).
    { destruct (scales_result _ _ Sd) as [Z0|R].
      - exfalso. destruct Pd as (m & e & E & _). subst d. unfold disparity_of in E.
        rewrite abs_spec in E. destruct (Prim2SF (px pl - px pr)); discriminate.
      - subst d. unfold disparity_of. rewrite abs_spec.
        destruct (Prim2SF (px pl - px pr)); try discriminate; exact R. }
    assert (D2 : disparity_of pl2 pr2 = (2 * d)%float)
      by (apply doubled; [exact Ed|right; exact Rd]).
    assert (L2 : (disparity_of pl2 pr2 <? 1)%float = false).
    { apply leb_ltb. rewrite leb_spec, Ed.
      destruct Pd as (m & e & E & ->). rewrite E. cbn [scale2].
      assert (V2 : valid_binary (S754_finite false m (e + 1)) = true).
      { pose proof (Prim2SF_valid (disparity_of pl2 pr2)) as V. rewrite Ed, E in V. exact V. }
      apply (rounds_to_mono (bpow 0) (IZR (Z.pos m) * bpow (e + 1))).
      - assert (P1 : pos_finite 1 (bpow 0)).
        { exists 4503599627370496%positive, (-52). split; [vm_compute; reflexivity|].
          bpow_num. lra. }
        apply (pos_finite_exact _ _ P1).
      - apply rounds_to_exact, V2.
      - rewrite double_value. pose proof (bpow_pos 0). lra. }
    destruct ORIG_FX_finite as (vfx & Pfx & Bfx). destruct const_finite_1280 as (vW & PW & BW).
    pose proof (scaled_double_SF _ _ _ _ w Pfx (widen_8 _ Bfx) PW (widen_9 _ BW) Hw) as Ef.
    destruct (fx_finite w ltac:(lia)) as (vf & Pf & Bf).
    destruct const_finite_10 as (vb & Pb & Bb).
    destruct (mul_bounds _ _ _ _ (-2) 53 3 4 Pf Pb Bf Bb ltac:(lia) ltac:(lia))
      as (vn & Pn & Bn).
    pose proof (pos_finite_wide _ _ _ _ Pn Bn ltac:(lia) ltac:(lia)) as Wn.
    rewrite mul_spec in Wn.
    assert (En : Prim2SF (ORIG_FX * (float_of_Z (2 * w) / float_of_Z CALIB_W) * BASELINE)
                 = scale2 (Prim2SF (ORIG_FX * (float_of_Z w / float_of_Z CALIB_W) * BASELINE))).
    { rewrite (mul_spec (ORIG_FX * (float_of_Z (2 * w) / float_of_Z CALIB_W)) BASELINE),
        (mul_spec (ORIG_FX * (float_of_Z w / float_of_Z CALIB_W)) BASELINE), Ef.
      apply SFmul_scale_l; try apply Prim2SF_valid; [|right; exact Wn].
      rewrite <- Ef. apply Prim2SF_valid. }
    assert (EZ : (ORIG_FX * (float_of_Z (2 * w) / float_of_Z CALIB_W) * BASELINE / (2 * d)
                  = ORIG_FX * (float_of_Z w / float_of_Z CALIB_W) * BASELINE / d)%float).
    { apply Prim2SF_inj. rewrite !div_spec, En, <- D2, Ed. apply SFdiv_scale_both. }
    rewrite (stereo_large pl2 pr2 (2 * w) h2 _ G2 L2). cbn [fx]. rewrite D2, EZ.
    reflexivity.
Qed.

Lemma stereo_resolution_invariant_witness :
  let d := disparity_of (mkPoint 400 300) (mkPoint 380 300) in
  let z := round (ORIG_FX * (float_of_Z 640 / float_of_Z CALIB_W) * BASELINE / d) 4 in
  calculate_stereo (mkPoint 400 300) (mkPoint 380 300) 640 360 = OK (StereoResult z (round d 2)) /\
  calculate_stereo (mkPoint (2 * 400) 600) (mkPoint (2 * 380) 600) (2 * 640) 720
  = OK (StereoResult z (round (2 * d) 2)).
Proof.
  apply (stereo_resolution_invariant (mkPoint 400 300) (mkPoint 380 300) 600 600 640 360 720);
    try (vm_compute; reflexivity); lia.
Defined.
